(** * asev: the event dispatcher ([ev_service]) and its workers

    A shallow embedding of [actorx/asev/ev_service.hpp] and
    [asev/detail/worker.hpp].

    Conventions.
    - [size_t] values are [N]; an increment is written with its 64-bit
      wrap-around ([size_wrap]).  The signed [long] of the run loop is a
      [Z] wrapped by [long_wrap] (64 bits, as on LP64 platforms).
    - A [std::deque] is a [list]; [d[i]] is [d !! N.to_nat i].  Indexing
      out of range is undefined behaviour in the source and yields the
      outcome [Undefined] here.
    - A pointer to a worker is the position of that worker in
      [worker_list_]; the null pointer is [None].
    - An event pointer is a number (object identity).  What its
      [handle(thrctx)] does is user code: it is the section variable
      [handle], which may change user state, submit further events
      through the dispatcher, and either returns the auto-release flag
      or throws.
    - Every primitive operation appends to a ghost [trace], so that the
      order of effects can be stated. *)

From Stdlib Require Import NArith ZArith Lia List String.
From stdpp Require Import base tactics option list numbers.

Local Open Scope N_scope.

(** ** Machine integers *)

Definition size_bits : N := 64.

(** Unsigned wrap-around of [size_t] arithmetic. *)
Definition size_wrap (n : N) : N := n mod 2 ^ size_bits.

(** Two's complement wrap-around of [long] arithmetic. *)
Definition long_wrap (z : Z) : Z :=
  ((z + 2 ^ 63) mod 2 ^ 64 - 2 ^ 63)%Z.

(** ** Data model *)

(** [gsl::owner<event_base*>]: identity of an event object. *)
Definition event := N.

(** Identity of a [thread_local_pool] registered in [local_pool_queue_]. *)
Definition pool_id := N.

Definition logger := string.

Inductive work_level := prior | minor.

Inductive memory_order := mo_relaxed | mo_release | mo_acq_rel | mo_seq_cst.

(** [basic_thrctx]: the thread's logical index and its current worker. *)
Record thrctx_t := mk_thrctx {
  thr_index : N;
  thr_worker : option N
}.

Definition set_worker (wkr : option N) (thrctx : thrctx_t) : thrctx_t :=
  {| thr_index := thr_index thrctx; thr_worker := wkr |}.

(** [detail::worker]. *)
Record worker := mk_worker {
  index_ : N;
  que_ : list event
}.

(** [ev_service::thread_data]; the mutex and the condition variable
    carry no data and appear only in the trace. *)
Record thread_data := mk_thread_data {
  cnt_ : N;
  thrctx_ : thrctx_t;
  tstart_que_ : list event;
  texit_que_ : list event;
  tsegv_que_ : list event;
  stop_ : bool
}.

Record ev_service := mk_ev_service {
  uid_ : N;
  logger_ : logger;
  local_pool_queue_ : list pool_id;
  thread_data_list_ : list thread_data;
  worker_list_ : list worker;
  workshop_ : list (option N);
  curr_sndidx_ : N;
  stopped_workers_ : N
}.

(** The four kinds of event queue of the dispatcher. *)
Inductive que_ref :=
| worker_que (wkr : N)
| tstart_que (thr : N)
| texit_que (thr : N)
| tsegv_que (thr : N).

#[global] Instance que_ref_eq_dec : EqDecision que_ref.
Proof. solve_decision. Defined.

(** What a call of [ev->handle(thrctx)] ends with. *)
Inductive handle_result :=
| Returned (is_auto : bool)
| Threw.

(** A submission made through the dispatcher while a handler runs:
    [async]/[post]/[spawn] pick the strand themselves, a strand object
    calls [pri_async] with its own index. *)
Inductive submission :=
| sub_async (ev : event)
| sub_pri_async (target : N) (ev : event).

(** Ghost trace of primitive effects, oldest first. *)
Inductive action :=
| a_load_sndidx (v : N) (mo : memory_order)
| a_store_sndidx (v : N) (mo : memory_order)
| a_push (q : que_ref) (ev : event)
| a_pop (q : que_ref) (r : option event)
| a_call (ev : event) (thrctx : thrctx_t)
| a_return (ev : event) (r : handle_result)
| a_release (ev : event)
| a_ensures_fail
| a_exchange (slot : N) (observed : option N) (mo : memory_order)
| a_store_slot (slot : N) (wkr : N) (mo : memory_order)
| a_set_worker (thr : N) (wkr : option N)
| a_store_stop (thr : N) (mo : memory_order)
| a_incr (thr : N)
| a_signal (thr : N)
| a_delete_pool (p : pool_id)
| a_log_error (thr : N).

(** ** Field updates *)

Definition with_cnt (f : N -> N) (td : thread_data) : thread_data :=
  {| cnt_ := f (cnt_ td); thrctx_ := thrctx_ td;
     tstart_que_ := tstart_que_ td; texit_que_ := texit_que_ td;
     tsegv_que_ := tsegv_que_ td; stop_ := stop_ td |}.

Definition with_stop (b : bool) (td : thread_data) : thread_data :=
  {| cnt_ := cnt_ td; thrctx_ := thrctx_ td;
     tstart_que_ := tstart_que_ td; texit_que_ := texit_que_ td;
     tsegv_que_ := tsegv_que_ td; stop_ := b |}.

Definition with_tstart_que (q : list event) (td : thread_data) : thread_data :=
  {| cnt_ := cnt_ td; thrctx_ := thrctx_ td;
     tstart_que_ := q; texit_que_ := texit_que_ td;
     tsegv_que_ := tsegv_que_ td; stop_ := stop_ td |}.

Definition with_texit_que (q : list event) (td : thread_data) : thread_data :=
  {| cnt_ := cnt_ td; thrctx_ := thrctx_ td;
     tstart_que_ := tstart_que_ td; texit_que_ := q;
     tsegv_que_ := tsegv_que_ td; stop_ := stop_ td |}.

Definition with_tsegv_que (q : list event) (td : thread_data) : thread_data :=
  {| cnt_ := cnt_ td; thrctx_ := thrctx_ td;
     tstart_que_ := tstart_que_ td; texit_que_ := texit_que_ td;
     tsegv_que_ := q; stop_ := stop_ td |}.

Definition with_que (q : list event) (wkr : worker) : worker :=
  {| index_ := index_ wkr; que_ := q |}.

Definition with_thread_data_list (l : list thread_data) (s : ev_service) : ev_service :=
  {| uid_ := uid_ s; logger_ := logger_ s;
     local_pool_queue_ := local_pool_queue_ s;
     thread_data_list_ := l; worker_list_ := worker_list_ s;
     workshop_ := workshop_ s; curr_sndidx_ := curr_sndidx_ s;
     stopped_workers_ := stopped_workers_ s |}.

Definition with_worker_list (l : list worker) (s : ev_service) : ev_service :=
  {| uid_ := uid_ s; logger_ := logger_ s;
     local_pool_queue_ := local_pool_queue_ s;
     thread_data_list_ := thread_data_list_ s; worker_list_ := l;
     workshop_ := workshop_ s; curr_sndidx_ := curr_sndidx_ s;
     stopped_workers_ := stopped_workers_ s |}.

Definition with_workshop (l : list (option N)) (s : ev_service) : ev_service :=
  {| uid_ := uid_ s; logger_ := logger_ s;
     local_pool_queue_ := local_pool_queue_ s;
     thread_data_list_ := thread_data_list_ s; worker_list_ := worker_list_ s;
     workshop_ := l; curr_sndidx_ := curr_sndidx_ s;
     stopped_workers_ := stopped_workers_ s |}.

Definition with_curr_sndidx (v : N) (s : ev_service) : ev_service :=
  {| uid_ := uid_ s; logger_ := logger_ s;
     local_pool_queue_ := local_pool_queue_ s;
     thread_data_list_ := thread_data_list_ s; worker_list_ := worker_list_ s;
     workshop_ := workshop_ s; curr_sndidx_ := v;
     stopped_workers_ := stopped_workers_ s |}.

Definition with_local_pool_queue (l : list pool_id) (s : ev_service) : ev_service :=
  {| uid_ := uid_ s; logger_ := logger_ s;
     local_pool_queue_ := l;
     thread_data_list_ := thread_data_list_ s; worker_list_ := worker_list_ s;
     workshop_ := workshop_ s; curr_sndidx_ := curr_sndidx_ s;
     stopped_workers_ := stopped_workers_ s |}.

(** ** Construction ([ev_service::ev_service], lines 82-138) *)

(** The indices [0, 1, ..., n-1] visited by [for (size_t i=0; i<n; ++i)]. *)
Definition indices (n : N) : list N := map N.of_nat (seq 0 (N.to_nat n)).

Definition new_thread_data (i : N) : thread_data :=
  {| cnt_ := 0; thrctx_ := {| thr_index := i; thr_worker := None |};
     tstart_que_ := []; texit_que_ := []; tsegv_que_ := [];
     stop_ := false |}.

(** [worker(worker_num, index)]: the first argument is unused. *)
Definition new_worker (worker_num index : N) : worker :=
  {| index_ := index; que_ := [] |}.

(** The name of the logger installed when none is given (release build). *)
Definition default_logger : logger := "null_logger"%string.

Definition ev_service_ctor (uid : N) (thread_num : N) (lg : option logger)
    (worker_num : N) : ev_service :=
  let lg := match lg with Some l => l | None => default_logger end in
  let thread_num := if thread_num =? 0 then 1 else thread_num in
  (* Worker num must >= thread_num *)
  let worker_num := if worker_num <? thread_num then thread_num else worker_num in
  let thread_data_list := map new_thread_data (indices thread_num) in
  let worker_list := map (new_worker worker_num) (indices worker_num) in
  (* Push all workers into workshop_: the slot of a worker holds its address. *)
  let workshop := imap (fun i (_ : worker) => Some (N.of_nat i)) worker_list in
  {| uid_ := uid; logger_ := lg; local_pool_queue_ := [];
     thread_data_list_ := thread_data_list; worker_list_ := worker_list;
     workshop_ := workshop; curr_sndidx_ := 0; stopped_workers_ := 0 |}.

Definition get_thread_num (s : ev_service) : N :=
  N.of_nat (length (thread_data_list_ s)).

Definition get_worker_num (s : ev_service) : N :=
  N.of_nat (length (worker_list_ s)).

Definition get_logger (s : ev_service) : logger := logger_ s.

(** The thread count the constructor settles on. *)
Definition effective_thread_num (thread_num : N) : N :=
  if thread_num =? 0 then 1 else thread_num.

(** ** [pri_current] and [current] (lines 404-408 and 588-597)

    [local_thrctx] is the thread-local pointer of the calling thread; a
    thrctx pointer is a number, null is [None].  The call returns the
    pointer and leaves the thread-local as in the second component. *)
Definition pri_current (local_thrctx thrctx : option N) : option N * option N :=
  let local_thrctx :=
    if bool_decide (local_thrctx = None) && bool_decide (thrctx <> None)
    then thrctx else local_thrctx in
  (local_thrctx, local_thrctx).

Definition current (local_thrctx : option N) : option N * option N :=
  pri_current local_thrctx None.

(** Calls of [pri_current] made one after the other by one thread: what
    each returned, and the thread-local at the end. *)
Fixpoint pri_current_calls (local_thrctx : option N) (args : list (option N))
    : list (option N) * option N :=
  match args with
  | [] => ([], local_thrctx)
  | thrctx :: args =>
      let '(r, local_thrctx) := pri_current local_thrctx thrctx in
      let '(rs, local_thrctx) := pri_current_calls local_thrctx args in
      (r :: rs, local_thrctx)
  end.

(** ** Well-formed dispatchers *)

(** ** Thread-locals of a calling thread

    [thread_local_pool_array] (lines 693-697): a counter and one pool
    pointer for each of the [ASEV_MAX_EV_SERVICE] dispatchers a process
    may have; a null pointer is [None]. *)
Record thread_local_pool_array := mk_pool_array {
  size_ : N;
  arr_ : list (option pool_id)
}.

(** The pool [make_event] takes the event from: the pool the calling
    thread has registered with the dispatcher, or the event pool of the
    [thrctx] of a dispatcher thread. *)
Inductive event_pool :=
| local_pool (ptr : pool_id)
| thrctx_pool (thrctx : N).

(** ** The world the dispatcher runs in *)

Section Dispatch.

Context {U : Type}.

(** [ev->handle(thrctx)] for the event object [ev]: from the user state
    to the new user state, the submissions made on the way, and the way
    the call ends. *)
Variable handle : event -> thrctx_t -> U -> U * list submission * handle_result.

(** Modelled from the spec: [worker::fetch_sworks] is called by the run
    loop but is not defined in the sources at hand; the spec only calls
    it the worker's "sworks" counter.  It is taken as a reading that may
    depend on, and change, state outside the dispatcher. *)
Variable fetch_sworks : N -> U -> Z * U.

(** [ASEV_MAX_EV_SERVICE], a constant of config.hpp, which is not among
    the sources at hand. *)
Variable max_ev_service : N.

Record world := mk_world {
  svc : ev_service;
  pool : list event;   (* events given back to their pools, oldest first *)
  user : U;
  trace : list action
}.

Inductive outcome (A : Type) : Type :=
| Done (a : A) (w : world)   (* the call returned *)
| Fatal (w : world)          (* a contract check failed: the process ends *)
| Undefined                  (* undefined behaviour (index out of range) *)
| OutOfFuel.                 (* the call did not return within the fuel *)

Arguments Done {A} a w.
Arguments Fatal {A} w.
Arguments Undefined {A}.
Arguments OutOfFuel {A}.

Definition M (A : Type) : Type := world -> outcome A.

#[global] Instance M_ret : MRet M := fun A a w => Done a w.
#[global] Instance M_bind : MBind M := fun A B f m w =>
  match m w with
  | Done a w' => f a w'
  | Fatal w' => Fatal w'
  | Undefined => Undefined
  | OutOfFuel => OutOfFuel
  end.

Definition set_svc (s : ev_service) (w : world) : world :=
  {| svc := s; pool := pool w; user := user w; trace := trace w |}.

Definition set_user (u : U) (w : world) : world :=
  {| svc := svc w; pool := pool w; user := u; trace := trace w |}.

Definition add_trace (tr : list action) (w : world) : world :=
  {| svc := svc w; pool := pool w; user := user w; trace := trace w ++ tr |}.

Definition get_svc : M ev_service := fun w => Done (svc w) w.

Definition put_svc (s : ev_service) : M unit := fun w => Done tt (set_svc s w).

Definition emit_all (l : list action) : M unit := fun w => Done tt (add_trace l w).

Definition emit (a : action) : M unit := emit_all [a].

Definition undefined {A} : M A := fun _ => Undefined.
Definition out_of_fuel {A} : M A := fun _ => OutOfFuel.
Definition fatal {A} : M A := fun w => Fatal w.

(** [d[i]] on a deque: undefined behaviour when [i] is out of range. *)
Definition at_index {A} (l : list A) (i : N) : M A :=
  match l !! N.to_nat i with
  | Some x => mret x
  | None => undefined
  end.

(** Modelled from the spec: the contract macros [ACTORX_ENSURES] and
    [Ensures] are not defined in the sources at hand; by the spec a
    failed assertion is fatal, "the runtime asserts and terminates". *)
Definition ensures (b : bool) : M unit :=
  if b then mret tt else emit a_ensures_fail;; fatal.

(** *** Queues ([cque::mpsc_queue], an external primitive)

    Modelled from the spec: [push] appends, [pop] returns the next
    element or null on empty. *)

Definition que_get (q : que_ref) (s : ev_service) : option (list event) :=
  match q with
  | worker_que i => que_ <$> worker_list_ s !! N.to_nat i
  | tstart_que i => tstart_que_ <$> thread_data_list_ s !! N.to_nat i
  | texit_que i => texit_que_ <$> thread_data_list_ s !! N.to_nat i
  | tsegv_que i => tsegv_que_ <$> thread_data_list_ s !! N.to_nat i
  end.

Definition que_set (q : que_ref) (l : list event) (s : ev_service) : ev_service :=
  match q with
  | worker_que i =>
      with_worker_list (alter (with_que l) (N.to_nat i) (worker_list_ s)) s
  | tstart_que i =>
      with_thread_data_list
        (alter (with_tstart_que l) (N.to_nat i) (thread_data_list_ s)) s
  | texit_que i =>
      with_thread_data_list
        (alter (with_texit_que l) (N.to_nat i) (thread_data_list_ s)) s
  | tsegv_que i =>
      with_thread_data_list
        (alter (with_tsegv_que l) (N.to_nat i) (thread_data_list_ s)) s
  end.

Definition que_push (q : que_ref) (ev : event) : M unit :=
  s ← get_svc;
  match que_get q s with
  | None => undefined
  | Some l => put_svc (que_set q (l ++ [ev]) s);; emit (a_push q ev)
  end.

Definition que_pop (q : que_ref) : M (option event) :=
  s ← get_svc;
  match que_get q s with
  | None => undefined
  | Some [] => emit (a_pop q None);; mret None
  | Some (ev :: l) =>
      put_svc (que_set q l s);; emit (a_pop q (Some ev));; mret (Some ev)
  end.

(** [ev->release()]: the event goes back to its pool. *)
Definition release (ev : event) : M unit := fun w =>
  Done tt {| svc := svc w; pool := pool w ++ [ev]; user := user w;
             trace := trace w ++ [a_release ev] |}.

(** *** The per-thread counter ([cque::mpsc_count], an external primitive)

    Modelled from the spec: [synchronized_incr(mtx, cv)] increments and,
    under mtx, signals cv; [reset()] swaps the counter to zero and
    returns the previous value. *)

Definition synchronized_incr (thridx : N) : M unit :=
  s ← get_svc;
  _ ← at_index (thread_data_list_ s) thridx;
  put_svc (with_thread_data_list
             (alter (with_cnt N.succ) (N.to_nat thridx) (thread_data_list_ s)) s);;
  emit (a_incr thridx);;
  emit (a_signal thridx).

Definition cnt_reset (thridx : N) : M N :=
  s ← get_svc;
  td ← at_index (thread_data_list_ s) thridx;
  put_svc (with_thread_data_list
             (alter (with_cnt (fun _ => 0)) (N.to_nat thridx) (thread_data_list_ s)) s);;
  mret (cnt_ td).

(** ** [ev_service]: submission *)

(** The value [select_strand_index] writes back after loading [sndidx]. *)
Definition next_sndidx (worker_num sndidx : N) : N :=
  let sndidx := size_wrap (sndidx + 1) in
  if worker_num <=? sndidx then 0 else sndidx.

(** [curr_sndidx_.load(relaxed)] *)
Definition load_sndidx : M N :=
  s ← get_svc;
  emit (a_load_sndidx (curr_sndidx_ s) mo_relaxed);;
  mret (curr_sndidx_ s).

(** The rest of [select_strand_index], from the loaded value on. *)
Definition store_sndidx (sndidx : N) : M N :=
  s ← get_svc;
  let result := sndidx in
  let sndidx := next_sndidx (get_worker_num s) sndidx in
  put_svc (with_curr_sndidx sndidx s);;
  emit (a_store_sndidx sndidx mo_relaxed);;
  mret result.

(** [ev_service::select_strand_index] (lines 661-672). *)
Definition select_strand_index : M N :=
  sndidx ← load_sndidx;
  store_sndidx sndidx.

(** [worker::push_event] *)
Definition push_event (this : N) (ev : event) : M unit :=
  que_push (worker_que this) ev.

(** [ev_service::notify_thread] (lines 654-659). *)
Definition notify_thread (wkridx : N) : M unit :=
  s ← get_svc;
  let size := get_thread_num s in
  if size =? 0 then undefined else
  let thridx := wkridx mod size in
  synchronized_incr thridx.

(** [ev_service::pri_async] (lines 599-603). *)
Definition pri_async (target : N) (ev : event) : M unit :=
  push_event target ev;;
  notify_thread target.

(** [ev_service::async]; [post] and [spawn] wrap the callable in a pool
    event and then do the same. *)
Definition async (ev : event) : M unit :=
  target ← select_strand_index;
  pri_async target ev.

Definition submit (sub : submission) : M unit :=
  match sub with
  | sub_async ev => async ev
  | sub_pri_async target ev => pri_async target ev
  end.

Fixpoint submit_all (subs : list submission) : M unit :=
  match subs with
  | [] => mret tt
  | sub :: subs => submit sub;; submit_all subs
  end.

(** ** [ev_service::make_event] (lines 269-308) *)

(** [ACTORX_EXPECTS]: a failed precondition is fatal, as for the other
    contract macros. *)
Definition expects (b : bool) : M unit :=
  if b then mret tt else fatal.

(** [pool_array] is the thread-local of the calling thread, handed back
    as the second component: the array is a [static thread_local] of
    the template, so there is one for each instantiation
    [make_event<Event, PoolMake>], and this is the one of the
    instantiation called.  [local_thrctx] is the thread-local thrctx
    pointer of the calling thread; [ptr] is the address
    [new thread_local_pool] returns should the call allocate.  The
    closing [ACTORX_ASSERTS(pool != nullptr)] sees the address of an
    object in either branch.  The call ends in [cque::get] on the pool
    it has chosen, an external primitive: the result here is that
    pool. *)
Definition make_event (local_thrctx : option N)
    (pool_array : thread_local_pool_array) (ptr : pool_id)
    : M (event_pool * thread_local_pool_array) :=
  let thrctx := (current local_thrctx).1 in
  match thrctx with
  | None =>
      let pool_array :=
        if size_ pool_array =? 0
        then {| size_ := size_ pool_array;
                arr_ := map (fun _ => None) (arr_ pool_array) |}
        else pool_array in
      s ← get_svc;
      expects (uid_ s <? max_ev_service);;
      curr_pool ← at_index (arr_ pool_array) (uid_ s);
      match curr_pool with
      | None =>
          put_svc (with_local_pool_queue (local_pool_queue_ s ++ [ptr]) s);;
          mret (local_pool ptr,
                {| size_ := size_wrap (size_ pool_array + 1);
                   arr_ := <[N.to_nat (uid_ s) := Some ptr]> (arr_ pool_array) |})
      | Some curr_pool => mret (local_pool curr_pool, pool_array)
      end
  | Some thrctx => mret (thrctx_pool thrctx, pool_array)
  end.

(** ** Registration of lifecycle handlers (lines 621-652) *)

(** The loop of [pri_tstart], [pri_texit] and [pri_tsegv]: for every
    thread an event is made with [make_event] and pushed on the queue
    of the thread.  [local_thrctx] and [pool_array] are the
    thread-locals of the calling thread, [pool_array] the one of the
    instantiation of [make_event] for this kind of event; it is handed
    back.  [news] gives for each call of [make_event], in turn, the
    address [new thread_local_pool] returns should the call allocate,
    and the event that [cque::get] hands out. *)
Fixpoint fan_out (mk : N -> que_ref) (local_thrctx : option N)
    (pool_array : thread_local_pool_array) (thrs : list N)
    (news : list (pool_id * event)) : M thread_local_pool_array :=
  match thrs, news with
  | thr :: thrs, (ptr, ev) :: news =>
      '(_, pool_array) ← make_event local_thrctx pool_array ptr;
      que_push (mk thr) ev;;
      fan_out mk local_thrctx pool_array thrs news
  | _, _ => mret pool_array
  end.

Definition pri_tstart (local_thrctx : option N)
    (pool_array : thread_local_pool_array) (news : list (pool_id * event))
    : M thread_local_pool_array :=
  s ← get_svc;
  fan_out tstart_que local_thrctx pool_array (indices (get_thread_num s)) news.
Definition pri_texit (local_thrctx : option N)
    (pool_array : thread_local_pool_array) (news : list (pool_id * event))
    : M thread_local_pool_array :=
  s ← get_svc;
  fan_out texit_que local_thrctx pool_array (indices (get_thread_num s)) news.
Definition pri_tsegv (local_thrctx : option N)
    (pool_array : thread_local_pool_array) (news : list (pool_id * event))
    : M thread_local_pool_array :=
  s ← get_svc;
  fan_out tsegv_que local_thrctx pool_array (indices (get_thread_num s)) news.

(** ** Dispatching one event *)

(** The call [ev->handle(thrctx)] with its effects. *)
Definition call_handle (ev : event) (thrctx : thrctx_t) : M handle_result :=
  fun w =>
  let '(u, subs, r) := handle ev thrctx (user w) in
  (emit (a_call ev thrctx);;
   submit_all subs;;
   emit (a_return ev r);;
   mret r) (set_user u w).

(** The block shared by every dispatch loop of the sources:
<<
      bool is_auto = true;
      try { is_auto = ev->handle(thrctx); }
      catch (...) { ENSURES(false); }
      if (is_auto) { ev->release(); }
>> *)
Definition dispatch_event (ev : event) (thrctx : thrctx_t) : M unit :=
  r ← call_handle ev thrctx;
  is_auto ← match r with
            | Returned b => mret b
            | Threw => ensures false;; mret true
            end;
  if is_auto : bool then release ev else mret tt.

(** The dispatch loop of the sources, over the queue [q]:
<<
      while (true)
      {
        auto ev = que.pop();
        if (ev == nullptr) break;
        ... the block above, with ++count ...
      }
>>
    [worker::work] counts in front of the call of [handle], the tsegv
    loop counts after the release, the tstart and texit loops do not
    count; a loop that ends fatally hands out no count.  [fuel] bounds
    the number of rounds: handlers may keep the queue filled. *)
Fixpoint drain (fuel : nat) (q : que_ref) (thrctx : thrctx_t) (count : N) : M N :=
  match fuel with
  | O => out_of_fuel
  | S fuel =>
      ev ← que_pop q;
      match ev with
      | None => mret count
      | Some ev =>
          let count := size_wrap (count + 1) in
          dispatch_event ev thrctx;;
          drain fuel q thrctx count
      end
  end.

(** [worker::work] (worker.hpp, lines 59-90); [this] is the worker and
    the count is [works]. *)
Definition work (fuel : nat) (this : N) (thrctx : thrctx_t) : M N :=
  drain fuel (worker_que this) thrctx 0.

(** ** [ev_service]: claiming a worker *)

(** [workshop_[slot].exchange(desired, mo)] *)
Definition workshop_exchange (slot : N) (desired : option N)
    (mo : memory_order) : M (option N) :=
  s ← get_svc;
  observed ← at_index (workshop_ s) slot;
  put_svc (with_workshop (<[N.to_nat slot := desired]> (workshop_ s)) s);;
  emit (a_exchange slot observed mo);;
  mret observed.

(** [workshop_[slot].store(wkr, mo)] *)
Definition workshop_store (slot : N) (wkr : N) (mo : memory_order) : M unit :=
  s ← get_svc;
  _ ← at_index (workshop_ s) slot;
  put_svc (with_workshop (<[N.to_nat slot := Some wkr]> (workshop_ s)) s);;
  emit (a_store_slot slot wkr mo).

(** [ev_service::do_work] (lines 562-586).  [thrctx] is passed by
    reference in the source: it comes back as the second component.
    The two-argument [work(thrctx, wlv)] called here is not in the
    sources at hand; the drain loop of [worker::work] stands for it.
    The [gsl::finally] block runs when the scope is left, that is after
    [work] returned; a fatal contract failure ends the process and
    leaves no scope. *)
Definition do_work (fuel : nat) (wkridx : N) (thrctx : thrctx_t)
    (wlv : work_level) : M (N * thrctx_t) :=
  let works := 0 in
  wkr ← workshop_exchange wkridx None mo_acq_rel;
  match wkr with
  | Some wkr =>
      (* Set current worker. *)
      let thrctx := set_worker (Some wkr) thrctx in
      emit (a_set_worker (thr_index thrctx) (Some wkr));;
      n ← work fuel wkr thrctx;
      let works := size_wrap (works + n) in
      (* gsl::finally *)
      let thrctx := set_worker None thrctx in
      emit (a_set_worker (thr_index thrctx) None);;
      workshop_store wkridx wkr mo_release;;
      mret (works, thrctx)
  | None => mret (works, thrctx)
  end.

(** ** [ev_service::trun]: the per-thread run loop (lines 411-560) *)

(** Prior and minor workers of thread [tidx] (lines 418-432). *)
Definition priors_of (thread_num worker_num tidx : N) : list N :=
  filter (fun n => n mod thread_num = tidx) (indices worker_num).

Definition minors_of (thread_num worker_num tidx : N) : list N :=
  filter (fun n => n mod thread_num <> tidx) (indices worker_num).

Definition call_fetch_sworks (n : N) : M Z := fun w =>
  let '(z, u) := fetch_sworks n (user w) in
  Done z (set_user u w).

(** The sweep over the prior workers (lines 538-546):
<<
      size_t pworks = 0;
      for (auto n : priors)
      {
        pworks += do_work(n, thrctx, work_level::prior);
        expected_pworks -= pworks;
        expected_pworks -= worker_list_[n].fetch_sworks();
      }
>> *)
Fixpoint prior_sweep (fuel : nat) (priors : list N) (thrctx : thrctx_t)
    (pworks : N) (expected_pworks : Z) : M (N * Z * thrctx_t) :=
  match priors with
  | [] => mret (pworks, expected_pworks, thrctx)
  | n :: priors =>
      '(works, thrctx) ← do_work fuel n thrctx prior;
      let pworks := size_wrap (pworks + works) in
      let expected_pworks := long_wrap (expected_pworks - Z.of_N pworks) in
      s ← get_svc;
      _ ← at_index (worker_list_ s) n;
      sworks ← call_fetch_sworks n;
      let expected_pworks := long_wrap (expected_pworks - sworks) in
      prior_sweep fuel priors thrctx pworks expected_pworks
  end.


(** [thread_data::is_stop] *)
Definition is_stop (tidx : N) : M bool :=
  s ← get_svc;
  td ← at_index (thread_data_list_ s) tidx;
  mret (stop_ td).

(** One polling tier (lines 504-511 and 514-522): [rounds] resets of
    the counter; the moderate tier also leaves when stop is seen.  The
    flag says whether the tier jumped to [do_job]. *)
Fixpoint poll (rounds : nat) (moderate : bool) (tidx : N)
    (expected_pworks : Z) : M (bool * Z) :=
  match rounds with
  | O => mret (false, expected_pworks)
  | S rounds =>
      d ← cnt_reset tidx;
      let expected_pworks := long_wrap (expected_pworks + Z.of_N d) in
      stop ← (if moderate then is_stop tidx else mret false);
      if (0 <? expected_pworks)%Z || stop then mret (true, expected_pworks)
      else poll rounds moderate tidx expected_pworks
  end.

(** Modelled from the spec: [synchronized_reset(mtx, cv)] performs reset
    and, if zero, waits on cv under mtx.  With no other thread in the
    model a wait does not return. *)
Definition synchronized_reset (tidx : N) : M N :=
  d ← cnt_reset tidx;
  if d =? 0 then out_of_fuel else mret d.

(** The three-tier wait in front of [do_job] (lines 498-525). *)
Definition wait_for_work (tidx : N) (expected_pworks : Z) : M Z :=
  if (0 <? expected_pworks)%Z then mret expected_pworks else
  '(go, expected_pworks) ← poll 100 false tidx expected_pworks;
  if go : bool then mret expected_pworks else
  '(go, expected_pworks) ← poll 500 true tidx expected_pworks;
  if go : bool then mret expected_pworks else
  d ← synchronized_reset tidx;
  mret (long_wrap (expected_pworks + Z.of_N d)).


(** Run all tstart events (lines 434-457). *)
Definition run_tstart (fuel : nat) (tidx : N) (thrctx : thrctx_t) : M N :=
  drain fuel (tstart_que tidx) thrctx 0.

(** Run all texit events (lines 459-486). *)
Definition run_texit (fuel : nat) (tidx : N) (thrctx : thrctx_t) : M N :=
  drain fuel (texit_que tidx) thrctx 0.


(** Run all tsegv events: the recovery callback of [run] (lines
    331-374).  [set_stack_info_list] stores the stack trace in the event
    before it is handled; the trace is logged when no handler ran.  The
    source counts in an [int], which only matters for [count == 0]. *)
Definition run_tsegv (fuel : nat) (tidx : N) (thrctx : thrctx_t) : M N :=
  count ← drain fuel (tsegv_que tidx) thrctx 0;
  (if count =? 0 then emit (a_log_error tidx) else mret tt);;
  mret count.

(** ** [ev_service::stop] (lines 389-402) *)

Fixpoint for_each (l : list N) (body : N -> M unit) : M unit :=
  match l with
  | [] => mret tt
  | i :: l => body i;; for_each l body
  end.

(** [thrdat.stop_ = true] *)
Definition store_stop (thridx : N) : M unit :=
  s ← get_svc;
  _ ← at_index (thread_data_list_ s) thridx;
  put_svc (with_thread_data_list
             (alter (with_stop true) (N.to_nat thridx) (thread_data_list_ s)) s);;
  emit (a_store_stop thridx mo_seq_cst).

Definition stop : M unit :=
  s ← get_svc;
  (* Stop all thread. *)
  for_each (indices (get_thread_num s)) store_stop;;
  for_each (indices (get_thread_num s)) synchronized_incr.

(** ** Destruction *)

(** The cleanup loop
<<
      while (true)
      {
        auto ev = que.pop_unique<cque::pool_delete<T>>();
        if (!ev) break;
      }
>>
    Each popped event is owned by a [unique_ptr] whose deleter gives it
    back to its pool when the iteration ends. *)
Fixpoint pop_unique_loop (fuel : nat) (q : que_ref) : M unit :=
  match fuel with
  | O => out_of_fuel
  | S fuel =>
      ev ← que_pop q;
      match ev with
      | None => mret tt
      | Some ev => release ev;; pop_unique_loop fuel q
      end
  end.

(** Nothing pushes while a destructor runs: one more round than there
    are queued events is all the loop can take. *)
Definition pop_unique_all (q : que_ref) : M unit :=
  s ← get_svc;
  match que_get q s with
  | None => undefined
  | Some l => pop_unique_loop (S (length l)) q
  end.

(** [worker::~worker] (worker.hpp, lines 36-46). *)
Definition worker_dtor (this : N) : M unit :=
  pop_unique_all (worker_que this).

(** The loop over [local_pool_queue_] (lines 179-186): every registered
    pool is popped and deleted. *)
Definition delete_local_pools : M unit :=
  s ← get_svc;
  put_svc (with_local_pool_queue [] s);;
  emit_all (map a_delete_pool (local_pool_queue_ s)).

(** [ev_service::~ev_service] (lines 140-191): the destructor body.
    [worker_list_.clear()] destroys every worker. *)
Definition ev_service_dtor : M unit :=
  s ← get_svc;
  (* Clean up all misc. *)
  _ ← for_each (indices (get_thread_num s))
        (fun thr => pop_unique_all (tstart_que thr);;
                    pop_unique_all (texit_que thr));
  s ← get_svc;
  _ ← put_svc (with_workshop [] s);
  _ ← for_each (indices (get_worker_num s)) worker_dtor;
  s ← get_svc;
  _ ← put_svc (with_worker_list [] s);
  delete_local_pools.

(** ** Strand selection under concurrent callers

    [select_strand_index] reads the counter with one atomic operation
    and writes it with another.  Between the two a caller holds the
    loaded value in a local variable, and any other caller may run.
    [sel_step] lets one caller take its next atomic step. *)

Record sel_state := mk_sel_state {
  sel_world : world;
  sel_local : list (option N);     (* per caller: [sndidx] once loaded *)
  sel_results : list (N * N)       (* (caller, returned index), oldest first *)
}.

Definition sel_init (w : world) (callers : nat) : sel_state :=
  {| sel_world := w; sel_local := replicate callers None; sel_results := [] |}.

Definition sel_step (caller : N) (c : sel_state) : option sel_state :=
  match sel_local c !! N.to_nat caller with
  | None => None
  | Some None =>
      match load_sndidx (sel_world c) with
      | Done sndidx w =>
          Some {| sel_world := w;
                  sel_local := <[N.to_nat caller := Some sndidx]> (sel_local c);
                  sel_results := sel_results c |}
      | _ => None
      end
  | Some (Some sndidx) =>
      match store_sndidx sndidx (sel_world c) with
      | Done result w =>
          Some {| sel_world := w;
                  sel_local := <[N.to_nat caller := None]> (sel_local c);
                  sel_results := sel_results c ++ [(caller, result)] |}
      | _ => None
      end
  end.

Fixpoint sel_run (schedule : list N) (c : sel_state) : option sel_state :=
  match schedule with
  | [] => Some c
  | caller :: schedule =>
      match sel_step caller c with
      | Some c => sel_run schedule c
      | None => None
      end
  end.

(** [n] calls of [select_strand_index], one after the other. *)
Fixpoint select_n (n : nat) : M (list N) :=
  match n with
  | O => mret []
  | S n =>
      idx ← select_strand_index;
      rest ← select_n n;
      mret (idx :: rest)
  end.

End Dispatch.

Arguments Done {U A} a w.
Arguments Fatal {U A} w.
Arguments Undefined {U A}.
Arguments OutOfFuel {U A}.
Arguments mk_world {U} svc pool user trace.
Arguments mk_sel_state {U} sel_world sel_local sel_results.

(** ** Reading traces *)

(** The actions a submission leaves in the trace. *)
Definition submit_action (a : action) : bool :=
  match a with
  | a_load_sndidx _ _ | a_store_sndidx _ _ | a_push (worker_que _) _
  | a_incr _ | a_signal _ => true
  | _ => false
  end.

(** A trace without the submissions made on the way: what the dispatch
    loop itself did. *)
Definition dispatch_view (tr : list action) : list action :=
  List.filter (fun a => negb (submit_action a)) tr.

(** What the loop over [q] does with a popped event whose handler
    returned [is_auto]: pop, call, return and, when [is_auto] holds,
    release. *)
Definition dispatched (q : que_ref) (thrctx : thrctx_t) (h : event * bool)
    : list action :=
  [a_pop q (Some h.1); a_call h.1 thrctx; a_return h.1 (Returned h.2)]
  ++ (if h.2 then [a_release h.1] else []).

(** A complete drain: the events [hs] one after the other, then the pop
    that finds the queue empty. *)
Definition drained (q : que_ref) (thrctx : thrctx_t) (hs : list (event * bool))
    : list action :=
  flat_map (dispatched q thrctx) hs ++ [a_pop q None].

(** The events of [hs] that were given back to their pools. *)
Definition released (hs : list (event * bool)) : list event :=
  map fst (List.filter snd hs).

(** What submissions may change between two worlds: they leave the
    pools, the user state and the workshop alone, only append to
    queues, and add nothing but submission actions to the trace. *)
Record submitted {U} (w w' : world (U:=U)) : Prop := mk_submitted {
  sub_pool : pool w' = pool w;
  sub_user : user w' = user w;
  sub_workshop : workshop_ (svc w') = workshop_ (svc w);
  sub_thread_num : get_thread_num (svc w') = get_thread_num (svc w);
  sub_worker_num : get_worker_num (svc w') = get_worker_num (svc w);
  sub_que : forall q l, que_get q (svc w) = Some l ->
            exists l', que_get q (svc w') = Some (l ++ l');
  sub_trace : exists tr, trace w' = trace w ++ tr /\ dispatch_view tr = []
}.

(** ** Round-robin strand selection, as stated for the counter *)

(** The indices handed out when the counter of [w] is post-incremented
    atomically modulo the worker count: the successive counter values. *)
Definition round_robin_from {U} (w : world (U:=U)) (n : nat) : list N :=
  map (fun k => (curr_sndidx_ (svc w) + N.of_nat k) mod get_worker_num (svc w))
    (seq 0 n).

(** What every interleaving of callers keeps true. *)
Definition sel_inv {U} (worker_num : N) (c : sel_state (U:=U)) : Prop :=
  get_worker_num (svc (sel_world c)) = worker_num
  /\ curr_sndidx_ (svc (sel_world c)) < worker_num
  /\ Forall (fun o => forall v, o = Some v -> v < worker_num) (sel_local c)
  /\ Forall (fun r => r.2 < worker_num) (sel_results c).

(** ** Loops over the thread data *)

(** The thread data after the entries at the positions [l] have been
    updated by [f], one after the other. *)
Definition alter_all {A} (f : A -> A) (l : list N) (tdl : list A) : list A :=
  foldl (fun acc i => alter f (N.to_nat i) acc) tdl l.

(** The world with its thread data replaced. *)
Definition map_thread_data {U} (g : list thread_data -> list thread_data)
    (w : world (U:=U)) : world :=
  set_svc (with_thread_data_list (g (thread_data_list_ (svc w))) (svc w)) w.

(** What dispatching may change between two worlds: the workshop and
    the sizes stay, queues only grow at their tail, the events [rel]
    went back to their pools, and the dispatch loop's own part of the
    added trace is [view]. *)
Record evolves {U} (w w' : world (U:=U)) (view : list action)
    (rel : list event) : Prop := mk_evolves {
  ev_workshop : workshop_ (svc w') = workshop_ (svc w);
  ev_thread_num : get_thread_num (svc w') = get_thread_num (svc w);
  ev_worker_num : get_worker_num (svc w') = get_worker_num (svc w);
  ev_que : forall q l, que_get q (svc w) = Some l ->
           exists l', que_get q (svc w') = Some (l ++ l');
  ev_pool : pool w' = pool w ++ rel;
  ev_trace : exists tr, trace w' = trace w ++ tr /\ dispatch_view tr = view
}.

(** ** The dispatch loops of the sources *)

Inductive dispatch_loop :=
| loop_work (this : N)      (* [worker::work] *)
| loop_tstart (tidx : N)    (* the tstart loop of [trun] *)
| loop_texit (tidx : N)     (* the texit loop of [trun] *)
| loop_tsegv (tidx : N).    (* the recovery callback of [run] *)

Definition loop_que (lp : dispatch_loop) : que_ref :=
  match lp with
  | loop_work this => worker_que this
  | loop_tstart tidx => tstart_que tidx
  | loop_texit tidx => texit_que tidx
  | loop_tsegv tidx => tsegv_que tidx
  end.

Definition run_loop {U}
    (handle : event -> thrctx_t -> U -> U * list submission * handle_result)
    (fuel : nat) (lp : dispatch_loop) (thrctx : thrctx_t) : M (U:=U) N :=
  match lp with
  | loop_work this => work handle fuel this thrctx
  | loop_tstart tidx => run_tstart handle fuel tidx thrctx
  | loop_texit tidx => run_texit handle fuel tidx thrctx
  | loop_tsegv tidx => run_tsegv handle fuel tidx thrctx
  end.

(** Handlers that submit nothing and do not throw. *)
Definition quiet {U}
    (handle : event -> thrctx_t -> U -> U * list submission * handle_result)
    : Prop :=
  forall ev thrctx u, exists u' is_auto,
    handle ev thrctx u = (u', [], Returned is_auto).

(** The counter of a dispatch loop after [k] more increments. *)
Definition count_after (n : N) (k : nat) : N :=
  Nat.iter k (fun c => size_wrap (c + 1)) n.

(** ** Worlds before and after a worker is held *)

(** The world in which [work] starts once the slot has been claimed. *)
Definition claimed {U} (wkridx wkr : N) (thrctx : thrctx_t)
    (w : world (U:=U)) : world :=
  add_trace [a_exchange wkridx (Some wkr) mo_acq_rel;
             a_set_worker (thr_index thrctx) (Some wkr)]
    (set_svc (with_workshop (<[N.to_nat wkridx := None]> (workshop_ (svc w)))
                (svc w)) w).

(** The world [do_work] leaves when [work] returned in [w2]. *)
Definition restored {U} (wkridx wkr : N) (thrctx : thrctx_t)
    (w2 : world (U:=U)) : world :=
  add_trace [a_set_worker (thr_index thrctx) None;
             a_store_slot wkridx wkr mo_release]
    (set_svc (with_workshop (<[N.to_nat wkridx := Some wkr]> (workshop_ (svc w2)))
                (svc w2)) w2).

(** ** Example inputs *)

(** A freshly built dispatcher with no user state. *)
Definition fresh_world (thread_num worker_num : N) : world (U:=unit) :=
  mk_world (ev_service_ctor 0 thread_num None worker_num) [] tt [].

(** A handler that submits nothing and keeps the odd events for itself
    (only even events are released by the dispatcher). *)
Definition even_auto (ev : event) (thrctx : thrctx_t) (u : unit)
    : unit * list submission * handle_result :=
  (u, [], Returned (N.even ev)).

(** A handler that throws on event 7 and is [even_auto] otherwise. *)
Definition throw_on_7 (ev : event) (thrctx : thrctx_t) (u : unit)
    : unit * list submission * handle_result :=
  (u, [], if ev =? 7 then Threw else Returned (N.even ev)).

(** The dispatcher [s] with the events [l] waiting in the queue [q]. *)
Definition world_with_que (s : ev_service) (q : que_ref) (l : list event)
    : world (U:=unit) :=
  mk_world (que_set q l s) [] tt [].

(** Workers whose "sworks" counter reads 0. *)
Definition no_sworks (n : N) (u : unit) : Z * unit := (0%Z, u).

(** What a call returned, if it did. *)
Definition returned {U A} (o : outcome (U:=U) A) : option A :=
  match o with
  | Done a _ => Some a
  | _ => None
  end.

(** The world a call ended in, if it ended. *)
Definition final_world {U A} (o : outcome (U:=U) A) : option (world (U:=U)) :=
  match o with
  | Done _ w | Fatal w => Some w
  | _ => None
  end.

(** ** The delegating constructors (lines 67-80) *)

(** [ev_service(size_t thread_num)]: no logger, and 0 for [worker_num]. *)
Definition ev_service_ctor_threads (uid thread_num : N) : ev_service :=
  ev_service_ctor uid thread_num None 0.

(** [ev_service()] and [ev_service(logger_ptr)]: as many threads as
    [std::thread::hardware_concurrency()] reports, 0 for [worker_num]. *)
Definition ev_service_ctor_default (uid hardware_concurrency : N)
    (lg : option logger) : ev_service :=
  ev_service_ctor uid hardware_concurrency lg 0.

(** What the constructor establishes and every operation short of the
    destructor keeps: at least one thread, at least as many workers as
    threads (and no more than a [size_t] can count), a workshop slot per
    worker, and the round-robin counter below the worker count. *)
Record wf_svc (s : ev_service) : Prop := mk_wf_svc {
  wf_threads : get_thread_num s <> 0;
  wf_workers : get_thread_num s <= get_worker_num s;
  wf_size : get_worker_num s <= 2 ^ size_bits;
  wf_workshop : length (workshop_ s) = length (worker_list_ s);
  wf_sndidx : curr_sndidx_ s < get_worker_num s
}.

(** ** Sequences of submissions *)

(** [async(ev)] for each event of [evs], one call after the other. *)
Fixpoint async_all {U} (evs : list event) : M (U:=U) unit :=
  match evs with
  | [] => mret tt
  | ev :: evs => async ev;; async_all evs
  end.

(** The events of [evs] that go to strand [i] when the [k]-th event
    goes to strand [(sndidx + k) mod worker_num]. *)
Definition strand_share (worker_num sndidx i : N) (evs : list event) : list event :=
  omap id (imap (fun k ev =>
                   if decide ((sndidx + N.of_nat k) mod worker_num = i)
                   then Some ev else None) evs).

(** The sum of the pending-work counters of all threads. *)
Definition total_count (s : ev_service) : N :=
  foldr N.add 0 (map cnt_ (thread_data_list_ s)).

(** ** Registration of lifecycle handlers (lines 238-266 and 621-652) *)

Inductive lifecycle := on_tstart | on_texit | on_tsegv.

Definition lifecycle_que (k : lifecycle) : N -> que_ref :=
  match k with
  | on_tstart => tstart_que
  | on_texit => texit_que
  | on_tsegv => tsegv_que
  end.

(** [tstart(f)], [texit(f)] and [tsegv(f)] (lines 242-266), which pass
    the handler on to [pri_tstart], [pri_texit] and [pri_tsegv]. *)
Definition pri_lifecycle {U} (max_ev_service : N) (k : lifecycle)
    (local_thrctx : option N) (pool_array : thread_local_pool_array)
    (news : list (pool_id * event)) : M (U:=U) thread_local_pool_array :=
  match k with
  | on_tstart => pri_tstart max_ev_service local_thrctx pool_array news
  | on_texit => pri_texit max_ev_service local_thrctx pool_array news
  | on_tsegv => pri_tsegv max_ev_service local_thrctx pool_array news
  end.

(** The pushes of a fan-out alone. *)
Fixpoint push_all {U} (mk : N -> que_ref) (thrs : list N) (evs : list event)
    : M (U:=U) unit :=
  match thrs, evs with
  | thr :: thrs, ev :: evs => que_push (mk thr) ev;; push_all mk thrs evs
  | _, _ => mret tt
  end.

(** The pool a thread has registered with the dispatcher [uid], as its
    pool array [pool_array] tells. *)
Definition pool_slot (uid : N) (pool_array : thread_local_pool_array)
    : option pool_id :=
  if size_ pool_array =? 0 then None
  else match arr_ pool_array !! N.to_nat uid with
       | Some (Some ptr) => Some ptr
       | _ => None
       end.

(** A pool array that has not been used. *)
Definition unused_pool_array (max_ev_service : N) : thread_local_pool_array :=
  {| size_ := 0; arr_ := replicate (N.to_nat max_ev_service) None |}.

(** ** Events of several types made by one thread *)

(** The instantiations of [make_event]: the event types of the
    dispatcher itself, and those of its users. *)
Inductive event_type :=
| post_event | spawn_event | tstart_event | texit_event | tsegv_event
| user_event (id : N).

#[global] Instance event_type_eq_dec : EqDecision event_type.
Proof. solve_decision. Defined.

(** The pool arrays of a thread with the one of [ety] replaced. *)
Definition with_pool_array {A} (ety : event_type) (a : A)
    (f : event_type -> A) : event_type -> A :=
  fun e => if decide (e = ety) then a else f e.

(** Calls of [make_event] made one after the other by one thread that
    is not a thread of the dispatcher, each for the event type noted;
    [pool_arrays] are the pool arrays of the thread, one for each
    instantiation, and the addresses are those at hand for the
    allocations. *)
Fixpoint make_events {U} (max_ev_service : N)
    (pool_arrays : event_type -> thread_local_pool_array)
    (calls : list (event_type * pool_id))
    : M (U:=U) (list event_pool * (event_type -> thread_local_pool_array)) :=
  match calls with
  | [] => mret ([], pool_arrays)
  | (ety, ptr) :: calls =>
      '(p, pool_array) ← make_event max_ev_service None (pool_arrays ety) ptr;
      '(ps, pool_arrays) ←
        make_events max_ev_service (with_pool_array ety pool_array pool_arrays)
          calls;
      mret (p :: ps, pool_arrays)
  end.

(** What such calls come to when [reg] tells the pool the thread has
    for each event type: the pool each call takes its event from, and
    the pools registered on the way. *)
Fixpoint pools_used (reg : event_type -> option pool_id)
    (calls : list (event_type * pool_id)) : list pool_id :=
  match calls with
  | [] => []
  | (ety, ptr) :: calls =>
      match reg ety with
      | Some p => p :: pools_used reg calls
      | None => ptr :: pools_used (with_pool_array ety (Some ptr) reg) calls
      end
  end.

Fixpoint pools_registered (reg : event_type -> option pool_id)
    (calls : list (event_type * pool_id)) : list pool_id :=
  match calls with
  | [] => []
  | (ety, ptr) :: calls =>
      match reg ety with
      | Some p => pools_registered reg calls
      | None => ptr :: pools_registered (with_pool_array ety (Some ptr) reg) calls
      end
  end.

(** The thread data with [ev] appended to its queue of kind [k]. *)
Definition register (k : lifecycle) (td : thread_data) (ev : event) : thread_data :=
  match k with
  | on_tstart => with_tstart_que (tstart_que_ td ++ [ev]) td
  | on_texit => with_texit_que (texit_que_ td ++ [ev]) td
  | on_tsegv => with_tsegv_que (tsegv_que_ td ++ [ev]) td
  end.

(** ** Reading the trace of a cleanup *)

(** What a cleanup loop over the queue [q] holding [l] leaves in the
    trace: every event popped and released, then the pop that finds the
    queue empty. *)
Definition cleanup (q : que_ref) (l : list event) : list action :=
  flat_map (fun ev => [a_pop q (Some ev); a_release ev]) l ++ [a_pop q None].

(** The thread data with its tstart and texit queues emptied. *)
Definition clear_lifecycle (td : thread_data) : thread_data :=
  with_texit_que [] (with_tstart_que [] td).

(** The actions of the destructor's loop over the threads, for thread
    [t] with data [td]. *)
Definition cleanup_thread (t : nat) (td : thread_data) : list action :=
  cleanup (tstart_que (N.of_nat t)) (tstart_que_ td)
  ++ cleanup (texit_que (N.of_nat t)) (texit_que_ td).

(** The actions of [~worker] for the worker at position [i]. *)
Definition cleanup_worker (i : nat) (wkr : worker) : list action :=
  cleanup (worker_que (N.of_nat i)) (que_ wkr).

(** The world after the cleanup loop over [q], which held [l]. *)
Definition cleaned {U} (q : que_ref) (l : list event) (w : world (U:=U)) : world :=
  {| svc := que_set q [] (svc w); pool := pool w ++ l; user := user w;
     trace := trace w ++ cleanup q l |}.

(** What the loop over the threads keeps. *)
Definition same_but_threads {U} (w w' : world (U:=U)) : Prop :=
  worker_list_ (svc w') = worker_list_ (svc w)
  /\ workshop_ (svc w') = workshop_ (svc w)
  /\ local_pool_queue_ (svc w') = local_pool_queue_ (svc w)
  /\ user w' = user w.

(** What the loop over the workers keeps. *)
Definition same_but_workers {U} (w w' : world (U:=U)) : Prop :=
  thread_data_list_ (svc w') = thread_data_list_ (svc w)
  /\ workshop_ (svc w') = workshop_ (svc w)
  /\ local_pool_queue_ (svc w') = local_pool_queue_ (svc w)
  /\ user w' = user w.

(** ** Worlds around the wait *)

(** The world after thread [tidx] has reset its counter. *)
Definition reset_world {U} (tidx : N) (w : world (U:=U)) : world :=
  map_thread_data (alter (with_cnt (fun _ => 0)) (N.to_nat tidx)) w.

(** The values a [long] holds. *)
Definition in_long (z : Z) : Prop := (- 2 ^ 63 <= z < 2 ^ 63)%Z.

(** ** Threads seen without their counters *)

(** A thread's data apart from its counter. *)
Definition no_cnt (td : thread_data) : thread_data := with_cnt (fun _ => 0) td.

(** [kept s s']: the threads of [s'] are those of [s] up to their
    counters: same queues of lifecycle events, same stop flags. *)
Definition kept (s s' : ev_service) : Prop :=
  map no_cnt (thread_data_list_ s') = map no_cnt (thread_data_list_ s).



(** ** Sweeps over idle workers *)

(** What [do_work] adds to the trace when it claims worker [n] and the
    handlers of the events [hs] neither submit nor throw. *)
Definition worked (thrctx : thrctx_t) (n : N) (hs : list (event * bool))
    : list action :=
  [a_exchange n (Some n) mo_acq_rel; a_set_worker (thr_index thrctx) (Some n)]
  ++ drained (worker_que n) (set_worker (Some n) thrctx) hs
  ++ [a_set_worker (thr_index thrctx) None; a_store_slot n n mo_release].

(** The dispatcher with the queues of the workers [ns] emptied. *)
Definition emptied (ns : list N) (s : ev_service) : ev_service :=
  foldl (fun s n => que_set (worker_que n) [] s) s ns.


(** ** What a dispatch loop is to do with its events

    The words of the specification for the loops: every popped event is
    passed to its handler under [thrctx]; what the handler submits is
    submitted; the event goes back to its pool exactly when the handler
    returned true. *)

(** The world in which the handler of [ev] runs: [ev] has been popped
    from [q], which is left with [l], and the handler has put the user
    state [u] in place of the one it found. *)
Definition called {U} (q : que_ref) (thrctx : thrctx_t) (ev : event)
    (l : list event) (u : U) (w : world (U:=U)) : world :=
  {| svc := que_set q l (svc w); pool := pool w; user := u;
     trace := trace w ++ [a_pop q (Some ev); a_call ev thrctx] |}.

(** The world after the handler of [ev] returned [is_auto] in [w]. *)
Definition finished {U} (ev : event) (is_auto : bool) (w : world (U:=U)) : world :=
  {| svc := svc w; pool := pool w ++ (if is_auto then [ev] else []);
     user := user w;
     trace := trace w ++ a_return ev (Returned is_auto)
                         :: (if is_auto then [a_release ev] else []) |}.

(** The world after the handler of [ev] threw in [w]: the assertion has
    failed, and nothing else has happened. *)
Definition thrown {U} (ev : event) (w : world (U:=U)) : world :=
  add_trace [a_return ev Threw; a_ensures_fail] w.

(** [handled handle q thrctx w hs w']: from [w] the events [hs] were
    popped from [q] one after the other, each handler was called on the
    user state its predecessor left and returned the flag noted in
    [hs], its submissions were carried out, and [w'] is the world after
    the last of them. *)
Inductive handled {U}
    (handle : event -> thrctx_t -> U -> U * list submission * handle_result)
    (q : que_ref) (thrctx : thrctx_t)
    : world (U:=U) -> list (event * bool) -> world (U:=U) -> Prop :=
| handled_nil w : handled handle q thrctx w [] w
| handled_cons w ev l u subs is_auto w1 hs w' :
    que_get q (svc w) = Some (ev :: l) ->
    handle ev thrctx (user w) = (u, subs, Returned is_auto) ->
    submit_all subs (called q thrctx ev l u w) = Done tt w1 ->
    handled handle q thrctx (finished ev is_auto w1) hs w' ->
    handled handle q thrctx w ((ev, is_auto) :: hs) w'.

(** [throws handle q thrctx w ev w']: in [w] the event [ev] is the next
    of [q], its handler throws, and [w'] is the world in which it does,
    what it had submitted before being carried out. *)
Definition throws {U}
    (handle : event -> thrctx_t -> U -> U * list submission * handle_result)
    (q : que_ref) (thrctx : thrctx_t) (w : world (U:=U)) (ev : event)
    (w' : world (U:=U)) : Prop :=
  exists l u subs,
    que_get q (svc w) = Some (ev :: l)
    /\ handle ev thrctx (user w) = (u, subs, Threw)
    /\ submit_all subs (called q thrctx ev l u w) = Done tt w'.

(** A handler that counts its calls in the user state, passes event 9
    to strand 1 when it handles event 5, and is [even_auto] otherwise. *)
Definition post_on_5 (ev : event) (thrctx : thrctx_t) (u : N)
    : N * list submission * handle_result :=
  (u + 1, if ev =? 5 then [sub_pri_async 1 9] else [], Returned (N.even ev)).

(** The dispatcher [s] with the events [l] waiting in the queue [q], and
    a user state that counts from 0. *)
Definition counting_world (s : ev_service) (q : que_ref) (l : list event)
    : world (U:=N) :=
  mk_world (que_set q l s) [] 0 [].

(** ** Worlds after a registration *)

(** The world in which the pools [ptrs] have been registered with the
    dispatcher. *)
Definition with_pools {U} (ptrs : list pool_id) (w : world (U:=U)) : world :=
  set_svc (with_local_pool_queue (local_pool_queue_ (svc w) ++ ptrs) (svc w)) w.

(** The world in which the events [evs] have been pushed on the queues
    of kind [k], the [t]-th of them on the queue of thread [t]. *)
Definition fanned {U} (k : lifecycle) (evs : list event) (w : world (U:=U))
    : world :=
  add_trace (imap (fun t ev => a_push (lifecycle_que k (N.of_nat t)) ev) evs)
    (set_svc (with_thread_data_list
                (zip_with (register k) (thread_data_list_ (svc w)) evs)
                (svc w)) w).

(** * Properties *)

(** ** Construction *)

Lemma length_indices (n : N) : length (indices n) = N.to_nat n.
Proof. unfold indices. by rewrite length_map, length_seq. Qed.

Lemma lookup_indices (n : N) (i : nat) :
  (i < N.to_nat n)%nat -> indices n !! i = Some (N.of_nat i).
Proof.
  intros Hi. unfold indices.
  rewrite list_lookup_fmap, lookup_seq_lt by done. done.
Qed.

Lemma lookup_indices_ge (n : N) (i : nat) :
  (N.to_nat n <= i)%nat -> indices n !! i = None.
Proof. intros Hi. apply lookup_ge_None. by rewrite length_indices. Qed.

Lemma elem_of_indices (n i : N) : i ∈ indices n <-> i < n.
Proof.
  unfold indices. rewrite list_elem_of_fmap. split.
  - intros (k & -> & Hk). apply elem_of_seq in Hk. lia.
  - intros Hi. exists (N.to_nat i). split; [by rewrite N2Nat.id|].
    apply elem_of_seq. lia.
Qed.

Lemma NoDup_indices (n : N) : NoDup (indices n).
Proof.
  unfold indices. apply NoDup_fmap_2; [|apply NoDup_seq].
  intros a b Hab. by apply Nat2N.inj.
Qed.

Lemma ctor_thread_data_list uid thread_num lg worker_num :
  thread_data_list_ (ev_service_ctor uid thread_num lg worker_num)
  = map new_thread_data (indices (effective_thread_num thread_num)).
Proof. reflexivity. Qed.

Lemma ctor_worker_list uid thread_num lg worker_num :
  worker_list_ (ev_service_ctor uid thread_num lg worker_num)
  = map (fun i => {| index_ := i; que_ := [] |})
      (indices (N.max worker_num (effective_thread_num thread_num))).
Proof.
  unfold ev_service_ctor, effective_thread_num; simpl.
  destruct (N.ltb_spec worker_num (if thread_num =? 0 then 1 else thread_num)).
  - by rewrite N.max_r by lia.
  - by rewrite N.max_l by lia.
Qed.

Lemma imap_const_indices {A} (l : list A) :
  imap (fun i (_ : A) => Some (N.of_nat i)) l
  = map Some (indices (N.of_nat (length l))).
Proof.
  apply list_eq. intros i. rewrite list_lookup_imap, list_lookup_fmap.
  destruct (l !! i) as [x|] eqn:Hl; simpl.
  - apply lookup_lt_Some in Hl. rewrite lookup_indices by lia. done.
  - apply lookup_ge_None in Hl. rewrite lookup_indices_ge by lia. done.
Qed.

Lemma ctor_workshop uid thread_num lg worker_num :
  workshop_ (ev_service_ctor uid thread_num lg worker_num)
  = map Some (indices (N.max worker_num (effective_thread_num thread_num))).
Proof.
  pose proof (ctor_worker_list uid thread_num lg worker_num) as Hwl.
  unfold ev_service_ctor in *; simpl in *.
  rewrite imap_const_indices, Hwl, length_map, length_indices, N2Nat.id. done.
Qed.

Lemma ctor_get_thread_num uid thread_num lg worker_num :
  get_thread_num (ev_service_ctor uid thread_num lg worker_num)
  = effective_thread_num thread_num.
Proof.
  unfold get_thread_num.
  rewrite ctor_thread_data_list, length_map, length_indices. apply N2Nat.id.
Qed.

Lemma ctor_get_worker_num uid thread_num lg worker_num :
  get_worker_num (ev_service_ctor uid thread_num lg worker_num)
  = N.max worker_num (effective_thread_num thread_num).
Proof.
  unfold get_worker_num.
  rewrite ctor_worker_list, length_map, length_indices. apply N2Nat.id.
Qed.

(** A new dispatcher starts its round-robin counter below the worker
    count. *)
Lemma ctor_sndidx_in_range uid thread_num lg worker_num :
  curr_sndidx_ (ev_service_ctor uid thread_num lg worker_num)
  < get_worker_num (ev_service_ctor uid thread_num lg worker_num).
Proof.
  rewrite ctor_get_worker_num. simpl. unfold effective_thread_num.
  destruct (N.eqb_spec thread_num 0); lia.
Qed.

(** C8.  The dispatcher built from (thread_num, logger, worker_num) has
    [max worker_num thread_num'] workers, where [thread_num'] is the
    effective thread count: [get_worker_num] is the requested number
    when that is at least [thread_num'] and [thread_num'] otherwise.
    The workers carry the indices 0 .. worker_num-1 in order, and slot
    [i] of the workshop holds the address of worker [i]. *)
Theorem ctor_worker_num (uid thread_num : N) (lg : option logger) (worker_num : N) :
  let s := ev_service_ctor uid thread_num lg worker_num in
  let threads := effective_thread_num thread_num in
  get_worker_num s = N.max worker_num threads
  /\ get_worker_num s = (if threads <=? worker_num then worker_num else threads)
  /\ get_thread_num s = threads
  /\ map index_ (worker_list_ s) = indices (get_worker_num s)
  /\ map que_ (worker_list_ s) = map (fun _ => []) (indices (get_worker_num s))
  /\ workshop_ s = map Some (indices (get_worker_num s))
  /\ length (workshop_ s) = length (worker_list_ s).
Proof.
  intros s threads.
  assert (Hn : get_worker_num s = N.max worker_num threads)
    by apply ctor_get_worker_num.
  split; [done|]. split.
  { rewrite Hn. destruct (N.leb_spec threads worker_num); lia. }
  split; [apply ctor_get_thread_num|].
  rewrite Hn. unfold s. rewrite ctor_worker_list, ctor_workshop.
  rewrite <- !list_fmap_compose.
  repeat split; try (apply list_fmap_ext; intros; done).
  - by rewrite list_fmap_id.
  - by rewrite !length_map.
Qed.

(** C10.  A requested thread count of 0 is turned into one thread:
    [get_thread_num] is then 1, it is at least 1 for every
    construction, and the worker count is [max worker_num 1]. *)
Theorem ctor_zero_threads (uid : N) (lg : option logger) (worker_num : N) :
  get_thread_num (ev_service_ctor uid 0 lg worker_num) = 1
  /\ (forall thread_num,
        1 <= get_thread_num (ev_service_ctor uid thread_num lg worker_num))
  /\ get_worker_num (ev_service_ctor uid 0 lg worker_num) = N.max worker_num 1.
Proof.
  split; [|split].
  - apply ctor_get_thread_num.
  - intros thread_num. rewrite ctor_get_thread_num.
    unfold effective_thread_num. destruct (N.eqb_spec thread_num 0); lia.
  - apply ctor_get_worker_num.
Qed.

(** ** Reasoning about [M] *)

Section Monad.
Context {U : Type}.
Implicit Types w : world (U:=U).

Lemma bind_Done {A B} (m : M A) (f : A -> M B) w b w' :
  (m ≫= f) w = Done b w' <-> exists a w1, m w = Done a w1 /\ f a w1 = Done b w'.
Proof.
  unfold mbind, M_bind. split.
  - destruct (m w) as [a w1| | |]; try discriminate. eauto.
  - intros (a & w1 & -> & H). done.
Qed.

Lemma bind_Fatal {A B} (m : M A) (f : A -> M B) w w' :
  (m ≫= f) w = Fatal w'
  <-> m w = Fatal w' \/ exists a w1, m w = Done a w1 /\ f a w1 = Fatal w'.
Proof.
  unfold mbind, M_bind. split.
  - destruct (m w) as [a w1|w1| |]; try discriminate.
    + intros H. right. by exists a, w1.
    + intros [= ->]. by left.
  - intros [-> | (a & w1 & -> & H)]; done.
Qed.

Lemma bind_eq {A B} (m : M A) (f : A -> M B) w a w1 :
  m w = Done a w1 -> (m ≫= f) w = f a w1.
Proof. unfold mbind, M_bind. by intros ->. Qed.

Lemma ret_Done {A} (a b : A) w w' :
  (mret a : M A) w = Done b w' <-> a = b /\ w = w'.
Proof. unfold mret, M_ret. split; [by intros [= -> ->]|by intros [-> ->]]. Qed.

End Monad.

(** Split a hypothesis [H : (m ≫= f) w = Done _ _] along its binds. *)
Ltac bind_inv H :=
  repeat
    (let a := fresh "a" in
     let w1 := fresh "w" in
     let H1 := fresh "H" in
     apply bind_Done in H as (a & w1 & H1 & H)).


(** ** Queues *)

Lemma que_get_set_eq (q : que_ref) (l : list event) (s : ev_service) :
  is_Some (que_get q s) -> que_get q (que_set q l s) = Some l.
Proof.
  intros [l0 Hq]. destruct q; simpl in *;
    rewrite list_lookup_alter_eq;
    match goal with |- context [?x !! ?i] => destruct (x !! i) end;
    simplify_eq/=; done.
Qed.

Lemma que_get_set_ne (q q' : que_ref) (l : list event) (s : ev_service) :
  q <> q' -> que_get q' (que_set q l s) = que_get q' s.
Proof.
  intros Hne. destruct q as [i|i|i|i], q' as [j|j|j|j]; simpl; try done;
    (destruct (decide (N.to_nat i = N.to_nat j)) as [Hij|Hij];
     [ try (apply N2Nat.inj in Hij; congruence);
       rewrite Hij, list_lookup_alter_eq;
       match goal with |- context [?x !! ?k] => destruct (x !! k) end; done
     | by rewrite list_lookup_alter_ne ]).
Qed.

Lemma que_set_workshop q l s : workshop_ (que_set q l s) = workshop_ s.
Proof. by destruct q. Qed.

Lemma que_set_curr_sndidx q l s : curr_sndidx_ (que_set q l s) = curr_sndidx_ s.
Proof. by destruct q. Qed.

Lemma que_set_thread_num q l s : get_thread_num (que_set q l s) = get_thread_num s.
Proof. unfold get_thread_num. destruct q; simpl; by rewrite ?length_alter. Qed.

Lemma que_set_worker_num q l s : get_worker_num (que_set q l s) = get_worker_num s.
Proof. unfold get_worker_num. destruct q; simpl; by rewrite ?length_alter. Qed.

(** ** Primitive operations *)

(** Unfold the state plumbing of a primitive operation. *)
Ltac unfold_prims :=
  unfold at_index, get_svc, put_svc, emit, emit_all, undefined, out_of_fuel,
    fatal, mbind, M_bind, mret, M_ret, add_trace, set_svc, set_user in *;
  simpl in *.

Section Primitives.
Context {U : Type}.
Implicit Types w : world (U:=U).

Lemma add_trace_add_trace tr1 tr2 w :
  add_trace tr2 (add_trace tr1 w) = add_trace (tr1 ++ tr2) w.
Proof. unfold add_trace; simpl. by rewrite app_assoc. Qed.

Lemma add_trace_nil w : add_trace [] w = w.
Proof. destruct w. unfold add_trace; simpl. by rewrite app_nil_r. Qed.

Lemma dispatch_view_app tr1 tr2 :
  dispatch_view (tr1 ++ tr2) = dispatch_view tr1 ++ dispatch_view tr2.
Proof. apply List.filter_app. Qed.

Lemma submitted_refl w : submitted w w.
Proof.
  split; try done.
  - intros q l Hq. exists []. by rewrite app_nil_r.
  - exists []. by rewrite app_nil_r.
Qed.

Lemma submitted_trans w1 w2 w3 :
  submitted w1 w2 -> submitted w2 w3 -> submitted w1 w3.
Proof.
  intros [Hp1 Hu1 Hw1 Ht1 Hn1 Hq1 (tr1 & Htr1 & Hv1)]
         [Hp2 Hu2 Hw2 Ht2 Hn2 Hq2 (tr2 & Htr2 & Hv2)].
  split; try congruence.
  - intros q l Hq. destruct (Hq1 q l Hq) as [l1 Hl1].
    destruct (Hq2 q _ Hl1) as [l2 Hl2]. exists (l1 ++ l2).
    by rewrite app_assoc.
  - exists (tr1 ++ tr2). split.
    + by rewrite Htr2, Htr1, app_assoc.
    + by rewrite dispatch_view_app, Hv1, Hv2.
Qed.

Lemma que_push_Done q ev w w' :
  que_push q ev w = Done tt w'
  <-> exists l, que_get q (svc w) = Some l
      /\ w' = add_trace [a_push q ev] (set_svc (que_set q (l ++ [ev]) (svc w)) w).
Proof.
  unfold que_push; unfold_prims.
  destruct (que_get q (svc w)) as [l|]; simpl.
  - split; [intros [= <-]; eauto | intros (l' & [= <-] & ->); done].
  - split; [done | intros (l' & [=] & _)].
Qed.

Lemma que_pop_Done q r w w' :
  que_pop q w = Done r w'
  <-> exists l, que_get q (svc w) = Some l
      /\ match l with
         | [] => r = None /\ w' = add_trace [a_pop q None] w
         | ev :: l =>
             r = Some ev
             /\ w' = add_trace [a_pop q (Some ev)] (set_svc (que_set q l (svc w)) w)
         end.
Proof.
  unfold que_pop; unfold_prims.
  destruct (que_get q (svc w)) as [[|ev l]|]; simpl.
  - split; [intros [= <- <-]; by exists [] | intros (l' & [= <-] & -> & ->); done].
  - split; [intros [= <- <-]; by exists (ev :: l)
           | intros (l' & [= <-] & -> & ->); done].
  - split; [done | intros (l' & [=] & _)].
Qed.

Lemma que_pop_not_Fatal q w w' : que_pop q w <> Fatal w'.
Proof.
  unfold que_pop; unfold_prims.
  by destruct (que_get q (svc w)) as [[|ev l]|].
Qed.

Lemma synchronized_incr_Done thridx w w' :
  synchronized_incr thridx w = Done tt w'
  <-> is_Some (thread_data_list_ (svc w) !! N.to_nat thridx)
      /\ w' = add_trace [a_incr thridx; a_signal thridx]
                (set_svc (with_thread_data_list
                            (alter (with_cnt N.succ) (N.to_nat thridx)
                               (thread_data_list_ (svc w))) (svc w)) w).
Proof.
  unfold synchronized_incr; unfold_prims.
  destruct (thread_data_list_ (svc w) !! N.to_nat thridx) as [td|]; simpl.
  - rewrite <- app_assoc; simpl.
    split; [intros [= <-]; eauto | intros (_ & ->); done].
  - split; [done | intros ([? [=]] & _)].
Qed.

Lemma select_strand_index_eq w :
  select_strand_index w
  = Done (curr_sndidx_ (svc w))
      (add_trace [a_load_sndidx (curr_sndidx_ (svc w)) mo_relaxed;
                  a_store_sndidx
                    (next_sndidx (get_worker_num (svc w)) (curr_sndidx_ (svc w)))
                    mo_relaxed]
         (set_svc (with_curr_sndidx
                     (next_sndidx (get_worker_num (svc w)) (curr_sndidx_ (svc w)))
                     (svc w)) w)).
Proof.
  unfold select_strand_index, load_sndidx, store_sndidx; unfold_prims.
  by rewrite <- app_assoc.
Qed.

Lemma notify_thread_Done wkridx w w' :
  notify_thread wkridx w = Done tt w'
  <-> get_thread_num (svc w) <> 0
      /\ synchronized_incr (wkridx mod get_thread_num (svc w)) w = Done tt w'.
Proof.
  unfold notify_thread, get_svc, mbind at 1, M_bind at 1; simpl.
  destruct (N.eqb_spec (get_thread_num (svc w)) 0) as [->|Hne]; simpl.
  - split; [done | by intros [? _]].
  - split; [done | by intros [_ ?]].
Qed.

Lemma pri_async_Done target ev w w' :
  pri_async target ev w = Done tt w'
  <-> exists w1, push_event target ev w = Done tt w1
                 /\ notify_thread target w1 = Done tt w'.
Proof.
  unfold pri_async. rewrite bind_Done. split.
  - intros ([] & w1 & ? & ?); eauto.
  - intros (w1 & ? & ?); eauto.
Qed.

Lemma emit_eq a w : emit a w = Done tt (add_trace [a] w).
Proof. reflexivity. Qed.

End Primitives.

(** ** Submissions *)

Arguments que_set : simpl never.
Arguments que_get : simpl never.

Section Submissions.
Context {U : Type}.
Implicit Types w : world (U:=U).

Lemma que_get_with_cnt q f i s :
  que_get q (with_thread_data_list
               (alter (with_cnt f) i (thread_data_list_ s)) s)
  = que_get q s.
Proof.
  destruct q as [j|j|j|j]; unfold que_get; simpl; try done;
    (destruct (decide (i = N.to_nat j)) as [->|Hij];
     [ rewrite list_lookup_alter_eq;
       by destruct (thread_data_list_ s !! N.to_nat j)
     | by rewrite list_lookup_alter_ne ]).
Qed.

Lemma que_push_submitted i ev w w' :
  que_push (worker_que i) ev w = Done tt w' -> submitted w w'.
Proof.
  intros (l & Hl & ->)%que_push_Done. split; simpl; try done.
  - apply que_set_worker_num.
  - intros q l0 Hq. destruct (decide (worker_que i = q)) as [<-|Hne].
    + exists [ev]. rewrite que_get_set_eq by eauto. congruence.
    + exists []. rewrite que_get_set_ne, app_nil_r by done. done.
  - by exists [a_push (worker_que i) ev].
Qed.

Lemma synchronized_incr_submitted thridx w w' :
  synchronized_incr thridx w = Done tt w' -> submitted w w'.
Proof.
  intros (_ & ->)%synchronized_incr_Done. split; simpl; try done.
  - unfold get_thread_num; simpl. by rewrite length_alter.
  - intros q l Hq. exists []. by rewrite que_get_with_cnt, app_nil_r.
  - by exists [a_incr thridx; a_signal thridx].
Qed.

Lemma notify_thread_submitted wkridx w w' :
  notify_thread wkridx w = Done tt w' -> submitted w w'.
Proof.
  intros (_ & H)%notify_thread_Done. by eapply synchronized_incr_submitted.
Qed.

Lemma pri_async_submitted target ev w w' :
  pri_async target ev w = Done tt w' -> submitted w w'.
Proof.
  intros (w1 & H1 & H2)%pri_async_Done.
  eapply submitted_trans;
    [by eapply que_push_submitted | by eapply notify_thread_submitted].
Qed.

Lemma select_strand_index_submitted idx w w' :
  select_strand_index w = Done idx w' -> submitted w w'.
Proof.
  rewrite select_strand_index_eq. intros [= <- <-]. split; simpl; try done.
  - intros q l Hq. exists []. rewrite app_nil_r. by destruct q.
  - eexists. split; [done|]. done.
Qed.

Lemma submit_submitted sub w w' :
  submit sub w = Done tt w' -> submitted w w'.
Proof.
  destruct sub as [ev|target ev]; simpl.
  - unfold async. intros (idx & w1 & H1 & H2)%bind_Done.
    eapply submitted_trans;
      [by eapply select_strand_index_submitted | by eapply pri_async_submitted].
  - apply pri_async_submitted.
Qed.

Lemma submit_all_submitted subs w w' :
  submit_all subs w = Done tt w' -> submitted w w'.
Proof.
  revert w. induction subs as [|sub subs IH]; intros w; simpl.
  - intros [= <-]. apply submitted_refl.
  - intros ([] & w1 & H1 & H2)%bind_Done.
    eapply submitted_trans; [by eapply submit_submitted | by apply IH].
Qed.

Lemma submit_all_not_Fatal subs w w' : submit_all subs w <> Fatal w'.
Proof.
  revert w. induction subs as [|sub subs IH]; intros w; simpl; [done|].
  intros [H|(a & w1 & _ & H)]%bind_Fatal; [|by eapply IH].
  revert H. destruct sub as [ev|target ev]; simpl.
  - unfold async. rewrite (bind_eq _ _ _ _ _ (select_strand_index_eq w)).
    unfold pri_async, push_event, que_push, notify_thread, synchronized_incr.
    unfold_prims. repeat case_match; done.
  - unfold pri_async, push_event, que_push, notify_thread, synchronized_incr.
    unfold_prims. repeat case_match; done.
Qed.

End Submissions.

(** C6.  A submission through [pri_async] to worker [target] first
    pushes the event on that worker's queue and then notifies the prior
    thread of the worker, thread [target mod thread_num], and no other:
    that thread's counter goes up by one and its condition variable is
    signalled. *)
Theorem pri_async_notifies_prior_thread {U} (target : N) (ev : event)
    (w : world (U:=U)) :
  target < get_worker_num (svc w) ->
  get_thread_num (svc w) <> 0 ->
  let thr := target mod get_thread_num (svc w) in
  exists w',
    pri_async target ev w = Done tt w'
    /\ trace w' = trace w ++ [a_push (worker_que target) ev; a_incr thr; a_signal thr]
    /\ que_get (worker_que target) (svc w')
       = (fun l => l ++ [ev]) <$> que_get (worker_que target) (svc w)
    /\ is_Some (que_get (worker_que target) (svc w'))
    /\ (forall q, q <> worker_que target ->
          que_get q (svc w') = que_get q (svc w))
    /\ (forall i, cnt_ <$> thread_data_list_ (svc w') !! i
          = (fun td => if decide (i = N.to_nat thr) then N.succ (cnt_ td) else cnt_ td)
              <$> thread_data_list_ (svc w) !! i)
    /\ is_Some (thread_data_list_ (svc w) !! N.to_nat thr).
Proof.
  intros Htarget Hthreads thr.
  assert (Hwk : is_Some (worker_list_ (svc w) !! N.to_nat target)).
  { apply lookup_lt_is_Some. unfold get_worker_num in Htarget. lia. }
  assert (Hthr : is_Some (thread_data_list_ (svc w) !! N.to_nat thr)).
  { apply lookup_lt_is_Some. subst thr. unfold get_thread_num in *.
    pose proof (N.mod_upper_bound target _ Hthreads). lia. }
  destruct Hwk as [wk Hwk].
  assert (Hq0 : que_get (worker_que target) (svc w) = Some (que_ wk)).
  { unfold que_get. by rewrite Hwk. }
  pose (s1 := que_set (worker_que target) (que_ wk ++ [ev]) (svc w)).
  assert (Htd1 : thread_data_list_ s1 = thread_data_list_ (svc w)) by done.
  pose (s2 := with_thread_data_list
                (alter (with_cnt N.succ) (N.to_nat thr) (thread_data_list_ s1)) s1).
  exists (add_trace [a_push (worker_que target) ev; a_incr thr; a_signal thr]
            (set_svc s2 w)).
  split.
  { apply pri_async_Done.
    exists (add_trace [a_push (worker_que target) ev] (set_svc s1 w)). split.
    - apply que_push_Done. by exists (que_ wk).
    - apply notify_thread_Done. simpl svc.
      replace (get_thread_num s1) with (get_thread_num (svc w)) by done.
      split; [done|]. apply synchronized_incr_Done. simpl svc.
      split; [by rewrite Htd1|]. unfold add_trace, set_svc; simpl.
      by rewrite <- app_assoc. }
  simpl svc. simpl trace.
  assert (Hq' : que_get (worker_que target) s2 = Some (que_ wk ++ [ev])).
  { unfold s2. rewrite que_get_with_cnt. unfold s1.
    rewrite que_get_set_eq; [done|by rewrite Hq0]. }
  split; [done|].
  split; [by rewrite Hq', Hq0|].
  split; [by rewrite Hq'|].
  split.
  { intros q Hq. unfold s2. rewrite que_get_with_cnt. unfold s1.
    by rewrite que_get_set_ne. }
  split; [|done].
  intros i. unfold s2; simpl. change (thread_data_list_ s1) with (thread_data_list_ (svc w)).
  destruct (decide (i = N.to_nat thr)) as [->|Hi].
  - rewrite list_lookup_alter_eq.
    by destruct (thread_data_list_ (svc w) !! N.to_nat thr).
  - rewrite list_lookup_alter_ne by done.
    by destruct (thread_data_list_ (svc w) !! i).
Qed.

(** ** Strand selection *)

Lemma next_sndidx_lt (worker_num sndidx : N) :
  0 < worker_num -> next_sndidx worker_num sndidx < worker_num.
Proof.
  intros Hw. unfold next_sndidx.
  destruct (N.leb_spec worker_num (size_wrap (sndidx + 1))); lia.
Qed.

Lemma next_sndidx_mod (worker_num sndidx : N) :
  worker_num <= 2 ^ size_bits -> sndidx < worker_num ->
  next_sndidx worker_num sndidx = (sndidx + 1) mod worker_num.
Proof.
  intros Hw Hs. unfold next_sndidx, size_wrap.
  destruct (N.eq_dec (sndidx + 1) (2 ^ size_bits)) as [Heq|Hne].
  - rewrite Heq, N.Div0.mod_same.
    assert (worker_num = 2 ^ size_bits) as -> by lia.
    rewrite N.Div0.mod_same. done.
  - rewrite (N.mod_small (sndidx + 1)) by lia.
    destruct (N.leb_spec worker_num (sndidx + 1)).
    + assert (sndidx + 1 = worker_num) as -> by lia.
      by rewrite N.Div0.mod_same.
    + by rewrite N.mod_small.
Qed.

Section Selection.
Context {U : Type}.
Implicit Types w : world (U:=U).
Implicit Types c : sel_state (U:=U).

Lemma load_sndidx_eq w :
  load_sndidx w
  = Done (curr_sndidx_ (svc w))
      (add_trace [a_load_sndidx (curr_sndidx_ (svc w)) mo_relaxed] w).
Proof. reflexivity. Qed.

Lemma store_sndidx_eq sndidx w :
  store_sndidx sndidx w
  = Done sndidx
      (add_trace [a_store_sndidx (next_sndidx (get_worker_num (svc w)) sndidx)
                    mo_relaxed]
         (set_svc (with_curr_sndidx
                     (next_sndidx (get_worker_num (svc w)) sndidx) (svc w)) w)).
Proof. reflexivity. Qed.

(** One call, not overlapped by another, on a counter within range. *)
Lemma select_strand_index_step w :
  get_worker_num (svc w) <= 2 ^ size_bits ->
  curr_sndidx_ (svc w) < get_worker_num (svc w) ->
  exists w',
    select_strand_index w = Done (curr_sndidx_ (svc w)) w'
    /\ curr_sndidx_ (svc w')
       = (curr_sndidx_ (svc w) + 1) mod get_worker_num (svc w)
    /\ get_worker_num (svc w') = get_worker_num (svc w).
Proof.
  intros Hw Hc. eexists. split; [apply select_strand_index_eq|].
  simpl. split; [by apply next_sndidx_mod|done].
Qed.

Lemma select_n_round_robin n w :
  get_worker_num (svc w) <= 2 ^ size_bits ->
  curr_sndidx_ (svc w) < get_worker_num (svc w) ->
  exists w',
    select_n n w = Done (round_robin_from w n) w'
    /\ curr_sndidx_ (svc w')
       = (curr_sndidx_ (svc w) + N.of_nat n) mod get_worker_num (svc w)
    /\ get_worker_num (svc w') = get_worker_num (svc w).
Proof.
  revert w. induction n as [|n IH]; intros w Hw Hc.
  - exists w. split; [done|]. split; [|done].
    by rewrite N.add_0_r, N.mod_small.
  - destruct (select_strand_index_step w Hw Hc) as (w1 & H1 & Hc1 & Hw1).
    destruct (IH w1) as (w2 & H2 & Hc2 & Hw2).
    { by rewrite Hw1. }
    { rewrite Hc1, Hw1. apply N.mod_upper_bound. lia. }
    exists w2. split; [|split].
    + simpl. rewrite (bind_eq _ _ _ _ _ H1), (bind_eq _ _ _ _ _ H2).
      unfold mret, M_ret. f_equal. unfold round_robin_from. simpl.
      rewrite N.add_0_r, N.mod_small by done. f_equal.
      rewrite <- seq_shift, map_map. apply map_ext. intros k.
      rewrite Hc1, Hw1, N.Div0.add_mod_idemp_l. f_equal. lia.
    + rewrite Hc2, Hc1, Hw1, N.Div0.add_mod_idemp_l. f_equal. lia.
    + congruence.
Qed.

Lemma sel_step_inv worker_num caller c c' :
  sel_inv worker_num c -> sel_step caller c = Some c' -> sel_inv worker_num c'.
Proof.
  intros (Hw & Hc & Hl & Hr). unfold sel_step.
  destruct (sel_local c !! N.to_nat caller) as [[sndidx|]|] eqn:Hlocal; [| |done].
  - rewrite store_sndidx_eq. intros [= <-]. simpl.
    assert (sndidx < worker_num).
    { eapply Forall_lookup_1 in Hl; [|done]. by apply Hl. }
    repeat split; [done| | |].
    + rewrite Hw. apply next_sndidx_lt. lia.
    + apply Forall_insert; [done|]. intros v [=].
    + apply Forall_app. split; [done|]. by apply Forall_singleton.
  - rewrite load_sndidx_eq. intros [= <-]. simpl.
    repeat split; [done|done| |done].
    apply Forall_insert; [done|]. by intros v [= <-].
Qed.

Lemma sel_run_inv worker_num schedule c c' :
  sel_inv worker_num c -> sel_run schedule c = Some c' -> sel_inv worker_num c'.
Proof.
  revert c. induction schedule as [|caller schedule IH]; intros c Hinv; simpl.
  - by intros [= <-].
  - destruct (sel_step caller c) as [c1|] eqn:Hstep; [|done].
    apply IH. by eapply sel_step_inv.
Qed.

Lemma sel_init_inv w callers :
  curr_sndidx_ (svc w) < get_worker_num (svc w) ->
  sel_inv (get_worker_num (svc w)) (sel_init w callers).
Proof.
  intros Hc. repeat split; simpl; [done| |done].
  apply Forall_replicate. intros v [=].
Qed.

(** C1, amended.  [select_strand_index] loads the counter and stores
    its successor with two separate atomic operations.  A call that no
    other call overlaps returns the counter value, which lies in
    [0, worker_num), and advances the counter by one, wrapping to 0 at
    worker_num; so calls made one after the other target the strands
    cyclically.  Whatever the interleaving of concurrent callers, every
    returned index and the counter itself stay in [0, worker_num). *)
Theorem select_strand_index_round_robin w :
  get_worker_num (svc w) <= 2 ^ size_bits ->
  curr_sndidx_ (svc w) < get_worker_num (svc w) ->
  (exists w',
     select_strand_index w = Done (curr_sndidx_ (svc w)) w'
     /\ curr_sndidx_ (svc w')
        = (curr_sndidx_ (svc w) + 1) mod get_worker_num (svc w)
     /\ get_worker_num (svc w') = get_worker_num (svc w))
  /\ (forall n, exists w',
        select_n n w = Done (round_robin_from w n) w'
        /\ curr_sndidx_ (svc w')
           = (curr_sndidx_ (svc w) + N.of_nat n) mod get_worker_num (svc w))
  /\ (forall callers schedule c,
        sel_run schedule (sel_init w callers) = Some c ->
        Forall (fun r => r.2 < get_worker_num (svc w)) (sel_results c)
        /\ curr_sndidx_ (svc (sel_world c)) < get_worker_num (svc w)).
Proof.
  intros Hw Hc. split; [by apply select_strand_index_step|]. split.
  - intros n. destruct (select_n_round_robin n w Hw Hc) as (w' & ? & ? & _).
    eauto.
  - intros callers schedule c Hrun.
    pose proof (sel_run_inv _ _ _ _ (sel_init_inv w callers Hc) Hrun)
      as (_ & ? & _ & ?).
    done.
Qed.

End Selection.

(** C1 as stated does not hold.  On a dispatcher with two workers two
    callers overlap: caller 0 loads, caller 1 loads, caller 0 stores,
    caller 1 stores.  Both calls return strand 0, where an atomic
    post-increment hands out 0 and then 1, and the counter has advanced
    by one only. *)
Lemma select_strand_index_not_atomic :
  let c := sel_run [0; 1; 0; 1] (sel_init (fresh_world 1 2) 2) in
  (map snd ∘ sel_results <$> c) = Some [0; 0]
  /\ (curr_sndidx_ ∘ svc ∘ sel_world <$> c) = Some 1
  /\ round_robin_from (fresh_world 1 2) 2 = [0; 1]
  /\ (map snd ∘ sel_results <$> c) <> Some (round_robin_from (fresh_world 1 2) 2)
  /\ ~ (forall schedule c,
          sel_run schedule (sel_init (fresh_world 1 2) 2) = Some c ->
          map snd (sel_results c)
          = round_robin_from (fresh_world 1 2) (length (sel_results c))).
Proof.
  repeat split; try (vm_compute; congruence).
  intros H. specialize (H [0; 1; 0; 1] _ eq_refl). vm_compute in H. done.
Qed.

Lemma select_strand_index_round_robin_witness :
  let w := fresh_world 2 3 in
  get_worker_num (svc w) <= 2 ^ size_bits
  /\ curr_sndidx_ (svc w) < get_worker_num (svc w)
  /\ (exists w',
        select_strand_index w = Done (curr_sndidx_ (svc w)) w'
        /\ curr_sndidx_ (svc w')
           = (curr_sndidx_ (svc w) + 1) mod get_worker_num (svc w)
        /\ get_worker_num (svc w') = get_worker_num (svc w))
  /\ (forall n, exists w',
        select_n n w = Done (round_robin_from w n) w'
        /\ curr_sndidx_ (svc w')
           = (curr_sndidx_ (svc w) + N.of_nat n) mod get_worker_num (svc w))
  /\ (forall callers schedule c,
        sel_run schedule (sel_init w callers) = Some c ->
        Forall (fun r => r.2 < get_worker_num (svc w)) (sel_results c)
        /\ curr_sndidx_ (svc (sel_world c)) < get_worker_num (svc w)).
Proof.
  intros w.
  assert (Hw : get_worker_num (svc w) <= 2 ^ size_bits)
    by (vm_compute; discriminate).
  assert (Hc : curr_sndidx_ (svc w) < get_worker_num (svc w)) by reflexivity.
  split; [exact Hw|]. split; [exact Hc|].
  exact (select_strand_index_round_robin w Hw Hc).
Defined.

Lemma pri_async_notifies_prior_thread_witness :
  let w := fresh_world 2 3 in
  2 < get_worker_num (svc w)
  /\ get_thread_num (svc w) <> 0
  /\ exists w', pri_async 2 7 w = Done tt w'
       /\ trace w' = trace w ++ [a_push (worker_que 2) 7; a_incr 0; a_signal 0].
Proof.
  intros w.
  assert (H1 : 2 < get_worker_num (svc w)) by reflexivity.
  assert (H2 : get_thread_num (svc w) <> 0) by (vm_compute; discriminate).
  split; [exact H1|]. split; [exact H2|].
  destruct (pri_async_notifies_prior_thread 2 7 w H1 H2) as (w' & Hrun & Htr & _).
  exists w'. split; [exact Hrun | exact Htr].
Defined.

(** ** Stop *)

Lemma alter_all_lookup {A} (f : A -> A) (l : list N) (tdl : list A) (j : nat) :
  NoDup l ->
  alter_all f l tdl !! j
  = if decide (N.of_nat j ∈ l) then f <$> tdl !! j else tdl !! j.
Proof.
  unfold alter_all. revert tdl.
  induction l as [|i l IH]; intros tdl Hnd; cbn [foldl].
  - rewrite decide_False; [done|]. apply not_elem_of_nil.
  - pose proof (NoDup_cons_1_1 _ _ Hnd) as Hi.
    apply NoDup_cons_1_2 in Hnd. rewrite IH by done.
    destruct (decide (N.to_nat i = j)) as [<-|Hij].
    + rewrite N2Nat.id, list_lookup_alter_eq.
      rewrite decide_False by done. rewrite decide_True; [done|]. left.
    + rewrite list_lookup_alter_ne by done.
      assert (N.of_nat j <> i) by (intros <-; by rewrite Nat2N.id in Hij).
      destruct (decide (N.of_nat j ∈ l)).
      * rewrite decide_True; [done|]. by right.
      * rewrite decide_False; [done|]. intros [?|?]%elem_of_cons; done.
Qed.

Lemma alter_all_indices {A} (f : A -> A) (tdl : list A) :
  alter_all f (indices (N.of_nat (length tdl))) tdl = f <$> tdl.
Proof.
  apply list_eq. intros j.
  rewrite alter_all_lookup by apply NoDup_indices. rewrite list_lookup_fmap.
  destruct (decide (N.of_nat j ∈ indices (N.of_nat (length tdl)))) as [Hj|Hj];
    [done|].
  rewrite elem_of_indices in Hj. rewrite lookup_ge_None_2 by lia. done.
Qed.

Lemma length_alter_all {A} (f : A -> A) (l : list N) (tdl : list A) :
  length (alter_all f l tdl) = length tdl.
Proof.
  unfold alter_all. revert tdl. induction l as [|i l IH]; intros tdl; simpl;
    [done|]. by rewrite IH, length_alter.
Qed.

Lemma flat_map_singleton {A B} (g : A -> B) (l : list A) :
  flat_map (fun x => [g x]) l = map g l.
Proof. induction l; simpl; [done|]. by f_equal. Qed.

Section Stop.
Context {U : Type}.
Implicit Types w : world (U:=U).

(** A loop whose body updates the thread data at its index and leaves
    some actions in the trace. *)
Lemma for_each_alter (f : thread_data -> thread_data) (acts : N -> list action)
    (body : N -> M unit) :
  (forall i w, is_Some (thread_data_list_ (svc w) !! N.to_nat i) ->
     body i w = Done tt (add_trace (acts i)
                           (map_thread_data (alter f (N.to_nat i)) w))) ->
  forall l w,
    (forall i, i ∈ l -> i < get_thread_num (svc w)) ->
    for_each l body w
    = Done tt (add_trace (flat_map acts l) (map_thread_data (alter_all f l) w)).
Proof.
  intros Hbody l. induction l as [|i l IH]; intros w Hl; simpl.
  - unfold mret, M_ret. f_equal. destruct w as [[] ? ? ?].
    unfold add_trace, map_thread_data, set_svc; simpl. by rewrite app_nil_r.
  - assert (Hi : is_Some (thread_data_list_ (svc w) !! N.to_nat i)).
    { apply lookup_lt_is_Some. specialize (Hl i (list_elem_of_here _ _)).
      unfold get_thread_num in Hl. lia. }
    rewrite (bind_eq _ _ _ _ _ (Hbody i w Hi)), IH.
    + f_equal. unfold add_trace, map_thread_data, set_svc; simpl.
      by rewrite <- app_assoc.
    + intros k Hk. unfold get_thread_num; simpl. rewrite length_alter.
      apply Hl. by right.
Qed.

Lemma store_stop_eq thridx w :
  is_Some (thread_data_list_ (svc w) !! N.to_nat thridx) ->
  store_stop thridx w
  = Done tt (add_trace [a_store_stop thridx mo_seq_cst]
               (map_thread_data (alter (with_stop true) (N.to_nat thridx)) w)).
Proof.
  intros [td Htd]. unfold store_stop. unfold_prims. by rewrite Htd.
Qed.

Lemma synchronized_incr_eq thridx w :
  is_Some (thread_data_list_ (svc w) !! N.to_nat thridx) ->
  synchronized_incr thridx w
  = Done tt (add_trace [a_incr thridx; a_signal thridx]
               (map_thread_data (alter (with_cnt N.succ) (N.to_nat thridx)) w)).
Proof. intros H. apply synchronized_incr_Done. done. Qed.

(** C7.  [stop] first sets the stop flag of every thread, then
    increments every thread's counter and signals its condition
    variable; when it returns every flag is set and every counter is one
    higher, and nothing else of the dispatcher has changed. *)
Theorem stop_sets_flags_then_notifies w :
  let thrs := indices (get_thread_num (svc w)) in
  exists w',
    stop w = Done tt w'
    /\ trace w' = trace w
                  ++ map (fun i => a_store_stop i mo_seq_cst) thrs
                  ++ flat_map (fun i => [a_incr i; a_signal i]) thrs
    /\ thread_data_list_ (svc w')
       = (fun td => with_cnt N.succ (with_stop true td))
           <$> thread_data_list_ (svc w)
    /\ Forall (fun td => stop_ td = true) (thread_data_list_ (svc w'))
    /\ map cnt_ (thread_data_list_ (svc w'))
       = map (fun td => N.succ (cnt_ td)) (thread_data_list_ (svc w))
    /\ worker_list_ (svc w') = worker_list_ (svc w)
    /\ workshop_ (svc w') = workshop_ (svc w)
    /\ pool w' = pool w.
Proof.
  intros thrs.
  assert (Hthrs : forall i, i ∈ thrs -> i < get_thread_num (svc w)).
  { intros i. apply elem_of_indices. }
  pose proof (for_each_alter (with_stop true)
                (fun i => [a_store_stop i mo_seq_cst]) store_stop
                store_stop_eq thrs w Hthrs) as H1.
  set (w1 := add_trace _ _) in H1.
  assert (Hthrs1 : forall i, i ∈ thrs -> i < get_thread_num (svc w1)).
  { intros i Hi. unfold w1, get_thread_num; simpl. rewrite length_alter_all.
    by apply Hthrs. }
  pose proof (for_each_alter (with_cnt N.succ)
                (fun i => [a_incr i; a_signal i]) synchronized_incr
                synchronized_incr_eq thrs w1 Hthrs1) as H2.
  set (w2 := add_trace _ _) in H2.
  assert (Htd : thread_data_list_ (svc w2)
                = (fun td => with_cnt N.succ (with_stop true td))
                    <$> thread_data_list_ (svc w)).
  { unfold w2, w1; simpl. unfold thrs, get_thread_num.
    rewrite alter_all_indices.
    rewrite <- (length_fmap (with_stop true)) at 1.
    rewrite alter_all_indices. by rewrite <- list_fmap_compose. }
  exists w2. split.
  { unfold stop. unfold get_svc, mbind at 1, M_bind at 1.
    fold thrs. rewrite (bind_eq _ _ _ _ _ H1). exact H2. }
  split.
  { unfold w2, w1; simpl. rewrite <- app_assoc.
    by rewrite (flat_map_singleton (fun i => a_store_stop i mo_seq_cst)). }
  split; [done|]. rewrite Htd.
  split; [by apply Forall_fmap, Forall_true|].
  split; [|done].
  rewrite <- list_fmap_compose. by apply list_fmap_ext.
Qed.

End Stop.

(** ** Dispatching events *)

Lemma size_wrap_succ_add (n k : N) :
  size_wrap (size_wrap (n + 1) + k) = size_wrap (n + (1 + k)).
Proof.
  unfold size_wrap. rewrite N.Div0.add_mod_idemp_l. f_equal. lia.
Qed.

Lemma size_wrap_small (n : N) : n < 2 ^ size_bits -> size_wrap n = n.
Proof. apply N.mod_small. Qed.

Section Dispatching.
Context {U : Type}.
Variable handle : event -> thrctx_t -> U -> U * list submission * handle_result.
Implicit Types w : world (U:=U).

Lemma evolves_refl w : evolves w w [] [].
Proof.
  split; try done.
  - intros q l Hq. exists []. by rewrite app_nil_r.
  - by rewrite app_nil_r.
  - exists []. by rewrite app_nil_r.
Qed.

Lemma evolves_trans w1 w2 w3 v1 v2 r1 r2 :
  evolves w1 w2 v1 r1 -> evolves w2 w3 v2 r2 ->
  evolves w1 w3 (v1 ++ v2) (r1 ++ r2).
Proof.
  intros [Hw1 Ht1 Hn1 Hq1 Hp1 (tr1 & Htr1 & Hv1)]
         [Hw2 Ht2 Hn2 Hq2 Hp2 (tr2 & Htr2 & Hv2)].
  split; try congruence.
  - intros q l Hq. destruct (Hq1 q l Hq) as [l1 Hl1].
    destruct (Hq2 q _ Hl1) as [l2 Hl2]. exists (l1 ++ l2).
    by rewrite app_assoc.
  - by rewrite Hp2, Hp1, app_assoc.
  - exists (tr1 ++ tr2). split.
    + by rewrite Htr2, Htr1, app_assoc.
    + by rewrite dispatch_view_app, Hv1, Hv2.
Qed.

Lemma submitted_evolves w w' : submitted w w' -> evolves w w' [] [].
Proof.
  intros [Hp Hu Hw Ht Hn Hq Htr]. split; try done. by rewrite app_nil_r.
Qed.

Lemma evolves_add_trace w tr :
  evolves w (add_trace tr w) (dispatch_view tr) [].
Proof.
  split; simpl; try done.
  - intros q l Hq. exists []. by rewrite app_nil_r.
  - by rewrite app_nil_r.
  - by exists tr.
Qed.

Lemma evolves_set_user w u : evolves w (set_user u w) [] [].
Proof.
  split; simpl; try done.
  - intros q l Hq. exists []. by rewrite app_nil_r.
  - by rewrite app_nil_r.
  - exists []. by rewrite app_nil_r.
Qed.

Lemma release_eq ev w :
  release ev w
  = Done tt {| svc := svc w; pool := pool w ++ [ev]; user := user w;
               trace := trace w ++ [a_release ev] |}.
Proof. reflexivity. Qed.

Lemma evolves_release ev w w' :
  release ev w = Done tt w' -> evolves w w' [a_release ev] [ev].
Proof.
  rewrite release_eq. intros [= <-]. split; simpl; try done.
  - intros q l Hq. exists []. by rewrite app_nil_r.
  - by exists [a_release ev].
Qed.

(** The call of a handler: it returns what [handle] says, and the
    submissions made on the way are all that happens in between. *)
Lemma call_handle_Done ev thrctx w r w' :
  call_handle handle ev thrctx w = Done r w' ->
  r = (handle ev thrctx (user w)).2
  /\ user w' = (handle ev thrctx (user w)).1.1
  /\ evolves w w' [a_call ev thrctx; a_return ev r] [].
Proof.
  unfold call_handle. destruct (handle ev thrctx (user w)) as [[u subs] r0].
  intros H. bind_inv H.
  repeat match goal with x : () |- _ => destruct x end.
  apply ret_Done in H as [<- <-].
  apply submit_all_submitted in H1.
  injection H0 as <-. injection H2 as <-.
  split; [done|]. split; [simpl; by rewrite (sub_user _ _ H1)|].
  change [a_call ev thrctx; a_return ev r0]
    with ([] ++ dispatch_view [a_call ev thrctx] ++ []
          ++ dispatch_view [a_return ev r0]).
  change (@nil event) with (@nil event ++ [] ++ [] ++ []).
  eapply evolves_trans; [apply evolves_set_user|].
  eapply evolves_trans; [apply evolves_add_trace|].
  eapply evolves_trans; [by apply submitted_evolves|].
  apply evolves_add_trace.
Qed.

Lemma call_handle_not_Fatal ev thrctx w w' :
  call_handle handle ev thrctx w <> Fatal w'.
Proof.
  unfold call_handle. destruct (handle ev thrctx (user w)) as [[u subs] r0].
  intros [H|(a & w1 & _ & H)]%bind_Fatal; [done|].
  apply bind_Fatal in H as [H|(a' & w2 & _ & H)];
    [by apply submit_all_not_Fatal in H|].
  apply bind_Fatal in H as [H|(a'' & w3 & _ & H)]; done.
Qed.

Lemma dispatch_event_Done ev thrctx w w' :
  dispatch_event handle ev thrctx w = Done tt w' ->
  exists is_auto,
    (handle ev thrctx (user w)).2 = Returned is_auto
    /\ evolves w w' (tail (dispatched (worker_que 0) thrctx (ev, is_auto)))
         (released [(ev, is_auto)]).
Proof.
  unfold dispatch_event. intros H. bind_inv H.
  apply call_handle_Done in H0 as (-> & _ & Hev).
  destruct (handle ev thrctx (user w)).2 as [b|] eqn:Hr.
  - apply ret_Done in H1 as [<- <-]. exists b. split; [done|].
    destruct b; unfold released; simpl.
    + change [a_call ev thrctx; a_return ev (Returned true); a_release ev]
        with ([a_call ev thrctx; a_return ev (Returned true)] ++ [a_release ev]).
      change [ev] with ([] ++ [ev]).
      eapply evolves_trans; [done|]. by apply evolves_release.
    + apply ret_Done in H as [_ <-]. done.
  - unfold ensures in H1. unfold_prims. done.
Qed.

Lemma dispatch_event_Fatal ev thrctx w w' :
  dispatch_event handle ev thrctx w = Fatal w' ->
  (handle ev thrctx (user w)).2 = Threw
  /\ evolves w w' [a_call ev thrctx; a_return ev Threw; a_ensures_fail] [].
Proof.
  unfold dispatch_event.
  intros [H|(r & w1 & Hcall & H)]%bind_Fatal;
    [by apply call_handle_not_Fatal in H|].
  apply call_handle_Done in Hcall as (-> & _ & Hev).
  destruct (handle ev thrctx (user w)).2 as [b|] eqn:Hr.
  - destruct b; unfold_prims; done.
  - split; [done|].
    assert (w' = add_trace [a_ensures_fail] w1) as ->.
    { unfold ensures in H. unfold_prims. by injection H as <-. }
    change [a_call ev thrctx; a_return ev Threw; a_ensures_fail]
      with ([a_call ev thrctx; a_return ev Threw]
            ++ dispatch_view [a_ensures_fail]).
    change (@nil event) with (@nil event ++ []).
    eapply evolves_trans; [done|]. apply evolves_add_trace.
Qed.

(** A handler that throws ends the dispatch: the outcome is fatal,
    unless a submission it made before was itself undefined. *)
End Dispatching.

(** ** Dispatch loops *)

Lemma count_after_zero (k : nat) : count_after 0 k = size_wrap (N.of_nat k).
Proof.
  unfold count_after. induction k as [|k IH]; [done|].
  rewrite Nat.iter_succ, IH. unfold size_wrap.
  rewrite N.Div0.add_mod_idemp_l. f_equal. lia.
Qed.

Lemma count_after_succ (n : N) (k : nat) :
  count_after (size_wrap (n + 1)) k = count_after n (S k).
Proof. unfold count_after. by rewrite Nat.iter_succ_r. Qed.

Lemma released_cons (h : event * bool) (hs : list (event * bool)) :
  released (h :: hs) = released [h] ++ released hs.
Proof. unfold released. destruct h as [ev []]; done. Qed.

Section Loops.
Context {U : Type}.
Variable handle : event -> thrctx_t -> U -> U * list submission * handle_result.
Implicit Types w : world (U:=U).

(** What a dispatch loop that returned has done. *)
Lemma drain_Done fuel q thrctx n w m w' :
  drain handle fuel q thrctx n w = Done m w' ->
  exists hs : list (event * bool),
    m = count_after n (length hs)
    /\ workshop_ (svc w') = workshop_ (svc w)
    /\ get_thread_num (svc w') = get_thread_num (svc w)
    /\ get_worker_num (svc w') = get_worker_num (svc w)
    /\ pool w' = pool w ++ released hs
    /\ (exists tr, trace w' = trace w ++ tr
                   /\ dispatch_view tr = drained q thrctx hs)
    /\ que_get q (svc w') = Some []
    /\ (forall l, que_get q (svc w) = Some l -> exists l', map fst hs = l ++ l').
Proof.
  revert n w. induction fuel as [|fuel IH]; intros n w; simpl; [done|].
  intros (r & w0 & Hpop & H)%bind_Done.
  apply que_pop_Done in Hpop as (l & Hq & Hl). destruct l as [|ev l].
  - destruct Hl as [-> ->]. apply ret_Done in H as [<- <-].
    exists []. repeat split; simpl; try done.
    + by rewrite app_nil_r.
    + by exists [a_pop q None].
    + intros l Hl. exists []. assert (l = []) as -> by congruence. done.
  - destruct Hl as [-> ->].
    apply bind_Done in H as ([] & w1 & Hd & H).
    apply dispatch_event_Done in Hd as (b & Hb & [Hw1 Ht1 Hn1 Hq1 Hp1 Htr1]).
    apply IH in H as (hs & -> & Hw & Ht & Hn & Hp & Htr & Hq' & Hpre).
    destruct Htr1 as (tr1 & Htr1 & Hv1). destruct Htr as (tr & Htr & Hv).
    exists ((ev, b) :: hs). simpl in *.
    split; [apply count_after_succ|].
    split; [rewrite Hw, Hw1; apply que_set_workshop|].
    split; [rewrite Ht, Ht1; apply que_set_thread_num|].
    split; [rewrite Hn, Hn1; apply que_set_worker_num|].
    split; [by rewrite Hp, Hp1, (released_cons _ hs), app_assoc|].
    split.
    { exists ([a_pop q (Some ev)] ++ tr1 ++ tr). split.
      - by rewrite Htr, Htr1, <- !app_assoc.
      - rewrite !dispatch_view_app, Hv1, Hv. unfold drained. simpl.
        by rewrite <- !app_assoc. }
    split; [done|].
    intros l0 Hl0. assert (l0 = ev :: l) as -> by congruence.
    destruct (Hq1 q l) as [x Hx]; [by rewrite que_get_set_eq|].
    destruct (Hpre _ Hx) as [y Hy]. exists (x ++ y).
    by rewrite Hy, <- app_assoc.
Qed.

(** What a dispatch loop that ended fatally has done: the events [hs]
    were dispatched in full, then the handler of [ev] threw, the
    assertion failed, and nothing followed. *)
Lemma drain_Fatal fuel q thrctx n w w' :
  drain handle fuel q thrctx n w = Fatal w' ->
  exists (hs : list (event * bool)) (ev : event),
    pool w' = pool w ++ released hs
    /\ exists tr, trace w' = trace w ++ tr
         /\ dispatch_view tr
            = flat_map (dispatched q thrctx) hs
              ++ [a_pop q (Some ev); a_call ev thrctx; a_return ev Threw;
                  a_ensures_fail].
Proof.
  revert n w. induction fuel as [|fuel IH]; intros n w; simpl; [done|].
  intros [H|(r & w0 & Hpop & H)]%bind_Fatal; [by apply que_pop_not_Fatal in H|].
  apply que_pop_Done in Hpop as (l & Hq & Hl). destruct l as [|ev l].
  - by destruct Hl as [-> ->].
  - destruct Hl as [-> ->].
    apply bind_Fatal in H as [H|([] & w1 & Hd & H)].
    + apply dispatch_event_Fatal in H as (_ & [_ _ _ _ Hp (tr & Htr & Hv)]).
      exists [], ev. simpl in *. split; [done|].
      exists ([a_pop q (Some ev)] ++ tr). split.
      * by rewrite Htr, <- app_assoc.
      * by rewrite dispatch_view_app, Hv.
    + apply dispatch_event_Done in Hd as (b & Hb & [_ _ _ _ Hp1 (tr1 & Htr1 & Hv1)]).
      apply IH in H as (hs & ev' & Hp & tr & Htr & Hv).
      exists ((ev, b) :: hs), ev'. simpl in *.
      split; [by rewrite Hp, Hp1, (released_cons _ hs), app_assoc|].
      exists ([a_pop q (Some ev)] ++ tr1 ++ tr). split.
      * by rewrite Htr, Htr1, <- !app_assoc.
      * rewrite !dispatch_view_app, Hv1, Hv. simpl. by rewrite <- !app_assoc.
Qed.

Lemma dispatch_event_quiet ev thrctx w u' b :
  handle ev thrctx (user w) = (u', [], Returned b) ->
  exists w1, dispatch_event handle ev thrctx w = Done tt w1 /\ svc w1 = svc w.
Proof.
  intros Hh. unfold dispatch_event, call_handle, mbind at 1, M_bind at 1.
  rewrite Hh. unfold release. unfold_prims.
  destruct b; eexists; (split; [reflexivity|done]).
Qed.

(** With quiet handlers a dispatch loop returns after as many rounds
    as there are queued events, and one more to see the queue empty. *)
Lemma drain_quiet q thrctx :
  quiet handle ->
  forall l n w,
    que_get q (svc w) = Some l ->
    exists w', drain handle (S (length l)) q thrctx n w
               = Done (count_after n (length l)) w'.
Proof.
  intros Hquiet l. induction l as [|ev l IH]; intros n w Hq.
  - eexists. cbn [drain length]. unfold que_pop. unfold_prims. by rewrite Hq.
  - set (w0 := add_trace [a_pop q (Some ev)] (set_svc (que_set q l (svc w)) w)).
    assert (Hpop : que_pop q w = Done (Some ev) w0).
    { apply que_pop_Done. exists (ev :: l). done. }
    destruct (Hquiet ev thrctx (user w0)) as (u' & b & Hh).
    destruct (dispatch_event_quiet ev thrctx w0 u' b Hh) as (w1 & Hd & Hs).
    destruct (IH (size_wrap (n + 1)) w1) as (w' & Hrun).
    { rewrite Hs. unfold w0; simpl. apply que_get_set_eq. by rewrite Hq. }
    exists w'. cbn [length]. rewrite <- count_after_succ, <- Hrun.
    change (drain handle (S (S (length l))) q thrctx n w)
      with ((que_pop q ≫= fun r =>
               match r with
               | None => mret n
               | Some ev => dispatch_event handle ev thrctx;;
                            drain handle (S (length l)) q thrctx (size_wrap (n + 1))
               end) w).
    rewrite (bind_eq _ _ _ _ _ Hpop). by rewrite (bind_eq _ _ _ _ _ Hd).
Qed.

(** *** Loops against the words of the specification *)

(** The body of the loops, for the event just popped. *)
Lemma dispatch_popped q thrctx ev l u subs r w :
  handle ev thrctx (user w) = (u, subs, r) ->
  dispatch_event handle ev thrctx
    (add_trace [a_pop q (Some ev)] (set_svc (que_set q l (svc w)) w))
  = match submit_all subs (called q thrctx ev l u w) with
    | Done _ w1 =>
        match r with
        | Returned is_auto => Done tt (finished ev is_auto w1)
        | Threw => Fatal (thrown ev w1)
        end
    | Fatal w1 => Fatal w1
    | Undefined => Undefined
    | OutOfFuel => OutOfFuel
    end.
Proof.
  intros Hh. unfold dispatch_event, call_handle.
  unfold mbind at 1, M_bind at 1. cbn [user add_trace set_svc]. rewrite Hh.
  rewrite (bind_eq _ _ _ _ _ (emit_eq _ _)).
  replace (add_trace [a_call ev thrctx] _) with (called q thrctx ev l u w)
    by (unfold called, add_trace, set_user, set_svc; simpl;
        by rewrite <- app_assoc).
  unfold mbind at 1, M_bind at 1.
  destruct (submit_all subs (called q thrctx ev l u w)) as [[] w1|w1| |];
    [|done..].
  rewrite (bind_eq _ _ _ _ _ (emit_eq _ _)). unfold mret at 1, M_ret at 1.
  destruct r as [b|].
  - unfold mbind, M_bind, mret, M_ret. destruct b.
    + rewrite release_eq. unfold finished, add_trace; simpl.
      by rewrite <- app_assoc.
    + unfold finished, add_trace; simpl. by rewrite app_nil_r.
  - unfold ensures. unfold_prims. unfold thrown, add_trace; simpl.
    by rewrite <- app_assoc.
Qed.

Lemma drain_none fuel q thrctx n w :
  que_get q (svc w) = None -> drain handle (S fuel) q thrctx n w = Undefined.
Proof.
  intros Hq. cbn [drain]. unfold que_pop. unfold_prims. by rewrite Hq.
Qed.

Lemma drain_nil fuel q thrctx n w :
  que_get q (svc w) = Some [] ->
  drain handle (S fuel) q thrctx n w = Done n (add_trace [a_pop q None] w).
Proof.
  intros Hq. cbn [drain].
  assert (Hpop : que_pop q w = Done None (add_trace [a_pop q None] w)).
  { apply que_pop_Done. by exists []. }
  by rewrite (bind_eq _ _ _ _ _ Hpop).
Qed.

Lemma drain_cons fuel q thrctx n ev l u subs r w :
  que_get q (svc w) = Some (ev :: l) ->
  handle ev thrctx (user w) = (u, subs, r) ->
  drain handle (S fuel) q thrctx n w
  = match submit_all subs (called q thrctx ev l u w) with
    | Done _ w1 =>
        match r with
        | Returned is_auto =>
            drain handle fuel q thrctx (size_wrap (n + 1)) (finished ev is_auto w1)
        | Threw => Fatal (thrown ev w1)
        end
    | Fatal w1 => Fatal w1
    | Undefined => Undefined
    | OutOfFuel => OutOfFuel
    end.
Proof.
  intros Hq Hh. cbn [drain].
  assert (Hpop : que_pop q w
                 = Done (Some ev)
                     (add_trace [a_pop q (Some ev)]
                        (set_svc (que_set q l (svc w)) w))).
  { apply que_pop_Done. by exists (ev :: l). }
  rewrite (bind_eq _ _ _ _ _ Hpop). unfold mbind at 1, M_bind at 1.
  rewrite (dispatch_popped q thrctx ev l u subs r w Hh).
  destruct (submit_all subs _) as [[] w1|w1| |]; [|done..].
  by destruct r.
Qed.

(** A dispatch loop returns exactly when it has handled events until it
    found the queue empty. *)
Lemma drain_Done_iff fuel q thrctx n w m w' :
  drain handle fuel q thrctx n w = Done m w'
  <-> exists (hs : list (event * bool)) w1,
        (length hs < fuel)%nat
        /\ handled handle q thrctx w hs w1
        /\ que_get q (svc w1) = Some []
        /\ w' = add_trace [a_pop q None] w1
        /\ m = count_after n (length hs).
Proof.
  split.
  - revert n w. induction fuel as [|fuel IH]; intros n w; [done|].
    destruct (que_get q (svc w)) as [[|ev l]|] eqn:Hq.
    + rewrite (drain_nil _ _ _ _ _ Hq). intros [= <- <-].
      exists [], w. simpl. split; [lia|]. split; [constructor|]. done.
    + destruct (handle ev thrctx (user w)) as [[u subs] r] eqn:Hh.
      rewrite (drain_cons _ _ _ _ _ _ _ _ _ _ Hq Hh).
      destruct (submit_all subs _) as [[] w1|w1| |] eqn:Hs; [|done..].
      destruct r as [b|]; [|done].
      intros (hs & w2 & Hlen & Hhs & Hq2 & -> & ->)%IH.
      exists ((ev, b) :: hs), w2. simpl. split; [lia|].
      split; [by eapply handled_cons|]. split; [done|]. split; [done|].
      apply count_after_succ.
    + by rewrite (drain_none _ _ _ _ _ Hq).
  - intros (hs & w1 & Hlen & Hhs & Hq1 & -> & ->).
    revert fuel n Hlen.
    induction Hhs as [w|w ev l u subs b w1 hs w2 Hq Hh Hs _ IH]; intros fuel n Hlen;
      (destruct fuel as [|fuel]; [simpl in Hlen; lia|]).
    + by rewrite (drain_nil _ _ _ _ _ Hq1).
    + rewrite (drain_cons _ _ _ _ _ _ _ _ _ _ Hq Hh), Hs.
      rewrite (IH Hq1 fuel) by (simpl in Hlen; lia).
      simpl. by rewrite count_after_succ.
Qed.

(** A dispatch loop ends fatally exactly when a handler throws. *)
Lemma drain_Fatal_iff fuel q thrctx n w w' :
  drain handle fuel q thrctx n w = Fatal w'
  <-> exists (hs : list (event * bool)) w1 ev w2,
        (length hs < fuel)%nat
        /\ handled handle q thrctx w hs w1
        /\ throws handle q thrctx w1 ev w2
        /\ w' = thrown ev w2.
Proof.
  split.
  - revert n w. induction fuel as [|fuel IH]; intros n w; [done|].
    destruct (que_get q (svc w)) as [[|ev l]|] eqn:Hq.
    + by rewrite (drain_nil _ _ _ _ _ Hq).
    + destruct (handle ev thrctx (user w)) as [[u subs] r] eqn:Hh.
      rewrite (drain_cons _ _ _ _ _ _ _ _ _ _ Hq Hh).
      destruct (submit_all subs _) as [[] w1|w1| |] eqn:Hs; [| |done..].
      * destruct r as [b|].
        -- intros (hs & w2 & ev' & w3 & Hlen & Hhs & Hth & ->)%IH.
           exists ((ev, b) :: hs), w2, ev', w3. simpl. split; [lia|].
           split; [by eapply handled_cons|]. done.
        -- intros [= <-]. exists [], w, ev, w1. simpl. split; [lia|].
           split; [constructor|]. split; [|done]. by exists l, u, subs.
      * by apply submit_all_not_Fatal in Hs.
    + by rewrite (drain_none _ _ _ _ _ Hq).
  - intros (hs & w1 & ev & w2 & Hlen & Hhs & (l & u & subs & Hq1 & Hh1 & Hs1) & ->).
    revert fuel n Hlen.
    induction Hhs as [w|w ev0 l0 u0 subs0 b w0 hs w3 Hq Hh Hs _ IH];
      intros fuel n Hlen;
      (destruct fuel as [|fuel]; [simpl in Hlen; lia|]).
    + by rewrite (drain_cons _ _ _ _ _ _ _ _ _ _ Hq1 Hh1), Hs1.
    + rewrite (drain_cons _ _ _ _ _ _ _ _ _ _ Hq Hh), Hs.
      apply IH; [done..|simpl in Hlen; lia].
Qed.

(** What the handled events leave behind. *)
Lemma handled_effect q thrctx w hs w1 :
  handled handle q thrctx w hs w1 ->
  pool w1 = pool w ++ released hs
  /\ (forall l, que_get q (svc w) = Some l ->
        exists l' rest, que_get q (svc w1) = Some rest
                        /\ l ++ l' = map fst hs ++ rest)
  /\ exists tr, trace w1 = trace w ++ tr
                /\ dispatch_view tr = flat_map (dispatched q thrctx) hs.
Proof.
  induction 1 as [w|w ev l u subs b w0 hs w2 Hq Hh Hs _ IH].
  - split; [by rewrite app_nil_r|]. split.
    + intros l Hl. exists [], l. by rewrite app_nil_r.
    + exists []. by rewrite app_nil_r.
  - destruct IH as (Hp & Hpre & tr & Htr & Hv).
    apply submit_all_submitted in Hs as [Hp0 _ _ _ _ Hq0 (tr0 & Htr0 & Hv0)].
    split.
    { rewrite Hp, (released_cons _ hs). simpl. rewrite Hp0. simpl.
      rewrite <- app_assoc. f_equal. by destruct b. }
    split.
    { intros l0 Hl0. assert (l0 = ev :: l) as -> by congruence.
      destruct (Hq0 q l) as [l1 Hl1].
      { simpl. apply que_get_set_eq. by rewrite Hq. }
      destruct (Hpre _ Hl1) as (l' & rest & Hrest & Heq).
      exists (l1 ++ l'), rest. split; [done|]. simpl. f_equal.
      by rewrite app_assoc. }
    exists ([a_pop q (Some ev); a_call ev thrctx] ++ tr0
            ++ (a_return ev (Returned b) :: (if b then [a_release ev] else []))
            ++ tr).
    split.
    + rewrite Htr. simpl. rewrite Htr0. simpl. by rewrite <- !app_assoc.
    + rewrite !dispatch_view_app, Hv0, Hv. unfold dispatched. simpl.
      by destruct b.
Qed.

(** C2.  [worker::work] returns exactly when it has popped events and
    called their handlers, one after the other, until a pop found the
    queue empty; then it has called [handle] under [thrctx] on each
    popped event, with the user state and the submissions of the
    handlers before it in effect, has released an event exactly when
    its handler returned true, and returns how many events it drained
    (as a [size_t]).  Every event queued at the start is among them, in
    queue order, followed by what the handlers added to this queue.
    When the handlers neither submit nor throw, [work] returns, and the
    count is the number of queued events. *)
Theorem work_drains_queue (this : N) (thrctx : thrctx_t) w :
  let q := worker_que this in
  (forall fuel n w',
     work handle fuel this thrctx w = Done n w'
     <-> exists (hs : list (event * bool)) w1,
           (length hs < fuel)%nat
           /\ handled handle q thrctx w hs w1
           /\ que_get q (svc w1) = Some []
           /\ w' = add_trace [a_pop q None] w1
           /\ n = size_wrap (N.of_nat (length hs)))
  /\ (forall hs w1,
        handled handle q thrctx w hs w1 ->
        pool w1 = pool w ++ released hs
        /\ (exists tr, trace w1 = trace w ++ tr
              /\ dispatch_view tr = flat_map (dispatched q thrctx) hs)
        /\ (que_get q (svc w1) = Some [] ->
            forall l, que_get q (svc w) = Some l ->
                      exists l', map fst hs = l ++ l'))
  /\ (quiet handle ->
      forall l, que_get q (svc w) = Some l ->
      exists w', work handle (S (length l)) this thrctx w
                 = Done (size_wrap (N.of_nat (length l))) w').
Proof.
  intros q. split; [|split].
  - intros fuel n w'. unfold work. rewrite drain_Done_iff.
    by setoid_rewrite count_after_zero.
  - intros hs w1 Hhs.
    destruct (handled_effect q thrctx w hs w1 Hhs) as (Hp & Hpre & Htr).
    split; [done|]. split; [done|]. intros Hq1 l Hl.
    destruct (Hpre l Hl) as (l' & rest & Hrest & Heq).
    assert (rest = []) as -> by congruence.
    exists l'. by rewrite app_nil_r in Heq.
  - intros Hquiet l Hq. rewrite <- count_after_zero.
    by apply drain_quiet.
Qed.

End Loops.

Lemma work_drains_queue_witness :
  let s := ev_service_ctor 0 1 None 2 in
  let thrctx := mk_thrctx 0 (Some 0) in
  quiet even_auto
  /\ que_get (worker_que 0) (svc (world_with_que s (worker_que 0) [4; 5]))
     = Some [4; 5]
  /\ (exists w',
        work even_auto 3 0 thrctx (world_with_que s (worker_que 0) [4; 5])
        = Done 2 w'
        /\ pool w' = [4]
        /\ que_get (worker_que 0) (svc w') = Some [])
  /\ exists n w' hs w1,
       work post_on_5 3 0 thrctx (counting_world s (worker_que 0) [4; 5])
       = Done n w'
       /\ handled post_on_5 (worker_que 0) thrctx
            (counting_world s (worker_que 0) [4; 5]) hs w1
       /\ w' = add_trace [a_pop (worker_que 0) None] w1
       /\ n = 2 /\ pool w' = [4] /\ user w' = 2
       /\ que_get (worker_que 1) (svc w') = Some [9].
Proof.
  intros s thrctx.
  assert (Hquiet : quiet even_auto).
  { intros ev thr u. by exists u, (N.even ev). }
  assert (Hq : que_get (worker_que 0)
                 (svc (world_with_que s (worker_que 0) [4; 5]))
               = Some [4; 5]) by reflexivity.
  split; [exact Hquiet|]. split; [exact Hq|]. split.
  - destruct (work_drains_queue even_auto 0 thrctx
                (world_with_que s (worker_que 0) [4; 5])) as (_ & _ & Htotal).
    destruct (Htotal Hquiet [4; 5] Hq) as (w' & Hrun).
    exists w'. split; [exact Hrun|].
    vm_compute in Hrun. injection Hrun as <-. split; reflexivity.
  - destruct (work post_on_5 3 0 thrctx (counting_world s (worker_que 0) [4; 5]))
      as [n w'| | |] eqn:Hrun;
      [|vm_compute in Hrun; discriminate Hrun..].
    destruct (work_drains_queue post_on_5 0 thrctx
                (counting_world s (worker_que 0) [4; 5])) as (Hiff & _ & _).
    destruct (proj1 (Hiff 3%nat n w') Hrun) as (hs & w1 & _ & Hhs & _ & Hw' & _).
    exists n, w', hs, w1. split; [reflexivity|]. split; [exact Hhs|].
    split; [exact Hw'|].
    vm_compute in Hrun. injection Hrun as <- <-. repeat split; reflexivity.
Defined.

(** ** Exceptions from handlers *)

Lemma not_Threw_in_drained q thrctx hs ev :
  a_return ev Threw ∉ drained q thrctx hs.
Proof.
  unfold drained. rewrite list_elem_of_In, in_app_iff, in_flat_map.
  intros [((ev' & b) & _ & Hin)|Hin].
  - unfold dispatched in Hin. destruct b; simpl in Hin;
      intuition discriminate.
  - simpl in Hin. intuition discriminate.
Qed.

Lemma elem_of_dispatch_view a tr :
  submit_action a = false -> a ∈ tr -> a ∈ dispatch_view tr.
Proof.
  intros Ha Hin. unfold dispatch_view.
  rewrite list_elem_of_In, List.filter_In, <- list_elem_of_In.
  by rewrite Ha.
Qed.

Section Exceptions.
Context {U : Type}.
Variable handle : event -> thrctx_t -> U -> U * list submission * handle_result.
Implicit Types w : world (U:=U).

Lemma run_loop_drain fuel lp thrctx w :
  match lp with
  | loop_tsegv tidx =>
      run_loop handle fuel lp thrctx w
      = (count ← drain handle fuel (loop_que lp) thrctx 0;
         (if count =? 0 then emit (a_log_error tidx) else mret tt);;
         mret count) w
  | _ => run_loop handle fuel lp thrctx w
         = drain handle fuel (loop_que lp) thrctx 0 w
  end.
Proof. by destruct lp. Qed.

(** C9.  In every dispatch loop ([worker::work], the tstart and texit
    loops of [trun], the tsegv recovery loop) an exception thrown by a
    handler is caught and leads to the failed assertion at once.  The
    loop ends fatally exactly when, after any number of handlers that
    returned, the handler of the next event throws: it then ends right
    after that handler, in the world in which it threw, with the failed
    assertion as its last action, the event not released and nothing
    dispatched afterwards, however many events are still queued and
    however many rounds the loop might have run.  A loop that returned
    has seen no handler throw. *)
Theorem handler_exception_is_fatal (lp : dispatch_loop) (thrctx : thrctx_t) w :
  let q := loop_que lp in
  (forall fuel w',
     run_loop handle fuel lp thrctx w = Fatal w'
     <-> exists (hs : list (event * bool)) w1 ev w2,
           (length hs < fuel)%nat
           /\ handled handle q thrctx w hs w1
           /\ throws handle q thrctx w1 ev w2
           /\ w' = thrown ev w2)
  /\ (forall hs w1 ev w2,
        handled handle q thrctx w hs w1 ->
        throws handle q thrctx w1 ev w2 ->
        pool (thrown ev w2) = pool w ++ released hs
        /\ exists tr,
             trace (thrown ev w2) = trace w ++ tr
             /\ dispatch_view tr
                = flat_map (dispatched q thrctx) hs
                  ++ [a_pop q (Some ev); a_call ev thrctx;
                      a_return ev Threw; a_ensures_fail])
  /\ (forall fuel n w',
        run_loop handle fuel lp thrctx w = Done n w' ->
        exists tr, trace w' = trace w ++ tr
                   /\ forall ev, a_return ev Threw ∉ tr).
Proof.
  intros q. split; [|split].
  - intros fuel w'.
    assert (Hd : run_loop handle fuel lp thrctx w = Fatal w'
                 <-> drain handle fuel q thrctx 0 w = Fatal w').
    { pose proof (run_loop_drain fuel lp thrctx w) as Heq. unfold q.
      destruct lp; try (by rewrite Heq). rewrite Heq. split.
      - intros [H|(count & w1 & _ & H)]%bind_Fatal; [done|].
        exfalso. destruct (count =? 0); unfold_prims; done.
      - intros H. unfold mbind at 1, M_bind at 1. by rewrite H. }
    rewrite Hd. apply drain_Fatal_iff.
  - intros hs w1 ev w2 Hhs (l & u & subs & Hq1 & Hh1 & Hs1).
    destruct (handled_effect handle q thrctx w hs w1 Hhs) as (Hp & _ & tr & Htr & Hv).
    apply submit_all_submitted in Hs1 as [Hp0 _ _ _ _ _ (tr0 & Htr0 & Hv0)].
    split; [simpl; by rewrite Hp0|].
    exists (tr ++ [a_pop q (Some ev); a_call ev thrctx] ++ tr0
            ++ [a_return ev Threw; a_ensures_fail]).
    split.
    + simpl. rewrite Htr0. simpl. rewrite Htr. by rewrite <- !app_assoc.
    + rewrite !dispatch_view_app, Hv0, Hv. done.
  - intros fuel n w' H.
    assert (exists m w1 tail, drain handle fuel (loop_que lp) thrctx 0 w = Done m w1
              /\ trace w' = trace w1 ++ tail
              /\ forall ev, a_return ev Threw ∉ tail) as (m & w1 & tl & Hd & Htl & Hno).
    { pose proof (run_loop_drain fuel lp thrctx w) as Heq.
      destruct lp;
        try (exists n, w', []; rewrite <- Heq, app_nil_r;
             split; [done|]; split; [done|]; intros ev; apply not_elem_of_nil).
      rewrite Heq in H. apply bind_Done in H as (count & w1 & Hd & H).
      exists count, w1. destruct (count =? 0); unfold_prims.
      - exists [a_log_error tidx]. injection H as <- <-. simpl.
        split; [done|]. split; [done|]. intros ev Hin.
        apply elem_of_cons in Hin as [Hin|Hin]; [done|].
        by apply elem_of_nil in Hin.
      - exists []. injection H as <- <-. rewrite app_nil_r.
        split; [done|]. split; [done|]. intros ev. apply not_elem_of_nil. }
    apply drain_Done in Hd as (hs & _ & _ & _ & _ & _ & (tr & Htr & Hv) & _).
    exists (tr ++ tl). split; [by rewrite Htl, Htr, app_assoc|].
    intros ev [Hin|Hin]%elem_of_app; [|by apply Hno in Hin].
    apply (not_Threw_in_drained (loop_que lp) thrctx hs ev).
    rewrite <- Hv. by apply elem_of_dispatch_view.
Qed.

End Exceptions.

Lemma handler_exception_is_fatal_witness :
  let s := ev_service_ctor 0 1 None 1 in
  let thrctx := mk_thrctx 0 None in
  Forall (fun lp =>
            let q := loop_que lp in
            run_loop throw_on_7 3 lp thrctx (world_with_que s q [4; 7; 6])
            = Fatal (mk_world (que_set q [6] s) [4] tt
                       [a_pop q (Some 4); a_call 4 thrctx;
                        a_return 4 (Returned true); a_release 4;
                        a_pop q (Some 7); a_call 7 thrctx;
                        a_return 7 Threw; a_ensures_fail]))
    [loop_work 0; loop_tstart 0; loop_texit 0; loop_tsegv 0].
Proof.
  intros s thrctx.
  assert (Hfire : forall lp,
            lp ∈ [loop_work 0; loop_tstart 0; loop_texit 0; loop_tsegv 0] ->
            run_loop throw_on_7 3 lp thrctx (world_with_que s (loop_que lp) [4; 7; 6])
            = Fatal (thrown 7 (called (loop_que lp) thrctx 7 [6] tt
                                 (finished 4 true
                                    (called (loop_que lp) thrctx 4 [7; 6] tt
                                       (world_with_que s (loop_que lp) [4; 7; 6])))))).
  { intros lp Hlp.
    apply (handler_exception_is_fatal throw_on_7 lp thrctx
             (world_with_que s (loop_que lp) [4; 7; 6])).
    eexists [(4, true)], _, 7, _. split; [simpl; lia|].
    split; [|split; [|reflexivity]].
    - eapply (handled_cons _ _ _ _ 4 [7; 6] tt [] true);
        [|reflexivity|reflexivity|constructor].
      repeat (apply elem_of_cons in Hlp as [->|Hlp]; [reflexivity|]).
      by apply elem_of_nil in Hlp.
    - exists [6], tt, []. split; [|split; reflexivity].
      repeat (apply elem_of_cons in Hlp as [->|Hlp]; [reflexivity|]).
      by apply elem_of_nil in Hlp. }
  repeat apply List.Forall_cons; [..|apply List.Forall_nil];
    (etrans; [apply Hfire; apply list_elem_of_In; simpl; tauto|reflexivity]).
Defined.

(** ** Claiming a worker *)

Section Claim.
Context {U : Type}.
Variable handle : event -> thrctx_t -> U -> U * list submission * handle_result.
Implicit Types w : world (U:=U).

Lemma workshop_exchange_eq slot desired mo observed w :
  workshop_ (svc w) !! N.to_nat slot = Some observed ->
  workshop_exchange slot desired mo w
  = Done observed
      (add_trace [a_exchange slot observed mo]
         (set_svc (with_workshop (<[N.to_nat slot := desired]> (workshop_ (svc w)))
                     (svc w)) w)).
Proof. intros H. unfold workshop_exchange. unfold_prims. by rewrite H. Qed.

Lemma workshop_store_eq slot wkr mo w :
  is_Some (workshop_ (svc w) !! N.to_nat slot) ->
  workshop_store slot wkr mo w
  = Done tt
      (add_trace [a_store_slot slot wkr mo]
         (set_svc (with_workshop (<[N.to_nat slot := Some wkr]> (workshop_ (svc w)))
                     (svc w)) w)).
Proof. intros [x H]. unfold workshop_store. unfold_prims. by rewrite H. Qed.



Lemma do_work_claimed fuel wkridx wkr thrctx wlv w :
  workshop_ (svc w) !! N.to_nat wkridx = Some (Some wkr) ->
  do_work handle fuel wkridx thrctx wlv w
  = match work handle fuel wkr (set_worker (Some wkr) thrctx)
            (claimed wkridx wkr thrctx w) with
    | Done n w2 =>
        Done (size_wrap n, set_worker None thrctx) (restored wkridx wkr thrctx w2)
    | Fatal w2 => Fatal w2
    | Undefined => Undefined
    | OutOfFuel => OutOfFuel
    end.
Proof.
  intros Hslot. unfold do_work.
  rewrite (bind_eq _ _ _ _ _ (workshop_exchange_eq _ None _ _ _ Hslot)).
  rewrite (bind_eq _ _ _ _ _ (emit_eq _ _)).
  rewrite add_trace_add_trace. cbn [app thr_index set_worker].
  fold (claimed wkridx wkr thrctx w).
  unfold mbind at 1, M_bind at 1.
  destruct (work _ _ _ _ _) as [n w2| | |] eqn:Hwork; try done.
  apply drain_Done in Hwork as (hs & _ & Hws & _).
  rewrite (bind_eq _ _ _ _ _ (emit_eq _ _)).
  assert (Hin : is_Some (workshop_ (svc (add_trace
                  [a_set_worker (thr_index thrctx) None] w2)) !! N.to_nat wkridx)).
  { simpl. rewrite Hws. simpl. apply lookup_lt_is_Some.
    rewrite length_insert. by eapply lookup_lt_Some. }
  rewrite (bind_eq _ _ _ _ _ (workshop_store_eq wkridx wkr mo_release _ Hin)).
  unfold mret, M_ret, restored, add_trace, set_svc; simpl.
  by rewrite <- app_assoc.
Qed.


End Claim.


(** ** The prior sweep *)

(** C4 fails on the code.  Thread 0 of a one-thread dispatcher has the
    prior workers 0 and 1.  Two events are submitted with [async]: one
    lands on each worker and the thread's counter reads 2, which the
    wait in front of the sweep moves into [expected_pworks].  Both
    "sworks" counters read 0.  [do_work] drains one event from each
    worker, so the sweep should take 2 off [expected_pworks] and leave
    0; it leaves -1, because it subtracts the running total [pworks]
    (1, then 2) instead of each worker's own count. *)
Theorem prior_sweep_subtracts_running_total :
  let thrctx := mk_thrctx 0 None in
  let submit2 : M (U:=unit) unit := async 4;; async 6 in
  priors_of 1 2 0 = [0; 1]
  /\ returned ((submit2;; wait_for_work 0 0) (fresh_world 1 2)) = Some 2%Z
  /\ returned ((submit2;;
                r0 ← do_work even_auto 2 0 thrctx prior;
                r1 ← do_work even_auto 2 1 thrctx prior;
                mret (r0.1, r1.1)) (fresh_world 1 2)) = Some (1, 1)
  /\ returned ((submit2;;
                expected_pworks ← wait_for_work 0 0;
                prior_sweep even_auto no_sworks 2 (priors_of 1 2 0) thrctx 0
                  expected_pworks) (fresh_world 1 2))
     = Some (2, (-1)%Z, thrctx).
Proof. vm_compute. done. Qed.

(** ** Destruction *)

Section Destruction.
Context {U : Type}.
Implicit Types w : world (U:=U).

Lemma release_svc ev w w' : release ev w = Done tt w' -> svc w' = svc w.
Proof. by intros [= <-]. Qed.

(** A cleanup loop leaves every other queue as it was. *)
Lemma pop_unique_loop_other fuel q q' w w' :
  q <> q' ->
  pop_unique_loop fuel q w = Done tt w' ->
  que_get q' (svc w') = que_get q' (svc w).
Proof.
  intros Hne. revert w. induction fuel as [|fuel IH]; intros w; simpl; [done|].
  intros (r & w0 & Hpop & H)%bind_Done.
  apply que_pop_Done in Hpop as (l & Hq & Hl). destruct l as [|ev l].
  - destruct Hl as [-> ->]. by apply ret_Done in H as [_ <-].
  - destruct Hl as [-> ->]. apply bind_Done in H as ([] & w1 & Hrel & H).
    apply release_svc in Hrel. apply IH in H. rewrite H, Hrel. simpl.
    by apply que_get_set_ne.
Qed.

Lemma pop_unique_all_other q q' w w' :
  q <> q' ->
  pop_unique_all q w = Done tt w' ->
  que_get q' (svc w') = que_get q' (svc w).
Proof.
  intros Hne. unfold pop_unique_all, get_svc, mbind, M_bind.
  destruct (que_get q (svc w)); [|done]. by apply pop_unique_loop_other.
Qed.

Lemma for_each_other (body : N -> M unit) (q' : que_ref) :
  (forall i w w', body i w = Done tt w' ->
     que_get q' (svc w') = que_get q' (svc w)) ->
  forall l w w', for_each l body w = Done tt w' ->
    que_get q' (svc w') = que_get q' (svc w).
Proof.
  intros Hbody l. induction l as [|i l IH]; intros w w'; simpl.
  - by intros [= <-].
  - intros ([] & w1 & H1 & H)%bind_Done.
    rewrite (IH _ _ H). by eapply Hbody.
Qed.

(** Whatever the state of the dispatcher, the destructor body leaves
    the tsegv queue of every thread as it was. *)
Lemma dtor_keeps_tsegv_que (thr : N) w w' :
  ev_service_dtor w = Done tt w' ->
  tsegv_que_ <$> thread_data_list_ (svc w') !! N.to_nat thr
  = tsegv_que_ <$> thread_data_list_ (svc w) !! N.to_nat thr.
Proof.
  unfold ev_service_dtor. intros (s & w0 & [= <- <-] & H)%bind_Done.
  apply bind_Done in H as ([] & w1 & H1 & H).
  apply bind_Done in H as (s1 & w2 & [= <- <-] & H).
  apply bind_Done in H as ([] & w3 & [= <-] & H).
  apply bind_Done in H as ([] & w4 & H4 & H).
  apply bind_Done in H as (s4 & w5 & [= <- <-] & H).
  apply bind_Done in H as ([] & w6 & [= <-] & H).
  unfold delete_local_pools in H. unfold_prims. injection H as <-. simpl.
  apply (for_each_other _ (tsegv_que thr)) in H1, H4.
  - unfold que_get in H1, H4. simpl in H4. by rewrite H4.
  - intros i w7 w7'. by apply pop_unique_all_other.
  - intros i w7 w7' ([] & w8 & Ha & Hb)%bind_Done.
    apply (pop_unique_all_other _ (tsegv_que thr)) in Ha, Hb; [|done..].
    by rewrite Hb.
Qed.

End Destruction.

(** C5 fails on the code.  On a dispatcher with one thread and one
    worker a tstart, a texit and a tsegv handler are registered from a
    thread that is not one of its own (events 1, 2 and 3, taken from
    the pools 50, 51 and 52 which that thread registers on the way) and
    event 4 is submitted; the dispatcher is destroyed without having
    run.  The destructor gives the tstart event, the texit event and
    the worker's event back to their pools and deletes the registered
    pools, but the tsegv event is still in its queue, neither handled
    nor released. *)
Theorem dtor_leaves_tsegv_queue :
  let unused := unused_pool_array 8 in
  let never_run : M (U:=unit) unit :=
    pri_tstart 8 None unused [(50, 1)];; pri_texit 8 None unused [(51, 2)];;
    pri_tsegv 8 None unused [(52, 3)];; async 4 in
  let destroyed := final_world ((never_run;; ev_service_dtor) (fresh_world 1 1)) in
  (que_get (tsegv_que 0) ∘ svc <$> final_world (never_run (fresh_world 1 1)))
  = Some (Some [3])
  /\ (local_pool_queue_ ∘ svc <$> final_world (never_run (fresh_world 1 1)))
     = Some [50; 51; 52]
  /\ returned ((never_run;; ev_service_dtor) (fresh_world 1 1)) = Some tt
  /\ (pool <$> destroyed) = Some [1; 2; 4]
  /\ (que_get (tstart_que 0) ∘ svc <$> destroyed) = Some (Some [])
  /\ (que_get (texit_que 0) ∘ svc <$> destroyed) = Some (Some [])
  /\ (worker_list_ ∘ svc <$> destroyed) = Some []
  /\ (local_pool_queue_ ∘ svc <$> destroyed) = Some []
  /\ (que_get (tsegv_que 0) ∘ svc <$> destroyed) = Some (Some [3]).
Proof. vm_compute. done. Qed.

(** * Further properties of the dispatcher *)

(** ** Threads and their workers *)

Lemma elem_of_priors_of (thread_num worker_num tidx n : N) :
  n ∈ priors_of thread_num worker_num tidx <-> n < worker_num /\ n mod thread_num = tidx.
Proof.
  unfold priors_of. rewrite list_elem_of_filter, elem_of_indices. tauto.
Qed.

Lemma elem_of_minors_of (thread_num worker_num tidx n : N) :
  n ∈ minors_of thread_num worker_num tidx <-> n < worker_num /\ n mod thread_num <> tidx.
Proof.
  unfold minors_of. rewrite list_elem_of_filter, elem_of_indices. tauto.
Qed.

Lemma ctor_threads_le_workers uid thread_num lg worker_num :
  get_thread_num (ev_service_ctor uid thread_num lg worker_num) <> 0
  /\ get_thread_num (ev_service_ctor uid thread_num lg worker_num)
     <= get_worker_num (ev_service_ctor uid thread_num lg worker_num).
Proof.
  rewrite ctor_get_thread_num, ctor_get_worker_num. unfold effective_thread_num.
  destruct (N.eqb_spec thread_num 0); lia.
Qed.

(** X1.  In a constructed dispatcher every worker is a prior worker of
    exactly one thread, thread [n mod thread_num] (the thread that
    [notify_thread] signals for it), and a minor worker of every other
    thread; the two lists of a thread split the workers between them;
    and every thread has a prior worker, the one carrying its own
    index, which is what raising [worker_num] to [thread_num] in the
    constructor is for. *)
Theorem every_worker_has_one_prior_thread (uid thread_num : N)
    (lg : option logger) (worker_num : N) :
  let s := ev_service_ctor uid thread_num lg worker_num in
  let T := get_thread_num s in
  let W := get_worker_num s in
  (forall n, n < W ->
     n mod T < T
     /\ n ∈ priors_of T W (n mod T)
     /\ (forall t, n ∈ priors_of T W t -> t = n mod T)
     /\ (forall t, t <> n mod T -> n ∈ minors_of T W t))
  /\ (forall t, priors_of T W t ++ minors_of T W t ≡ₚ indices W)
  /\ (forall t n, n ∈ priors_of T W t -> n ∉ minors_of T W t)
  /\ (forall t, t < T -> t ∈ priors_of T W t).
Proof.
  intros s T W.
  destruct (ctor_threads_le_workers uid thread_num lg worker_num) as [HT HW].
  fold s T W in HT, HW.
  split; [|split; [|split]].
  - intros n Hn. split; [by apply N.mod_upper_bound|].
    split; [by apply elem_of_priors_of|]. split.
    + by intros t [_ <-]%elem_of_priors_of.
    + intros t Ht. apply elem_of_minors_of. split; [done|congruence].
  - intros t. unfold priors_of, minors_of. apply filter_app_complement.
  - intros t n [_ Hp]%elem_of_priors_of [_ Hm]%elem_of_minors_of. done.
  - intros t Ht. apply elem_of_priors_of. split; [lia|]. by apply N.mod_small.
Qed.

Lemma filter_eq_singleton (x : N) (l : list N) :
  NoDup l -> x ∈ l -> filter (fun y => y = x) l = [x].
Proof.
  induction l as [|y l IH]; intros Hnd Hin; [by apply elem_of_nil in Hin|].
  pose proof (NoDup_cons_1_1 _ _ Hnd) as Hy. apply NoDup_cons_1_2 in Hnd.
  destruct (decide (y = x)) as [->|Hne].
  - rewrite filter_cons_True by done. f_equal.
    apply elem_of_nil_inv. intros z [-> Hz]%list_elem_of_filter. done.
  - rewrite filter_cons_False by done. apply IH; [done|].
    apply elem_of_cons in Hin as [->|Hin]; done.
Qed.

Lemma filter_iff_on (P1 P2 : N -> Prop)
    `{!forall x, Decision (P1 x), !forall x, Decision (P2 x)} (l : list N) :
  (forall x, x ∈ l -> P1 x <-> P2 x) -> filter P1 l = filter P2 l.
Proof.
  induction l as [|a l IH]; intros Hiff; [done|].
  assert (Ha : P1 a <-> P2 a) by (apply Hiff; left).
  assert (Hl : filter P1 l = filter P2 l)
    by (apply IH; intros x Hx; apply Hiff; by right).
  destruct (decide (P1 a)).
  - rewrite !filter_cons_True by tauto. by rewrite Hl.
  - rewrite !filter_cons_False by tauto. done.
Qed.

(** X2.  A dispatcher built from a thread count alone (or from the
    hardware concurrency) has one worker per thread; in its run loop
    thread [t] then has worker [t] as its only prior worker and all the
    other workers, in ascending order, as minor workers. *)
Theorem one_worker_per_thread (uid thread_num : N) :
  let s := ev_service_ctor_threads uid thread_num in
  let T := get_thread_num s in
  get_worker_num s = T
  /\ T = effective_thread_num thread_num
  /\ (forall lg, get_worker_num (ev_service_ctor_default uid thread_num lg) = T)
  /\ (forall t, t < T ->
        priors_of T (get_worker_num s) t = [t]
        /\ minors_of T (get_worker_num s) t = filter (fun n => n <> t) (indices T)).
Proof.
  intros s T.
  assert (HT : T = effective_thread_num thread_num) by apply ctor_get_thread_num.
  assert (HW : forall lg, get_worker_num (ev_service_ctor uid thread_num lg 0) = T).
  { intros lg. rewrite ctor_get_worker_num, HT. lia. }
  split; [apply HW|]. split; [done|]. split; [apply HW|].
  intros t Ht. unfold s, ev_service_ctor_threads. rewrite HW.
  assert (HT0 : T <> 0) by lia.
  unfold priors_of, minors_of. split.
  - rewrite <- (filter_eq_singleton t (indices T));
      [|apply NoDup_indices|by apply elem_of_indices].
    apply filter_iff_on. intros n Hn%elem_of_indices.
    by rewrite N.mod_small.
  - apply filter_iff_on. intros n Hn%elem_of_indices.
    by rewrite N.mod_small.
Qed.

(** ** The thread-local thrctx *)

Lemma pri_current_calls_Some p args :
  pri_current_calls (Some p) args = (map (fun _ => Some p) args, Some p).
Proof.
  induction args as [|a args IH]; [done|]. simpl. by rewrite IH.
Qed.

(** X3.  [pri_current] is a set-once latch: as long as no thrctx is
    installed a call with null returns null and installs nothing; the
    first call with a thrctx installs it; from then on every call
    returns that thrctx whatever it is given, and the thread-local is
    never replaced.  [current] only reads. *)
Theorem pri_current_first_wins (nulls : nat) (p : N) (later : list (option N)) :
  pri_current_calls None (replicate nulls None ++ Some p :: later)
  = (replicate nulls None ++ Some p :: map (fun _ => Some p) later, Some p)
  /\ (forall local_thrctx, (current local_thrctx).2 = local_thrctx
                            /\ (current local_thrctx).1 = local_thrctx)
  /\ (forall q thrctx, pri_current (Some q) thrctx = (Some q, Some q)).
Proof.
  split; [|split].
  - induction nulls as [|k IH]; simpl.
    + by rewrite pri_current_calls_Some.
    + by rewrite IH.
  - intros local. by destruct local.
  - done.
Qed.

(** ** Generic submissions *)

Lemma ctor_wf uid thread_num lg worker_num :
  thread_num < 2 ^ size_bits -> worker_num < 2 ^ size_bits ->
  wf_svc (ev_service_ctor uid thread_num lg worker_num).
Proof.
  intros Ht Hw.
  destruct (ctor_threads_le_workers uid thread_num lg worker_num) as [H1 H2].
  split; [done|done| | |apply ctor_sndidx_in_range].
  - rewrite ctor_get_worker_num. unfold effective_thread_num.
    destruct (N.eqb_spec thread_num 0); [|lia].
    assert (1 < 2 ^ size_bits) by (vm_compute; done). lia.
  - rewrite ctor_workshop, ctor_worker_list, !length_map. done.
Qed.

Lemma total_count_alter_succ (tdl : list thread_data) (i : nat) :
  is_Some (tdl !! i) ->
  foldr N.add 0 (map cnt_ (alter (with_cnt N.succ) i tdl))
  = foldr N.add 0 (map cnt_ tdl) + 1.
Proof.
  revert i. induction tdl as [|td tdl IH]; intros i [x Hx]; [done|].
  destruct i as [|i]; cbn -[N.add N.succ] in *.
  - lia.
  - rewrite IH by eauto. lia.
Qed.

Section GenericSubmissions.
Context {U : Type}.
Implicit Types w : world (U:=U).

(** What one [pri_async] changes. *)
Lemma pri_async_effect target ev w :
  target < get_worker_num (svc w) ->
  get_thread_num (svc w) <> 0 ->
  exists w',
    pri_async target ev w = Done tt w'
    /\ (forall q, que_get q (svc w')
          = if decide (q = worker_que target)
            then (fun l => l ++ [ev]) <$> que_get q (svc w)
            else que_get q (svc w))
    /\ total_count (svc w') = total_count (svc w) + 1
    /\ curr_sndidx_ (svc w') = curr_sndidx_ (svc w)
    /\ get_worker_num (svc w') = get_worker_num (svc w)
    /\ get_thread_num (svc w') = get_thread_num (svc w)
    /\ workshop_ (svc w') = workshop_ (svc w)
    /\ length (worker_list_ (svc w')) = length (worker_list_ (svc w))
    /\ pool w' = pool w /\ user w' = user w.
Proof.
  intros Htarget Hthreads.
  set (thr := target mod get_thread_num (svc w)).
  assert (Hwk : is_Some (worker_list_ (svc w) !! N.to_nat target)).
  { apply lookup_lt_is_Some. unfold get_worker_num in Htarget. lia. }
  assert (Hthr : is_Some (thread_data_list_ (svc w) !! N.to_nat thr)).
  { apply lookup_lt_is_Some. subst thr. unfold get_thread_num in *.
    pose proof (N.mod_upper_bound target _ Hthreads). lia. }
  destruct Hwk as [wk Hwk].
  assert (Hq0 : que_get (worker_que target) (svc w) = Some (que_ wk)).
  { unfold que_get. by rewrite Hwk. }
  pose (s1 := que_set (worker_que target) (que_ wk ++ [ev]) (svc w)).
  pose (s2 := with_thread_data_list
                (alter (with_cnt N.succ) (N.to_nat thr) (thread_data_list_ s1)) s1).
  exists (add_trace [a_push (worker_que target) ev; a_incr thr; a_signal thr]
            (set_svc s2 w)).
  split.
  { apply pri_async_Done.
    exists (add_trace [a_push (worker_que target) ev] (set_svc s1 w)). split.
    - apply que_push_Done. by exists (que_ wk).
    - apply notify_thread_Done. simpl svc.
      replace (get_thread_num s1) with (get_thread_num (svc w)) by done.
      split; [done|]. apply synchronized_incr_Done. simpl svc.
      split; [done|]. unfold add_trace, set_svc; simpl.
      by rewrite <- app_assoc. }
  simpl svc. split.
  { intros q. unfold s2. rewrite que_get_with_cnt. unfold s1.
    destruct (decide (q = worker_que target)) as [->|Hq].
    - rewrite que_get_set_eq by (by rewrite Hq0). by rewrite Hq0.
    - by rewrite que_get_set_ne. }
  split.
  { unfold total_count, s2; simpl. by apply total_count_alter_succ. }
  split; [done|]. split; [apply que_set_worker_num|].
  split; [unfold get_thread_num, s2; simpl; by rewrite length_alter|].
  split; [done|].
  split; [unfold s2, s1, que_set; simpl; by rewrite length_alter|]. done.
Qed.

(** What one [async] changes on a well-formed dispatcher. *)
Lemma async_effect ev w :
  wf_svc (svc w) ->
  exists w',
    async ev w = Done tt w'
    /\ wf_svc (svc w')
    /\ (forall q, que_get q (svc w')
          = if decide (q = worker_que (curr_sndidx_ (svc w)))
            then (fun l => l ++ [ev]) <$> que_get q (svc w)
            else que_get q (svc w))
    /\ total_count (svc w') = total_count (svc w) + 1
    /\ curr_sndidx_ (svc w')
       = (curr_sndidx_ (svc w) + 1) mod get_worker_num (svc w)
    /\ get_worker_num (svc w') = get_worker_num (svc w)
    /\ get_thread_num (svc w') = get_thread_num (svc w)
    /\ workshop_ (svc w') = workshop_ (svc w)
    /\ pool w' = pool w /\ user w' = user w.
Proof.
  intros [HT HW Hsz Hws Hc].
  pose proof (select_strand_index_eq w) as Hsel.
  set (w1 := add_trace _ _) in Hsel.
  destruct (pri_async_effect (curr_sndidx_ (svc w)) ev w1)
    as (w' & Hrun & Hq & Hcnt & Hidx & Hwn & Htn & Hwsh & Hlen & Hp & Hu);
    [done|done|].
  exists w'. split; [unfold async; by rewrite (bind_eq _ _ _ _ _ Hsel)|].
  assert (Hnext : curr_sndidx_ (svc w')
                  = (curr_sndidx_ (svc w) + 1) mod get_worker_num (svc w)).
  { rewrite Hidx. simpl. by apply next_sndidx_mod. }
  split.
  { split.
    - by rewrite Htn.
    - by rewrite Htn, Hwn.
    - by rewrite Hwn.
    - rewrite Hwsh, Hlen. done.
    - rewrite Hnext, Hwn.
      change (get_worker_num (svc w1)) with (get_worker_num (svc w)).
      apply N.mod_upper_bound. lia. }
  split; [intros q; rewrite Hq; by destruct q|]. done.
Qed.

Lemma strand_share_cons worker_num sndidx i ev evs :
  sndidx < worker_num ->
  strand_share worker_num sndidx i (ev :: evs)
  = (if decide (i = sndidx) then [ev] else [])
    ++ strand_share worker_num ((sndidx + 1) mod worker_num) i evs.
Proof.
  intros Hc. unfold strand_share. rewrite imap_cons.
  rewrite (imap_ext _ (fun k ev =>
             if decide (((sndidx + 1) mod worker_num + N.of_nat k) mod worker_num = i)
             then Some ev else None)).
  - simpl. rewrite N.add_0_r, N.mod_small by done.
    destruct (decide (sndidx = i)) as [->|Hne].
    + by rewrite decide_True.
    + by rewrite decide_False.
  - intros k x _. simpl. rewrite N.Div0.add_mod_idemp_l.
    replace (sndidx + N.of_nat (S k)) with (sndidx + 1 + N.of_nat k) by lia.
    done.
Qed.

Lemma async_all_effect evs w :
  wf_svc (svc w) ->
  exists w',
    async_all evs w = Done tt w'
    /\ wf_svc (svc w')
    /\ (forall i, que_get (worker_que i) (svc w')
          = (fun l => l ++ strand_share (get_worker_num (svc w))
                            (curr_sndidx_ (svc w)) i evs)
              <$> que_get (worker_que i) (svc w))
    /\ (forall q, (forall i, q <> worker_que i) ->
          que_get q (svc w') = que_get q (svc w))
    /\ total_count (svc w') = total_count (svc w) + N.of_nat (length evs)
    /\ curr_sndidx_ (svc w')
       = (curr_sndidx_ (svc w) + N.of_nat (length evs)) mod get_worker_num (svc w)
    /\ get_worker_num (svc w') = get_worker_num (svc w)
    /\ workshop_ (svc w') = workshop_ (svc w)
    /\ pool w' = pool w.
Proof.
  revert w. induction evs as [|ev evs IH]; intros w Hwf.
  - exists w. split; [done|]. split; [done|]. split.
    { intros i. unfold strand_share. simpl.
      destruct (que_get _ _); simpl; [by rewrite app_nil_r|done]. }
    split; [done|]. split; [simpl; lia|]. split; [|done].
    simpl. rewrite N.add_0_r, N.mod_small; [done|apply Hwf].
  - destruct (async_effect ev w Hwf)
      as (w1 & H1 & Hwf1 & Hq1 & Hc1 & Hi1 & Hw1 & _ & Hs1 & Hp1 & _).
    destruct (IH w1 Hwf1) as (w' & H2 & Hwf' & Hq2 & Ho2 & Hc2 & Hi2 & Hw2 & Hs2 & Hp2).
    exists w'. split; [simpl; by rewrite (bind_eq _ _ _ _ _ H1)|].
    split; [done|]. split.
    { intros i. rewrite Hq2, Hq1, Hw1, Hi1.
      rewrite strand_share_cons by apply Hwf.
      destruct (decide (worker_que i = worker_que (curr_sndidx_ (svc w))))
        as [[= ->]|Hne].
      - rewrite decide_True by done.
        destruct (que_get _ _); simpl; [|done]. by rewrite <- app_assoc.
      - rewrite decide_False by congruence. done. }
    split.
    { intros q Hq. rewrite Ho2, Hq1 by done. by rewrite decide_False. }
    split; [rewrite Hc2, Hc1; simpl; lia|].
    split.
    { rewrite Hi2, Hi1, Hw1, N.Div0.add_mod_idemp_l. f_equal. simpl. lia. }
    split; [congruence|]. split; congruence.
Qed.

(** X4.  Submissions made one after the other through [async] on a
    well-formed dispatcher always succeed (no index leaves its range)
    and are dealt out round robin: the [k]-th event is appended to the
    queue of strand [(curr_sndidx + k) mod worker_num], so every strand
    receives its share in submission order; no other queue changes,
    the thread counters go up by one per event in total, the round
    robin counter ends [n] places on, and the dispatcher is well formed
    again. *)
Theorem async_all_round_robin evs w :
  wf_svc (svc w) ->
  exists w',
    async_all evs w = Done tt w'
    /\ wf_svc (svc w')
    /\ (forall i, que_get (worker_que i) (svc w')
          = (fun l => l ++ strand_share (get_worker_num (svc w))
                            (curr_sndidx_ (svc w)) i evs)
              <$> que_get (worker_que i) (svc w))
    /\ (forall q, (forall i, q <> worker_que i) ->
          que_get q (svc w') = que_get q (svc w))
    /\ total_count (svc w') = total_count (svc w) + N.of_nat (length evs)
    /\ curr_sndidx_ (svc w')
       = (curr_sndidx_ (svc w) + N.of_nat (length evs)) mod get_worker_num (svc w)
    /\ workshop_ (svc w') = workshop_ (svc w)
    /\ pool w' = pool w.
Proof.
  intros Hwf.
  destruct (async_all_effect evs w Hwf)
    as (w' & H & Hwf' & Hq & Ho & Hc & Hi & _ & Hs & Hp).
  by exists w'.
Qed.

End GenericSubmissions.

Lemma async_all_round_robin_witness :
  let w := fresh_world 2 3 in
  wf_svc (svc w)
  /\ exists w',
       async_all [10; 11; 12; 13; 14] w = Done tt w'
       /\ que_get (worker_que 0) (svc w') = Some [10; 13]
       /\ que_get (worker_que 1) (svc w') = Some [11; 14]
       /\ que_get (worker_que 2) (svc w') = Some [12]
       /\ total_count (svc w') = 5.
Proof.
  intros w.
  assert (Hwf : wf_svc (svc w)).
  { apply ctor_wf; vm_compute; done. }
  split; [exact Hwf|].
  destruct (async_all_round_robin [10; 11; 12; 13; 14] w Hwf)
    as (w' & Hrun & _ & Hq & _ & Hc & _).
  exists w'. split; [exact Hrun|].
  split; [exact (Hq 0)|]. split; [exact (Hq 1)|]. split; [exact (Hq 2)|].
  exact Hc.
Defined.

(** ** Pools of outside threads *)

Lemma pool_slot_Some uid pa p :
  pool_slot uid pa = Some p ->
  size_ pa <> 0 /\ arr_ pa !! N.to_nat uid = Some (Some p).
Proof.
  unfold pool_slot. destruct (N.eqb_spec (size_ pa) 0); [done|].
  destruct (arr_ pa !! N.to_nat uid) as [[q|]|]; [|done..].
  by intros [= ->].
Qed.

Lemma pool_slot_None uid pa :
  (N.to_nat uid < length (arr_ pa))%nat ->
  pool_slot uid pa = None ->
  size_ pa = 0 \/ arr_ pa !! N.to_nat uid = Some None.
Proof.
  unfold pool_slot. intros Hlt. destruct (N.eqb_spec (size_ pa) 0); [by left|].
  destruct (lookup_lt_is_Some_2 _ _ Hlt) as [[q|] ->]; [done|by right].
Qed.

Lemma pools_used_ext reg reg' calls :
  (forall ety, reg ety = reg' ety) -> pools_used reg calls = pools_used reg' calls.
Proof.
  revert reg reg'. induction calls as [|[ety ptr] calls IH]; intros reg reg' H;
    [done|].
  simpl. rewrite <- H. destruct (reg ety); f_equal; apply IH; [done|].
  intros e. unfold with_pool_array. by destruct (decide (e = ety)).
Qed.

Lemma pools_registered_ext reg reg' calls :
  (forall ety, reg ety = reg' ety) ->
  pools_registered reg calls = pools_registered reg' calls.
Proof.
  revert reg reg'. induction calls as [|[ety ptr] calls IH]; intros reg reg' H;
    [done|].
  simpl. rewrite <- H. destruct (reg ety); [|f_equal]; apply IH; [done|].
  intros e. unfold with_pool_array. by destruct (decide (e = ety)).
Qed.

(** Calls for an event type that has its pool. *)
Lemma pools_of_registered_type reg ety p ptrs :
  reg ety = Some p ->
  pools_registered reg (map (pair ety) ptrs) = []
  /\ pools_used reg (map (pair ety) ptrs) = replicate (length ptrs) p.
Proof.
  intros Hreg. induction ptrs as [|ptr ptrs [IH1 IH2]]; [done|].
  simpl. rewrite Hreg. split; [done|]. by rewrite IH2.
Qed.

Section PoolRegistry.
Context {U : Type}.
Variable max_ev_service : N.
Implicit Types w : world (U:=U).

Lemma with_pools_nil w : with_pools [] w = w.
Proof.
  unfold with_pools. rewrite app_nil_r. by destruct w as [[] ? ? ?].
Qed.

Lemma with_pools_app ptrs1 ptrs2 w :
  with_pools ptrs2 (with_pools ptrs1 w) = with_pools (ptrs1 ++ ptrs2) w.
Proof. unfold with_pools, set_svc; simpl. by rewrite <- app_assoc. Qed.

Lemma make_event_on_thread thrctx pa ptr w :
  make_event max_ev_service (Some thrctx) pa ptr w
  = Done (thrctx_pool thrctx, pa) w.
Proof. reflexivity. Qed.

(** The first call of an outside thread for this dispatcher. *)
Lemma make_event_first pa ptr w :
  uid_ (svc w) < max_ev_service ->
  length (arr_ pa) = N.to_nat max_ev_service ->
  size_ pa + 1 < 2 ^ size_bits ->
  size_ pa = 0 \/ arr_ pa !! N.to_nat (uid_ (svc w)) = Some None ->
  exists pa',
    make_event max_ev_service None pa ptr w
    = Done (local_pool ptr, pa') (with_pools [ptr] w)
    /\ size_ pa' = size_ pa + 1
    /\ length (arr_ pa') = N.to_nat max_ev_service
    /\ arr_ pa' !! N.to_nat (uid_ (svc w)) = Some (Some ptr).
Proof.
  intros Huid Hlen Hsize Hnull.
  assert (Hlt : (N.to_nat (uid_ (svc w)) < length (arr_ pa))%nat) by lia.
  set (pa0 := if size_ pa =? 0
              then {| size_ := size_ pa; arr_ := map (fun _ => None) (arr_ pa) |}
              else pa).
  assert (H0 : arr_ pa0 !! N.to_nat (uid_ (svc w)) = Some None
               /\ size_ pa0 = size_ pa /\ length (arr_ pa0) = length (arr_ pa)).
  { unfold pa0. destruct (N.eqb_spec (size_ pa) 0) as [Hz|Hz]; simpl.
    - split; [|by rewrite length_map].
      change (map (fun _ => None) (arr_ pa))
        with ((fun _ : option pool_id => @None pool_id) <$> arr_ pa).
      rewrite list_lookup_fmap.
      destruct (lookup_lt_is_Some_2 _ _ Hlt) as [x ->]. done.
    - destruct Hnull as [?|Hn]; done. }
  destruct H0 as (Hslot & Hsz & Hl0).
  exists {| size_ := size_wrap (size_ pa0 + 1);
            arr_ := <[N.to_nat (uid_ (svc w)) := Some ptr]> (arr_ pa0) |}.
  split.
  { unfold make_event, current, pri_current, expects, with_pools. simpl.
    fold pa0. unfold_prims. apply N.ltb_lt in Huid. rewrite Huid, Hslot. done. }
  simpl. split; [rewrite Hsz; by apply size_wrap_small|].
  split; [by rewrite length_insert, Hl0|].
  apply list_lookup_insert_eq. lia.
Qed.

(** A later call finds the pool. *)
Lemma make_event_again pa p ptr w :
  uid_ (svc w) < max_ev_service ->
  size_ pa <> 0 ->
  arr_ pa !! N.to_nat (uid_ (svc w)) = Some (Some p) ->
  make_event max_ev_service None pa ptr w = Done (local_pool p, pa) w.
Proof.
  intros Huid Hsize Hslot.
  unfold make_event, current, pri_current, expects. simpl.
  apply N.eqb_neq in Hsize. rewrite Hsize.
  unfold_prims. apply N.ltb_lt in Huid. by rewrite Huid, Hslot.
Qed.

(** One call, as the slot of the thread tells. *)
Lemma make_event_slot pa ptr w :
  uid_ (svc w) < max_ev_service ->
  length (arr_ pa) = N.to_nat max_ev_service ->
  (pool_slot (uid_ (svc w)) pa = None -> size_ pa + 1 < 2 ^ size_bits) ->
  exists pa',
    length (arr_ pa') = N.to_nat max_ev_service
    /\ match pool_slot (uid_ (svc w)) pa with
       | Some p =>
           make_event max_ev_service None pa ptr w = Done (local_pool p, pa') w
           /\ pa' = pa
       | None =>
           make_event max_ev_service None pa ptr w
           = Done (local_pool ptr, pa') (with_pools [ptr] w)
           /\ pool_slot (uid_ (svc w)) pa' = Some ptr
       end.
Proof.
  intros Huid Hlen Hsize.
  destruct (pool_slot (uid_ (svc w)) pa) as [p|] eqn:Hslot.
  - apply pool_slot_Some in Hslot as [Hs Ha]. exists pa.
    split; [done|]. split; [by apply make_event_again|done].
  - destruct (make_event_first pa ptr w Huid Hlen (Hsize eq_refl))
      as (pa' & Hrun & Hs' & Hl' & Ha'); [apply pool_slot_None; [lia|done]|].
    exists pa'. split; [done|]. split; [done|].
    unfold pool_slot. rewrite Ha'.
    destruct (N.eqb_spec (size_ pa') 0) as [Hz|Hz]; [lia|done].
Qed.

Lemma make_events_eq calls :
  forall (pool_arrays : event_type -> thread_local_pool_array) w,
    uid_ (svc w) < max_ev_service ->
    (forall ety, length (arr_ (pool_arrays ety)) = N.to_nat max_ev_service) ->
    (forall ety, pool_slot (uid_ (svc w)) (pool_arrays ety) = None ->
                 size_ (pool_arrays ety) + 1 < 2 ^ size_bits) ->
    exists pool_arrays',
      make_events max_ev_service pool_arrays calls w
      = Done (map local_pool
                (pools_used (fun ety => pool_slot (uid_ (svc w)) (pool_arrays ety))
                   calls),
              pool_arrays')
          (with_pools
             (pools_registered
                (fun ety => pool_slot (uid_ (svc w)) (pool_arrays ety)) calls) w).
Proof.
  induction calls as [|[ety ptr] calls IH]; intros tls w Huid Hlen Hsize.
  - exists tls. simpl. by rewrite with_pools_nil.
  - destruct (make_event_slot (tls ety) ptr w Huid (Hlen ety) (Hsize ety))
      as (pa' & Hl' & Hcall).
    cbn [make_events pools_used pools_registered].
    destruct (pool_slot (uid_ (svc w)) (tls ety)) as [p|] eqn:Hslot.
    + destruct Hcall as [Hcall ->].
      destruct (IH (with_pool_array ety (tls ety) tls) w Huid) as (tls' & Hrun).
      { intros e. unfold with_pool_array. by destruct (decide (e = ety)). }
      { intros e. unfold with_pool_array.
        destruct (decide (e = ety)) as [->|]; [by rewrite Hslot|apply Hsize]. }
      exists tls'. rewrite (bind_eq _ _ _ _ _ Hcall). cbv beta iota.
      rewrite (bind_eq _ _ _ _ _ Hrun). cbv beta iota.
      assert (Hext : forall e,
                pool_slot (uid_ (svc w)) (with_pool_array ety (tls ety) tls e)
                = pool_slot (uid_ (svc w)) (tls e)).
      { intros e. unfold with_pool_array. by destruct (decide (e = ety)) as [->|]. }
      rewrite (pools_used_ext _ _ calls Hext).
      by rewrite (pools_registered_ext _ _ calls Hext).
    + destruct Hcall as [Hcall Hslot'].
      destruct (IH (with_pool_array ety pa' tls) (with_pools [ptr] w) Huid)
        as (tls' & Hrun).
      { intros e. unfold with_pool_array. by destruct (decide (e = ety)). }
      { intros e. unfold with_pool_array.
        destruct (decide (e = ety)) as [->|]; [|apply Hsize].
        simpl. by rewrite Hslot'. }
      exists tls'. rewrite (bind_eq _ _ _ _ _ Hcall). cbv beta iota.
      rewrite (bind_eq _ _ _ _ _ Hrun). cbv beta iota.
      assert (Hext : forall e,
                pool_slot (uid_ (svc (with_pools [ptr] w)))
                  (with_pool_array ety pa' tls e)
                = with_pool_array ety (Some ptr)
                    (fun e => pool_slot (uid_ (svc w)) (tls e)) e).
      { intros e. unfold with_pool_array.
        by destruct (decide (e = ety)) as [->|]. }
      rewrite (pools_used_ext _ _ calls Hext).
      rewrite (pools_registered_ext _ _ calls Hext).
      by rewrite with_pools_app.
Qed.

(** X12.  A thread that is not a thread of the dispatcher registers one
    pool with it for each type of event it makes, on its first
    [make_event] for that type, and takes every later event of the type
    from that pool.  Whatever calls the thread makes, each call takes
    its event from the pool of its type, [local_pool_queue_] grows by
    the pools of the types used for the first time, in the order of
    their first use, and nothing else changes.  So any number of events
    of one type registers one pool (none, when the thread has a pool for
    the type already), and events of two types register two.  This
    holds for pool arrays that are still unused, whatever their slots
    contain, and for arrays with pools of other dispatchers.  A
    dispatcher whose uid is not below [ASEV_MAX_EV_SERVICE] fails the
    precondition before anything is registered, and on a thread of the
    dispatcher the event comes from the pool of its [thrctx] and
    nothing is registered. *)
Theorem make_event_registers_once
    (pool_arrays : event_type -> thread_local_pool_array)
    (calls : list (event_type * pool_id)) w :
  let reg := fun ety => pool_slot (uid_ (svc w)) (pool_arrays ety) in
  (uid_ (svc w) < max_ev_service ->
   (forall ety, length (arr_ (pool_arrays ety)) = N.to_nat max_ev_service) ->
   (forall ety, reg ety = None -> size_ (pool_arrays ety) + 1 < 2 ^ size_bits) ->
   exists pool_arrays',
     make_events max_ev_service pool_arrays calls w
     = Done (map local_pool (pools_used reg calls), pool_arrays')
         (with_pools (pools_registered reg calls) w))
  /\ (forall ety ptr ptrs,
        reg ety = None ->
        pools_registered reg (map (pair ety) (ptr :: ptrs)) = [ptr]
        /\ pools_used reg (map (pair ety) (ptr :: ptrs))
           = replicate (S (length ptrs)) ptr)
  /\ (forall ety p ptrs,
        reg ety = Some p ->
        pools_registered reg (map (pair ety) ptrs) = []
        /\ pools_used reg (map (pair ety) ptrs) = replicate (length ptrs) p)
  /\ (forall ety1 ety2 ptr1 ptr2,
        ety1 <> ety2 -> reg ety1 = None -> reg ety2 = None ->
        pools_registered reg [(ety1, ptr1); (ety2, ptr2)] = [ptr1; ptr2])
  /\ (forall pa ptr,
        max_ev_service <= uid_ (svc w) ->
        make_event max_ev_service None pa ptr w = Fatal w)
  /\ (forall thrctx pa ptr,
        make_event max_ev_service (Some thrctx) pa ptr w
        = Done (thrctx_pool thrctx, pa) w).
Proof.
  intros reg. split; [|split; [|split; [|split; [|split]]]].
  - intros Huid Hlen Hsize. by apply make_events_eq.
  - intros ety ptr ptrs Hreg. simpl. rewrite Hreg.
    destruct (pools_of_registered_type (with_pool_array ety (Some ptr) reg)
                ety ptr ptrs) as [H1 H2].
    { unfold with_pool_array. by destruct (decide (ety = ety)). }
    by rewrite H1, H2.
  - intros ety p ptrs Hreg. by apply pools_of_registered_type.
  - intros ety1 ety2 ptr1 ptr2 Hne H1 H2. simpl. rewrite H1.
    unfold with_pool_array at 1. destruct (decide (ety2 = ety1)); [done|].
    by rewrite H2.
  - intros pa ptr Huid.
    unfold make_event, current, pri_current, expects. simpl.
    unfold_prims. apply N.ltb_ge in Huid. by rewrite Huid.
  - intros thrctx pa ptr. reflexivity.
Qed.

End PoolRegistry.

Lemma make_event_registers_once_witness :
  let w := fresh_world 1 1 in
  let pool_arrays := fun ety =>
    match ety with
    | post_event => {| size_ := 0; arr_ := [Some 3; None] |}
    | _ => unused_pool_array 2
    end in
  let calls := [(post_event, 7); (post_event, 8); (user_event 1, 9);
                (post_event, 10)] in
  uid_ (svc w) < 2
  /\ (forall ety, length (arr_ (pool_arrays ety)) = N.to_nat 2)
  /\ (forall ety, pool_slot (uid_ (svc w)) (pool_arrays ety) = None ->
                  size_ (pool_arrays ety) + 1 < 2 ^ size_bits)
  /\ exists pool_arrays',
       make_events 2 pool_arrays calls w
       = Done ([local_pool 7; local_pool 7; local_pool 9; local_pool 7],
               pool_arrays')
           (with_pools [7; 9] w).
Proof.
  intros w pool_arrays calls.
  assert (H1 : uid_ (svc w) < 2) by (vm_compute; reflexivity).
  assert (H2 : forall ety, length (arr_ (pool_arrays ety)) = N.to_nat 2)
    by (intros []; reflexivity).
  assert (H3 : forall ety, pool_slot (uid_ (svc w)) (pool_arrays ety) = None ->
                           size_ (pool_arrays ety) + 1 < 2 ^ size_bits)
    by (intros [] _; vm_compute; reflexivity).
  split; [exact H1|]. split; [exact H2|]. split; [exact H3|].
  destruct (make_event_registers_once 2 pool_arrays calls w) as (Hreg & _).
  destruct (Hreg H1 H2 H3) as (pool_arrays' & Hrun).
  exists pool_arrays'. exact Hrun.
Defined.

(** ** Registration of lifecycle handlers *)

Section Lifecycle.
Context {U : Type}.
Variable max_ev_service : N.
Implicit Types w : world (U:=U).

Lemma map_thread_data_id w :
  set_svc (with_thread_data_list (thread_data_list_ (svc w)) (svc w)) w = w.
Proof. by destruct w as [[] ? ? ?]. Qed.

Lemma que_push_lifecycle k (t : nat) ev td w :
  thread_data_list_ (svc w) !! t = Some td ->
  que_push (lifecycle_que k (N.of_nat t)) ev w
  = Done tt (add_trace [a_push (lifecycle_que k (N.of_nat t)) ev]
               (map_thread_data (alter (fun td => register k td ev) t) w)).
Proof.
  intros Htd. unfold que_push, que_get, que_set. unfold_prims.
  destruct k; simpl; rewrite Nat2N.id, Htd; simpl;
    unfold map_thread_data, set_svc; simpl; do 3 f_equal;
    apply list_alter_ext; try done; intros x Hx; congruence.
Qed.

Lemma push_all_effect k evs :
  forall pre post w,
    thread_data_list_ (svc w) = pre ++ post ->
    length post = length evs ->
    push_all (lifecycle_que k) (map N.of_nat (seq (length pre) (length evs))) evs w
    = Done tt
        (add_trace
           (imap (fun t ev => a_push (lifecycle_que k (N.of_nat (length pre + t))) ev) evs)
           (set_svc (with_thread_data_list (pre ++ zip_with (register k) post evs)
                       (svc w)) w)).
Proof.
  induction evs as [|ev evs IH]; intros pre post w Htdl Hlen.
  - destruct post; [|done]. simpl. rewrite <- Htdl, map_thread_data_id, add_trace_nil.
    done.
  - destruct post as [|td post]; [done|]. injection Hlen as Hlen.
    cbn [length seq map push_all].
    assert (Htd : thread_data_list_ (svc w) !! length pre = Some td).
    { rewrite Htdl. by apply list_lookup_middle. }
    rewrite (bind_eq _ _ _ _ _ (que_push_lifecycle k _ ev td w Htd)).
    set (w1 := add_trace _ _).
    assert (Htdl1 : thread_data_list_ (svc w1) = (pre ++ [register k td ev]) ++ post).
    { unfold w1; simpl. rewrite Htdl.
      rewrite <- (Nat.add_0_r (length pre)) at 1. rewrite alter_app_r. simpl.
      by rewrite <- app_assoc. }
    specialize (IH (pre ++ [register k td ev]) post w1 Htdl1 Hlen).
    rewrite length_app in IH. simpl in IH. rewrite Nat.add_1_r in IH.
    rewrite IH. f_equal.
    unfold w1, add_trace, set_svc, map_thread_data, with_thread_data_list; simpl.
    f_equal.
    + f_equal. by rewrite <- app_assoc.
    + rewrite <- app_assoc. f_equal. simpl. rewrite Nat.add_0_r. f_equal.
      apply imap_ext. intros t x _. simpl. do 3 f_equal. lia.
Qed.

(** The pushes on the queues of all threads. *)
Lemma push_all_fanned k evs w :
  length (thread_data_list_ (svc w)) = length evs ->
  push_all (lifecycle_que k) (indices (get_thread_num (svc w))) evs w
  = Done tt (fanned k evs w).
Proof.
  intros Hlen.
  pose proof (push_all_effect k evs [] (thread_data_list_ (svc w)) w eq_refl Hlen)
    as Hrun.
  simpl in Hrun. unfold indices, get_thread_num. by rewrite Nat2N.id, Hlen.
Qed.

Lemma que_push_uid q ev w w1 :
  que_push q ev w = Done tt w1 -> uid_ (svc w1) = uid_ (svc w).
Proof. intros (l & _ & ->)%que_push_Done. by destruct q. Qed.

(** When the calling thread has its pool, the fan-out only pushes. *)
Lemma fan_out_idle mk local_thrctx pa uid thrs :
  (forall ptr w, uid_ (svc w) = uid ->
     exists p, make_event max_ev_service local_thrctx pa ptr w = Done (p, pa) w) ->
  forall news w,
    uid_ (svc w) = uid ->
    fan_out max_ev_service mk local_thrctx pa thrs news w
    = (push_all mk thrs (map snd news);; mret pa) w.
Proof.
  intros Hidle. induction thrs as [|thr thrs IH]; intros [|[ptr ev] news] w Huid;
    try reflexivity.
  cbn [fan_out push_all map snd].
  destruct (Hidle ptr w Huid) as [p Hp].
  rewrite (bind_eq _ _ _ _ _ Hp). cbv beta iota.
  unfold mbind, M_bind.
  destruct (que_push (mk thr) ev w) as [[] w1|w1| |] eqn:Hpush; [|done..].
  rewrite (IH news w1) by (by rewrite (que_push_uid _ _ _ _ Hpush)).
  reflexivity.
Qed.

Lemma pri_lifecycle_eq k local_thrctx pa news w :
  pri_lifecycle max_ev_service k local_thrctx pa news w
  = fan_out max_ev_service (lifecycle_que k) local_thrctx pa
      (indices (get_thread_num (svc w))) news w.
Proof. by destruct k. Qed.

(** X5.  Registering a lifecycle handler with [tstart], [texit] or
    [tsegv] makes one event for every thread and appends it to the
    queue of that kind of the thread, the event made for thread [t] to
    thread [t].  Called on a thread of the dispatcher, or on a thread
    that has its pool for this kind of event, it does nothing else.
    Called on another thread it first registers the pool of that
    thread with the dispatcher: [local_pool_queue_] grows by this one
    pool.  In either case the counters, the stop flags and the other
    queues of the threads, the workers and the workshop are untouched
    and no thread is notified.  When the uid of the dispatcher is not
    below [ASEV_MAX_EV_SERVICE], a call from a thread that is not one
    of its own fails the precondition before anything is pushed. *)
Theorem lifecycle_fan_out (k : lifecycle) (local_thrctx : option N)
    (pa : thread_local_pool_array) (news : list (pool_id * event)) w :
  let uid := uid_ (svc w) in
  let registers :=
    match local_thrctx, pool_slot uid pa, news with
    | None, None, (ptr, _) :: _ => [ptr]
    | _, _, _ => []
    end in
  N.of_nat (length news) = get_thread_num (svc w) ->
  ((local_thrctx = None ->
    uid < max_ev_service
    /\ length (arr_ pa) = N.to_nat max_ev_service
    /\ (pool_slot uid pa = None -> size_ pa + 1 < 2 ^ size_bits)) ->
   exists pa' w',
     pri_lifecycle max_ev_service k local_thrctx pa news w = Done pa' w'
     /\ w' = fanned k (map snd news) (with_pools registers w)
     /\ local_pool_queue_ (svc w') = local_pool_queue_ (svc w) ++ registers
     /\ map cnt_ (thread_data_list_ (svc w')) = map cnt_ (thread_data_list_ (svc w))
     /\ map stop_ (thread_data_list_ (svc w')) = map stop_ (thread_data_list_ (svc w))
     /\ (registers = [] -> pa' = pa)
     /\ (forall ptr, registers = [ptr] -> pool_slot uid pa' = Some ptr))
  /\ (local_thrctx = None -> max_ev_service <= uid -> news <> [] ->
      pri_lifecycle max_ev_service k local_thrctx pa news w = Fatal w).
Proof.
  intros uid registers Hlen.
  assert (Hlen' : length (thread_data_list_ (svc w)) = length (map snd news)).
  { rewrite length_map. unfold get_thread_num in Hlen. lia. }
  assert (Hmaps : forall w0 : world (U:=U),
            thread_data_list_ (svc w0) = thread_data_list_ (svc w) ->
            map cnt_ (thread_data_list_ (svc (fanned k (map snd news) w0)))
            = map cnt_ (thread_data_list_ (svc w))
            /\ map stop_ (thread_data_list_ (svc (fanned k (map snd news) w0)))
               = map stop_ (thread_data_list_ (svc w))).
  { intros w0 Hw0. simpl. rewrite Hw0. split.
    - apply list_eq. intros i. rewrite !list_lookup_fmap, lookup_zip_with.
      destruct (thread_data_list_ (svc w) !! i) as [td|] eqn:Htd; [|done]. simpl.
      destruct (map snd news !! i) as [ev|] eqn:Hev; simpl; [by destruct k|].
      apply lookup_lt_Some in Htd. apply lookup_ge_None in Hev. lia.
    - apply list_eq. intros i. rewrite !list_lookup_fmap, lookup_zip_with.
      destruct (thread_data_list_ (svc w) !! i) as [td|] eqn:Htd; [|done]. simpl.
      destruct (map snd news !! i) as [ev|] eqn:Hev; simpl; [by destruct k|].
      apply lookup_lt_Some in Htd. apply lookup_ge_None in Hev. lia. }
  assert (Hidle : forall pa0,
            (forall ptr w0, uid_ (svc w0) = uid ->
               exists p, make_event max_ev_service local_thrctx pa0 ptr w0
                         = Done (p, pa0) w0) ->
            pri_lifecycle max_ev_service k local_thrctx pa0 news w
            = Done pa0 (fanned k (map snd news) w)).
  { intros pa0 Hpa0. rewrite pri_lifecycle_eq.
    rewrite (fan_out_idle _ _ _ uid _ Hpa0) by done.
    by rewrite (bind_eq _ _ _ _ _ (push_all_fanned k _ w Hlen')). }
  split.
  - intros Hpre. destruct local_thrctx as [t|].
    + exists pa, (fanned k (map snd news) w). subst registers. simpl.
      rewrite with_pools_nil.
      split; [apply Hidle; intros ptr w0 _; by eexists|].
      split; [done|]. split; [by rewrite app_nil_r|].
      destruct (Hmaps w eq_refl). done.
    + destruct (Hpre eq_refl) as (Huid & Hla & Hsize).
      destruct (pool_slot uid pa) as [p|] eqn:Hslot.
      * exists pa, (fanned k (map snd news) w). subst registers. simpl.
        rewrite with_pools_nil.
        apply pool_slot_Some in Hslot as [Hs Ha].
        split.
        { apply Hidle. intros ptr w0 Hw0. exists (local_pool p).
          apply make_event_again; by rewrite ?Hw0. }
        split; [done|]. split; [by rewrite app_nil_r|].
        destruct (Hmaps w eq_refl). done.
      * destruct news as [|[ptr ev] news].
        { exists pa, w. subst registers. simpl in *.
          assert (Htdl : thread_data_list_ (svc w) = [])
            by (by apply nil_length_inv).
          rewrite pri_lifecycle_eq. unfold get_thread_num.
          rewrite Htdl. simpl.
          split; [done|]. rewrite with_pools_nil.
          split.
          { unfold fanned. simpl. rewrite Htdl. simpl.
            rewrite <- Htdl, map_thread_data_id. by rewrite add_trace_nil. }
          split; [by rewrite app_nil_r|]. done. }
        subst registers. cbv beta iota.
        destruct (make_event_first max_ev_service pa ptr w Huid Hla (Hsize eq_refl))
          as (pa' & Hfirst & Hs' & Hl' & Ha');
          [apply pool_slot_None; [fold uid; lia|done]|].
        assert (Hslot' : pool_slot uid pa' = Some ptr).
        { unfold pool_slot. fold uid in Ha'. rewrite Ha'.
          destruct (N.eqb_spec (size_ pa') 0) as [Hz|Hz]; [lia|done]. }
        exists pa', (fanned k (map snd ((ptr, ev) :: news)) (with_pools [ptr] w)).
        split.
        { rewrite pri_lifecycle_eq.
          destruct (indices (get_thread_num (svc w))) as [|thr thrs] eqn:Hthrs.
          { apply (f_equal length) in Hthrs. rewrite length_indices in Hthrs.
            simpl in Hlen, Hthrs. lia. }
          cbn [fan_out]. rewrite (bind_eq _ _ _ _ _ Hfirst). cbv beta iota.
          assert (Hrest : forall w1,
                    uid_ (svc w1) = uid ->
                    fan_out max_ev_service (lifecycle_que k) None pa' thrs news w1
                    = (push_all (lifecycle_que k) thrs (map snd news);; mret pa') w1).
          { intros w1 Hw1. apply (fan_out_idle _ _ _ uid); [|done].
            intros ptr0 w0 Hw0. exists (local_pool ptr).
            apply make_event_again; rewrite ?Hw0; [done|lia|done]. }
          pose proof (push_all_fanned k (map snd ((ptr, ev) :: news))
                        (with_pools [ptr] w)) as Hpush.
          change (get_thread_num (svc (with_pools [ptr] w)))
            with (get_thread_num (svc w)) in Hpush.
          rewrite Hthrs in Hpush. cbn [push_all map snd] in Hpush.
          specialize (Hpush Hlen').
          unfold mbind at 1, M_bind at 1.
          unfold mbind at 1, M_bind at 1 in Hpush.
          destruct (que_push (lifecycle_que k thr) ev (with_pools [ptr] w))
            as [[] w1|w1| |] eqn:Hq; [|done..].
          rewrite Hrest by (by rewrite (que_push_uid _ _ _ _ Hq)).
          by rewrite (bind_eq _ _ _ _ _ Hpush). }
        split; [done|]. split; [done|].
        destruct (Hmaps (with_pools [ptr] w) eq_refl) as [Hc Hst].
        split; [done|]. split; [done|]. split; [done|].
        by intros ptr0 [= <-].
  - intros -> Huid Hne. rewrite pri_lifecycle_eq.
    destruct news as [|[ptr ev] news]; [done|].
    destruct (indices (get_thread_num (svc w))) as [|thr thrs] eqn:Hthrs.
    { apply (f_equal length) in Hthrs. rewrite length_indices in Hthrs.
      simpl in Hlen, Hthrs. lia. }
    cbn [fan_out].
    assert (Hfatal : make_event max_ev_service None pa ptr w = Fatal w).
    { unfold make_event, current, pri_current, expects. simpl.
      unfold_prims. apply N.ltb_ge in Huid. fold uid. by rewrite Huid. }
    unfold mbind at 1, M_bind at 1. by rewrite Hfatal.
Qed.

End Lifecycle.

Lemma lifecycle_fan_out_witness :
  let w := fresh_world 2 2 in
  let news := [(60, 21); (61, 22)] in
  N.of_nat (length news) = get_thread_num (svc w)
  /\ (uid_ (svc w) < 4
      /\ length (arr_ (unused_pool_array 4)) = N.to_nat 4
      /\ (pool_slot (uid_ (svc w)) (unused_pool_array 4) = None ->
          size_ (unused_pool_array 4) + 1 < 2 ^ size_bits))
  /\ exists pa' w',
       pri_lifecycle 4 on_tsegv None (unused_pool_array 4) news w = Done pa' w'
       /\ que_get (tsegv_que 0) (svc w') = Some [21]
       /\ que_get (tsegv_que 1) (svc w') = Some [22]
       /\ local_pool_queue_ (svc w') = [60]
       /\ trace w' = [a_push (tsegv_que 0) 21; a_push (tsegv_que 1) 22].
Proof.
  intros w news.
  assert (Hlen : N.of_nat (length news) = get_thread_num (svc w)) by reflexivity.
  assert (Hpre : uid_ (svc w) < 4
                 /\ length (arr_ (unused_pool_array 4)) = N.to_nat 4
                 /\ (pool_slot (uid_ (svc w)) (unused_pool_array 4) = None ->
                     size_ (unused_pool_array 4) + 1 < 2 ^ size_bits)).
  { split; [vm_compute; reflexivity|]. split; [reflexivity|].
    intros _. vm_compute. reflexivity. }
  split; [exact Hlen|]. split; [exact Hpre|].
  destruct (lifecycle_fan_out 4 on_tsegv None (unused_pool_array 4) news w Hlen)
    as [Hreg _].
  destruct (Hreg (fun _ => Hpre)) as (pa' & w' & Hrun & Hw' & _).
  exists pa', w'. split; [exact Hrun|].
  rewrite Hw'. repeat split; reflexivity.
Defined.

(** ** Cleanup of queues *)

Lemma alter_same {A} (f : A -> A) (i : nat) (l : list A) :
  (forall x, l !! i = Some x -> f x = x) -> alter f i l = l.
Proof.
  intros Hf. apply list_eq. intros j.
  destruct (decide (i = j)) as [<-|Hne].
  - rewrite list_lookup_alter_eq. destruct (l !! i) eqn:Hl; simpl; [|done].
    f_equal. by apply Hf.
  - by rewrite list_lookup_alter_ne.
Qed.

Lemma que_set_same q l s : que_get q s = Some l -> que_set q l s = s.
Proof.
  unfold que_get, que_set. intros Hq.
  destruct q, s as [? ? ? tdl wl ? ? ?]; simpl in *;
    unfold with_worker_list, with_thread_data_list; simpl; f_equal;
    apply alter_same; intros x Hx; rewrite Hx in Hq; simpl in Hq;
    injection Hq as <-; by destruct x.
Qed.

Lemma que_set_set q l1 l2 s : que_set q l1 (que_set q l2 s) = que_set q l1 s.
Proof.
  unfold que_set.
  destruct q; unfold with_worker_list, with_thread_data_list; simpl; f_equal;
    rewrite list_alter_alter_eq; by apply list_alter_ext.
Qed.

Section Cleanup.
Context {U : Type}.
Implicit Types w : world (U:=U).

Lemma pop_unique_loop_eq q l :
  forall fuel w,
    que_get q (svc w) = Some l ->
    (length l < fuel)%nat ->
    pop_unique_loop fuel q w = Done tt (cleaned q l w).
Proof.
  induction l as [|ev l IH]; intros fuel w Hq Hfuel.
  - destruct fuel as [|fuel]; [lia|]. cbn [pop_unique_loop].
    assert (Hpop : que_pop q w = Done None (add_trace [a_pop q None] w)).
    { apply que_pop_Done. by exists []. }
    rewrite (bind_eq _ _ _ _ _ Hpop). unfold mret, M_ret. f_equal.
    unfold cleaned, add_trace, cleanup; simpl.
    by rewrite que_set_same, app_nil_r.
  - destruct fuel as [|fuel]; [simpl in Hfuel; lia|]. cbn [pop_unique_loop].
    set (w0 := add_trace [a_pop q (Some ev)] (set_svc (que_set q l (svc w)) w)).
    assert (Hpop : que_pop q w = Done (Some ev) w0).
    { apply que_pop_Done. by exists (ev :: l). }
    rewrite (bind_eq _ _ _ _ _ Hpop).
    rewrite (bind_eq _ _ _ _ _ (release_eq ev w0)).
    rewrite IH.
    + f_equal. unfold cleaned, cleanup; simpl. rewrite que_set_set.
      f_equal; by rewrite <- !app_assoc.
    + simpl. apply que_get_set_eq. by rewrite Hq.
    + simpl in Hfuel. lia.
Qed.

Lemma pop_unique_all_eq q l w :
  que_get q (svc w) = Some l ->
  pop_unique_all q w = Done tt (cleaned q l w).
Proof.
  intros Hq. unfold pop_unique_all, get_svc, mbind, M_bind. rewrite Hq.
  apply pop_unique_loop_eq; [done|lia].
Qed.

(** X6.  Destroying a worker gives every event still in its queue back
    to its pool, once each and in queue order, without calling any
    handler; afterwards the queue is empty, and no other queue, no
    counter and no workshop slot has changed. *)
Theorem worker_dtor_releases_residual (this : N) (wkr : worker) w :
  worker_list_ (svc w) !! N.to_nat this = Some wkr ->
  exists w',
    worker_dtor this w = Done tt w'
    /\ pool w' = pool w ++ que_ wkr
    /\ trace w' = trace w ++ cleanup (worker_que this) (que_ wkr)
    /\ (forall ev thrctx, a_call ev thrctx ∉ cleanup (worker_que this) (que_ wkr))
    /\ que_get (worker_que this) (svc w') = Some []
    /\ (forall q, q <> worker_que this -> que_get q (svc w') = que_get q (svc w))
    /\ thread_data_list_ (svc w') = thread_data_list_ (svc w)
    /\ workshop_ (svc w') = workshop_ (svc w)
    /\ user w' = user w.
Proof.
  intros Hwk.
  assert (Hq : que_get (worker_que this) (svc w) = Some (que_ wkr)).
  { unfold que_get. by rewrite Hwk. }
  exists (cleaned (worker_que this) (que_ wkr) w).
  split; [by apply pop_unique_all_eq|]. split; [done|]. split; [done|].
  split.
  { intros ev thrctx. unfold cleanup.
    rewrite list_elem_of_In, in_app_iff, in_flat_map.
    intros [(x & _ & Hin)|Hin]; simpl in Hin; intuition discriminate. }
  split; [simpl; apply que_get_set_eq; by rewrite Hq|].
  split; [intros q Hne; simpl; by apply que_get_set_ne|]. done.
Qed.

End Cleanup.

Lemma worker_dtor_releases_residual_witness :
  let w := world_with_que (ev_service_ctor 0 1 None 2) (worker_que 1) [4; 5] in
  worker_list_ (svc w) !! N.to_nat 1 = Some {| index_ := 1; que_ := [4; 5] |}
  /\ exists w',
       worker_dtor 1 w = Done tt w'
       /\ pool w' = [4; 5]
       /\ que_get (worker_que 1) (svc w') = Some [].
Proof.
  intros w.
  assert (Hwk : worker_list_ (svc w) !! N.to_nat 1
                = Some {| index_ := 1; que_ := [4; 5] |}) by reflexivity.
  split; [exact Hwk|].
  destruct (worker_dtor_releases_residual 1 _ w Hwk)
    as (w' & Hrun & Hp & _ & _ & Hq & _).
  exists w'. split; [exact Hrun|]. split; [exact Hp | exact Hq].
Defined.

(** ** Destruction of the dispatcher *)

Section PositionLoop.
Context {U A : Type}.
Implicit Types w : world (U:=U).

(** A loop over the positions of one of the dispatcher's lists, whose
    body updates the entry at its position by [f], releases the events
    [rel] of the old entry, adds the actions [acts], and keeps [R]. *)
Variable get : world (U:=U) -> list A.
Variable f : A -> A.
Variable rel : A -> list event.
Variable acts : nat -> A -> list action.
Variable R : world (U:=U) -> world (U:=U) -> Prop.
Variable body : N -> M (U:=U) unit.

Hypothesis R_refl : forall w, R w w.
Hypothesis R_trans : forall w1 w2 w3, R w1 w2 -> R w2 w3 -> R w1 w3.
Hypothesis body_effect :
  forall i a w, get w !! i = Some a ->
    exists w1, body (N.of_nat i) w = Done tt w1
               /\ get w1 = alter f i (get w)
               /\ pool w1 = pool w ++ rel a
               /\ trace w1 = trace w ++ acts i a
               /\ R w w1.

Lemma for_each_positions_from post :
  forall pre w,
    get w = pre ++ post ->
    exists w',
      for_each (map N.of_nat (seq (length pre) (length post))) body w = Done tt w'
      /\ get w' = pre ++ map f post
      /\ pool w' = pool w ++ flat_map rel post
      /\ trace w' = trace w ++ concat (imap (fun i => acts (length pre + i)) post)
      /\ R w w'.
Proof.
  induction post as [|a post IH]; intros pre w Hget.
  - exists w. simpl. rewrite !app_nil_r in *. repeat split; [done|apply R_refl].
  - assert (Ha : get w !! length pre = Some a).
    { rewrite Hget. by apply list_lookup_middle. }
    destruct (body_effect _ _ _ Ha) as (w1 & H1 & Hg1 & Hp1 & Ht1 & HR1).
    destruct (IH (pre ++ [f a]) w1) as (w' & H2 & Hg2 & Hp2 & Ht2 & HR2).
    { rewrite Hg1, Hget. rewrite <- (Nat.add_0_r (length pre)) at 1.
      rewrite alter_app_r. simpl. by rewrite <- app_assoc. }
    rewrite length_app in H2, Ht2. simpl in H2, Ht2. rewrite Nat.add_1_r in H2.
    exists w'. cbn [length seq map for_each].
    split; [by rewrite (bind_eq _ _ _ _ _ H1)|].
    split; [rewrite Hg2; simpl; by rewrite <- app_assoc|].
    split; [rewrite Hp2, Hp1; simpl; by rewrite <- app_assoc|].
    split; [|by eapply R_trans].
    rewrite Ht2, Ht1, <- app_assoc. f_equal. simpl. rewrite Nat.add_0_r. f_equal.
    f_equal. apply imap_ext. intros i x _. simpl. f_equal. lia.
Qed.

Lemma for_each_positions w :
  exists w',
    for_each (indices (N.of_nat (length (get w)))) body w = Done tt w'
    /\ get w' = map f (get w)
    /\ pool w' = pool w ++ flat_map rel (get w)
    /\ trace w' = trace w ++ concat (imap acts (get w))
    /\ R w w'.
Proof.
  destruct (for_each_positions_from (get w) [] w eq_refl) as (w' & H & ?).
  exists w'. unfold indices. rewrite Nat2N.id. by split.
Qed.

End PositionLoop.

Section Destructor.
Context {U : Type}.
Implicit Types w : world (U:=U).

Lemma cleanup_thread_effect (i : nat) (td : thread_data) w :
  thread_data_list_ (svc w) !! i = Some td ->
  exists w1,
    (pop_unique_all (tstart_que (N.of_nat i));;
     pop_unique_all (texit_que (N.of_nat i))) w = Done tt w1
    /\ thread_data_list_ (svc w1) = alter clear_lifecycle i (thread_data_list_ (svc w))
    /\ pool w1 = pool w ++ (tstart_que_ td ++ texit_que_ td)
    /\ trace w1 = trace w ++ cleanup_thread i td
    /\ same_but_threads w w1.
Proof.
  intros Htd.
  assert (Hq1 : que_get (tstart_que (N.of_nat i)) (svc w) = Some (tstart_que_ td)).
  { unfold que_get. by rewrite Nat2N.id, Htd. }
  pose proof (pop_unique_all_eq _ _ _ Hq1) as H1.
  set (w0 := cleaned _ _ _) in H1.
  assert (Hq2 : que_get (texit_que (N.of_nat i)) (svc w0) = Some (texit_que_ td)).
  { unfold w0; simpl. rewrite que_get_set_ne by done.
    unfold que_get. by rewrite Nat2N.id, Htd. }
  pose proof (pop_unique_all_eq _ _ _ Hq2) as H2.
  eexists. split; [by rewrite (bind_eq _ _ _ _ _ H1)|].
  unfold cleaned, w0, cleanup_thread, que_set; simpl. rewrite Nat2N.id.
  split.
  { rewrite list_alter_alter_eq. apply list_alter_ext; [|done].
    intros x Hx. by destruct x. }
  split; [by rewrite <- app_assoc|]. split; [by rewrite <- app_assoc|]. done.
Qed.

Lemma cleanup_worker_effect (i : nat) (wkr : worker) w :
  worker_list_ (svc w) !! i = Some wkr ->
  exists w1,
    worker_dtor (N.of_nat i) w = Done tt w1
    /\ worker_list_ (svc w1) = alter (with_que []) i (worker_list_ (svc w))
    /\ pool w1 = pool w ++ que_ wkr
    /\ trace w1 = trace w ++ cleanup_worker i wkr
    /\ same_but_workers w w1.
Proof.
  intros Hwk.
  assert (Hq : que_get (worker_que (N.of_nat i)) (svc w) = Some (que_ wkr)).
  { unfold que_get. by rewrite Nat2N.id, Hwk. }
  eexists. split; [by apply pop_unique_all_eq|].
  unfold cleaned, cleanup_worker, que_set; simpl. by rewrite Nat2N.id.
Qed.

(** X7.  The destructor of the dispatcher always runs to its end.  It
    gives the tstart and texit events of every thread and then the
    queued events of every worker back to their pools, in that order
    and without calling a handler, empties the workshop and the worker
    list, and deletes the registered pools last, after every release. *)
Theorem dtor_releases_then_deletes_pools w :
  let tdl := thread_data_list_ (svc w) in
  let wl := worker_list_ (svc w) in
  exists w',
    ev_service_dtor w = Done tt w'
    /\ pool w' = pool w
                 ++ flat_map (fun td => tstart_que_ td ++ texit_que_ td) tdl
                 ++ flat_map que_ wl
    /\ trace w' = trace w
                  ++ concat (imap cleanup_thread tdl)
                  ++ concat (imap cleanup_worker wl)
                  ++ map a_delete_pool (local_pool_queue_ (svc w))
    /\ thread_data_list_ (svc w') = map clear_lifecycle tdl
    /\ worker_list_ (svc w') = []
    /\ workshop_ (svc w') = []
    /\ local_pool_queue_ (svc w') = []
    /\ user w' = user w.
Proof.
  intros tdl wl.
  destruct (for_each_positions (fun w => thread_data_list_ (svc w))
              clear_lifecycle (fun td => tstart_que_ td ++ texit_que_ td)
              cleanup_thread same_but_threads
              (fun thr => pop_unique_all (tstart_que thr);;
                          pop_unique_all (texit_que thr))
              ltac:(done) ltac:(unfold same_but_threads; intuition congruence)
              cleanup_thread_effect w)
    as (w1 & H1 & Hg1 & Hp1 & Ht1 & Hwl1 & Hws1 & Hlp1 & Hu1).
  set (w2 := set_svc (with_workshop [] (svc w1)) w1).
  destruct (for_each_positions (fun w => worker_list_ (svc w))
              (with_que []) que_ cleanup_worker same_but_workers worker_dtor
              ltac:(done) ltac:(unfold same_but_workers; intuition congruence)
              cleanup_worker_effect w2)
    as (w3 & H3 & Hg3 & Hp3 & Ht3 & Htd3 & Hws3 & Hlp3 & Hu3).
  eexists. split.
  { unfold ev_service_dtor, get_svc. unfold mbind at 1, M_bind at 1.
    change (get_thread_num (svc w)) with (N.of_nat (length (thread_data_list_ (svc w)))).
    rewrite (bind_eq _ _ _ _ _ H1).
    unfold put_svc. unfold mbind at 1 2, M_bind at 1 2. fold w2.
    change (get_worker_num (svc w1)) with (N.of_nat (length (worker_list_ (svc w2)))).
    rewrite (bind_eq _ _ _ _ _ H3).
    unfold mbind at 1 2, M_bind at 1 2. reflexivity. }
  simpl in *. fold tdl wl.
  split; [rewrite Hp3, Hp1, Hwl1; by rewrite <- app_assoc|].
  split; [rewrite Ht3, Ht1, Hwl1, Hlp3, Hlp1; by rewrite <- !app_assoc|].
  split; [by rewrite Htd3|]. split; [done|]. split; [done|]. split; [done|].
  congruence.
Qed.

End Destructor.

(** ** Waiting for work *)

Lemma long_wrap_in_long (z : Z) : in_long z -> long_wrap z = z.
Proof.
  unfold in_long, long_wrap. intros Hz. rewrite Z.mod_small; lia.
Qed.

Section Waiting.
Context {U : Type}.
Implicit Types w : world (U:=U).

Lemma cnt_reset_eq tidx td w :
  thread_data_list_ (svc w) !! N.to_nat tidx = Some td ->
  cnt_reset tidx w = Done (cnt_ td) (reset_world tidx w).
Proof. intros Htd. unfold cnt_reset. unfold_prims. by rewrite Htd. Qed.

Lemma is_stop_eq tidx td w :
  thread_data_list_ (svc w) !! N.to_nat tidx = Some td ->
  is_stop tidx w = Done (stop_ td) w.
Proof. intros Htd. unfold is_stop. unfold_prims. by rewrite Htd. Qed.

Lemma reset_world_idle tidx td w :
  thread_data_list_ (svc w) !! N.to_nat tidx = Some td ->
  cnt_ td = 0 ->
  reset_world tidx w = w.
Proof.
  intros Htd Hc. unfold reset_world, map_thread_data.
  rewrite alter_same; [apply map_thread_data_id|].
  intros x Hx. assert (x = td) as -> by congruence.
  destruct td; simpl in *; by subst.
Qed.

Lemma reset_world_lookup tidx td w :
  thread_data_list_ (svc w) !! N.to_nat tidx = Some td ->
  thread_data_list_ (svc (reset_world tidx w)) !! N.to_nat tidx
  = Some (with_cnt (fun _ => 0) td).
Proof. intros Htd. simpl. by rewrite list_lookup_alter_eq, Htd. Qed.

(** Polling a counter that reads 0. *)
Lemma poll_idle rounds moderate tidx e td w :
  thread_data_list_ (svc w) !! N.to_nat tidx = Some td ->
  cnt_ td = 0 -> in_long e -> (e <= 0)%Z ->
  poll rounds moderate tidx e w
  = Done (moderate && stop_ td && negb (Nat.eqb rounds 0), e) w.
Proof.
  intros Htd Hc He Hle. induction rounds as [|r IH].
  - simpl. by rewrite andb_false_r.
  - cbn [poll]. rewrite (bind_eq _ _ _ _ _ (cnt_reset_eq _ _ _ Htd)).
    rewrite (reset_world_idle _ _ _ Htd Hc), Hc. simpl Z.of_N.
    rewrite Z.add_0_r, (long_wrap_in_long e He).
    destruct moderate.
    + rewrite (bind_eq _ _ _ _ _ (is_stop_eq _ _ _ Htd)).
      destruct (Z.ltb_spec 0 e); [lia|]. simpl.
      destruct (stop_ td); simpl; [done|]. rewrite IH. simpl. done.
    + unfold mbind at 1, M_bind at 1, mret at 1, M_ret at 1.
      destruct (Z.ltb_spec 0 e); [lia|]. simpl. rewrite IH. done.
Qed.

(** The first round of the aggressive tier moves the counter into
    [expected_pworks]; the later rounds find it at 0. *)
Lemma poll_first rounds tidx e td w :
  thread_data_list_ (svc w) !! N.to_nat tidx = Some td ->
  in_long e -> in_long (e + Z.of_N (cnt_ td)) ->
  poll (S rounds) false tidx e w
  = Done ((0 <? e + Z.of_N (cnt_ td))%Z, (e + Z.of_N (cnt_ td))%Z)
      (reset_world tidx w).
Proof.
  intros Htd He Hsum. cbn [poll].
  rewrite (bind_eq _ _ _ _ _ (cnt_reset_eq _ _ _ Htd)).
  rewrite (long_wrap_in_long _ Hsum).
  unfold mbind at 1, M_bind at 1, mret at 1, M_ret at 1.
  rewrite orb_false_r.
  destruct (Z.ltb_spec 0 (e + Z.of_N (cnt_ td))); [done|].
  rewrite (poll_idle rounds false tidx _ _ _ (reset_world_lookup _ _ _ Htd));
    done.
Qed.

(** X8.  The wait in front of the sweeps.  With a positive
    [expected_pworks] it returns at once and leaves the counter alone.
    Otherwise its first reset moves the whole counter into
    [expected_pworks], and it returns the sum when that is positive or,
    failing that, when the stop flag is set; nothing but the counter
    has changed.  When the sum is not positive and stop is not set it
    has not returned: it sits in [synchronized_reset] on a counter that
    reads 0. *)
Theorem wait_for_work_cases (tidx : N) (e : Z) (td : thread_data) w :
  thread_data_list_ (svc w) !! N.to_nat tidx = Some td ->
  in_long e -> in_long (e + Z.of_N (cnt_ td)) ->
  let sum := (e + Z.of_N (cnt_ td))%Z in
  wait_for_work tidx e w
  = if (0 <? e)%Z then Done e w
    else if (0 <? sum)%Z || stop_ td then Done sum (reset_world tidx w)
    else OutOfFuel.
Proof.
  intros Htd He Hsum sum. unfold wait_for_work.
  destruct (Z.ltb_spec 0 e) as [Hpos|Hle]; [done|].
  change 100%nat with (S 99).
  rewrite (bind_eq _ _ _ _ _ (poll_first 99 tidx e td w Htd He Hsum)).
  fold sum. destruct (Z.ltb_spec 0 sum) as [Hs|Hs]; [done|].
  cbv beta iota.
  pose proof (reset_world_lookup _ _ _ Htd) as Htd0.
  rewrite (bind_eq _ _ _ _ _
             (poll_idle 500 true tidx sum _ _ Htd0 eq_refl Hsum Hs)).
  simpl. destruct (stop_ td); simpl; [done|].
  unfold synchronized_reset. unfold mbind at 1, M_bind at 1.
  rewrite (bind_eq _ _ _ _ _ (cnt_reset_eq _ _ _ Htd0)). reflexivity.
Qed.

End Waiting.

Lemma wait_for_work_cases_witness :
  let w := fresh_world 1 1 in
  let td := new_thread_data 0 in
  thread_data_list_ (svc w) !! N.to_nat 0 = Some td
  /\ in_long (-3) /\ in_long (-3 + Z.of_N (cnt_ td))
  /\ wait_for_work 0 (-3) w = OutOfFuel
  /\ wait_for_work 0 5 w = Done 5%Z w.
Proof.
  intros w td.
  assert (Htd : thread_data_list_ (svc w) !! N.to_nat 0 = Some td) by reflexivity.
  assert (H1 : in_long (-3)) by (unfold in_long; lia).
  assert (H2 : in_long (-3 + Z.of_N (cnt_ td))) by (unfold in_long; simpl; lia).
  assert (H3 : in_long 5) by (unfold in_long; lia).
  assert (H4 : in_long (5 + Z.of_N (cnt_ td))) by (unfold in_long; simpl; lia).
  split; [exact Htd|]. split; [exact H1|]. split; [exact H2|]. split.
  - exact (wait_for_work_cases 0 (-3) td w Htd H1 H2).
  - exact (wait_for_work_cases 0 5 td w Htd H3 H4).
Defined.

(** ** Crash recovery *)

Lemma not_log_error_in_drained q thrctx hs tidx :
  a_log_error tidx ∉ drained q thrctx hs.
Proof.
  unfold drained. rewrite list_elem_of_In, in_app_iff, in_flat_map.
  intros [((ev' & b) & _ & Hin)|Hin].
  - unfold dispatched in Hin. destruct b; simpl in Hin;
      intuition discriminate.
  - simpl in Hin. intuition discriminate.
Qed.

Section Recovery.
Context {U : Type}.
Variable handle : event -> thrctx_t -> U -> U * list submission * handle_result.
Implicit Types w : world (U:=U).

(** X9.  The recovery callback of [run] logs the stack trace exactly
    when it counted no tsegv handler.  Whenever it returns, the log
    entry is its last action if and only if its count is 0, and the
    count is the number of handlers it ran as long as that number fits
    the [int] of the source.  On an empty tsegv queue it runs no
    handler, logs and returns 0.  With a registered handler (a non-empty
    queue, handlers that neither submit nor throw) it runs every handler
    and logs nothing. *)
Theorem run_tsegv_logs_iff_no_handler (tidx : N) (thrctx : thrctx_t) w :
  (forall fuel n w',
     run_tsegv handle fuel tidx thrctx w = Done n w' ->
     exists (hs : list (event * bool)) (tr : list action),
       trace w' = trace w ++ tr
       /\ (N.of_nat (length hs) < 2 ^ 31 -> n = N.of_nat (length hs))
       /\ dispatch_view tr
          = drained (tsegv_que tidx) thrctx hs
            ++ (if n =? 0 then [a_log_error tidx] else []))
  /\ (que_get (tsegv_que tidx) (svc w) = Some [] ->
      forall fuel,
        run_tsegv handle (S fuel) tidx thrctx w
        = Done 0 (add_trace [a_pop (tsegv_que tidx) None; a_log_error tidx] w))
  /\ (quiet handle ->
      forall l, l <> [] -> N.of_nat (length l) < 2 ^ 31 ->
      que_get (tsegv_que tidx) (svc w) = Some l ->
      exists w' tr,
        run_tsegv handle (S (length l)) tidx thrctx w
        = Done (N.of_nat (length l)) w'
        /\ trace w' = trace w ++ tr
        /\ a_log_error tidx ∉ tr).
Proof.
  assert (Hint : (2 ^ 31 < 2 ^ size_bits)%N) by (vm_compute; reflexivity).
  split; [|split].
  - intros fuel n w' H. unfold run_tsegv in H.
    apply bind_Done in H as (count & w1 & Hd & H).
    apply drain_Done in Hd as (hs & Hc & _ & _ & _ & _ & (tr & Htr & Hv) & _).
    rewrite count_after_zero in Hc.
    apply bind_Done in H as ([] & w2 & Hlog & H).
    apply ret_Done in H as [<- <-].
    assert (Hn : N.of_nat (length hs) < 2 ^ 31 -> count = N.of_nat (length hs)).
    { intros Hs. rewrite Hc. apply size_wrap_small. lia. }
    exists hs. destruct (count =? 0).
    + injection Hlog as <-. exists (tr ++ [a_log_error tidx]). simpl.
      split; [by rewrite Htr, app_assoc|]. split; [done|].
      by rewrite dispatch_view_app, Hv.
    + injection Hlog as <-. exists tr. split; [done|]. split; [done|].
      by rewrite app_nil_r.
  - intros Hq fuel. unfold run_tsegv. cbn [drain].
    assert (Hpop : que_pop (tsegv_que tidx) w
                   = Done None (add_trace [a_pop (tsegv_que tidx) None] w)).
    { apply que_pop_Done. by exists []. }
    unfold mbind at 1, M_bind at 1. rewrite (bind_eq _ _ _ _ _ Hpop).
    unfold_prims. by rewrite <- app_assoc.
  - intros Hquiet l Hne Hlen Hq.
    destruct (drain_quiet handle (tsegv_que tidx) thrctx Hquiet l 0 w Hq)
      as (w1 & Hd).
    rewrite count_after_zero, size_wrap_small in Hd by lia.
    pose proof (drain_Done _ _ _ _ _ _ _ _ Hd)
      as (hs & _ & _ & _ & _ & _ & (tr & Htr & Hv) & _).
    exists w1, tr. split.
    + unfold run_tsegv. rewrite (bind_eq _ _ _ _ _ Hd).
      destruct (N.eqb_spec (N.of_nat (length l)) 0) as [H0|H0].
      * destruct l; [done|simpl in H0; lia].
      * reflexivity.
    + split; [done|]. intros Hin.
      apply (not_log_error_in_drained (tsegv_que tidx) thrctx hs tidx).
      rewrite <- Hv. by apply elem_of_dispatch_view.
Qed.

End Recovery.

Lemma run_tsegv_logs_iff_no_handler_witness :
  let thrctx := mk_thrctx 0 None in
  let w0 := fresh_world 1 1 in
  let w1 := world_with_que (ev_service_ctor 0 1 None 1) (tsegv_que 0) [4] in
  que_get (tsegv_que 0) (svc w0) = Some []
  /\ quiet even_auto
  /\ que_get (tsegv_que 0) (svc w1) = Some [4]
  /\ run_tsegv even_auto 1 0 thrctx w0
     = Done 0 (add_trace [a_pop (tsegv_que 0) None; a_log_error 0] w0)
  /\ exists w', run_tsegv even_auto 2 0 thrctx w1 = Done 1 w'
                /\ pool w' = [4].
Proof.
  intros thrctx w0 w1.
  assert (H0 : que_get (tsegv_que 0) (svc w0) = Some []) by reflexivity.
  assert (Hquiet : quiet even_auto).
  { intros ev thr u. by exists u, (N.even ev). }
  assert (H1 : que_get (tsegv_que 0) (svc w1) = Some [4]) by reflexivity.
  split; [exact H0|]. split; [exact Hquiet|]. split; [exact H1|].
  destruct (run_tsegv_logs_iff_no_handler even_auto 0 thrctx w0) as (_ & Hempty & _).
  destruct (run_tsegv_logs_iff_no_handler even_auto 0 thrctx w1) as (_ & _ & Hsome).
  split; [exact (Hempty H0 0%nat)|].
  destruct (Hsome Hquiet [4]) as (w' & tr & Hrun & _); [done|vm_compute; reflexivity|exact H1|].
  exists w'. split; [exact Hrun|].
  vm_compute in Hrun. injection Hrun as <-. reflexivity.
Defined.

(** ** What submissions leave alone *)



Lemma kept_refl s : kept s s.
Proof. done. Qed.





Section Kept.
Context {U : Type}.
Variable handle : event -> thrctx_t -> U -> U * list submission * handle_result.
Implicit Types w : world (U:=U).










End Kept.

(** ** A thread that finds its stop flag set *)

Section StoppedRun.
Context {U : Type}.
Variable handle : event -> thrctx_t -> U -> U * list submission * handle_result.
Implicit Types w : world (U:=U).


Variable fetch_sworks : N -> U -> Z * U.

Lemma dispatch_event_quiet_eq ev thrctx w u' b :
  handle ev thrctx (user w) = (u', [], Returned b) ->
  dispatch_event handle ev thrctx w
  = Done tt {| svc := svc w; pool := pool w ++ released [(ev, b)]; user := u';
               trace := trace w
                        ++ tail (dispatched (worker_que 0) thrctx (ev, b)) |}.
Proof.
  intros Hh. unfold dispatch_event, call_handle, mbind at 1, M_bind at 1.
  rewrite Hh. unfold release. unfold_prims.
  destruct b; unfold released; simpl; by rewrite <- ?app_assoc, ?app_nil_r.
Qed.

(** With quiet handlers a dispatch loop that has rounds enough handles
    the queued events and nothing else. *)
Lemma drain_quiet_eq q thrctx :
  quiet handle ->
  forall l fuel n w,
    que_get q (svc w) = Some l -> (length l < fuel)%nat ->
    exists (hs : list (event * bool)) w',
      map fst hs = l
      /\ drain handle fuel q thrctx n w = Done (count_after n (length l)) w'
      /\ svc w' = que_set q [] (svc w)
      /\ pool w' = pool w ++ released hs
      /\ trace w' = trace w ++ drained q thrctx hs.
Proof.
  intros Hquiet l. induction l as [|ev l IH]; intros fuel n w Hl Hfuel;
    (destruct fuel as [|fuel]; [simpl in Hfuel; lia|]).
  - assert (Hpop : que_pop q w = Done None (add_trace [a_pop q None] w)).
    { apply que_pop_Done. by exists []. }
    exists [], (add_trace [a_pop q None] w). cbn [drain].
    rewrite (bind_eq _ _ _ _ _ Hpop). simpl.
    split; [done|]. split; [done|].
    split; [by rewrite (que_set_same _ _ _ Hl)|].
    split; [by rewrite app_nil_r|done].
  - set (w0 := add_trace [a_pop q (Some ev)] (set_svc (que_set q l (svc w)) w)).
    assert (Hpop : que_pop q w = Done (Some ev) w0).
    { apply que_pop_Done. by exists (ev :: l). }
    destruct (Hquiet ev thrctx (user w0)) as (u' & b & Hh).
    pose proof (dispatch_event_quiet_eq ev thrctx w0 u' b Hh) as Hd.
    set (w1 := {| svc := svc w0; pool := pool w0 ++ released [(ev, b)];
                  user := u';
                  trace := trace w0
                           ++ tail (dispatched (worker_que 0) thrctx (ev, b)) |})
      in Hd.
    assert (Hl1 : que_get q (svc w1) = Some l).
    { simpl. apply que_get_set_eq. by rewrite Hl. }
    destruct (IH fuel (size_wrap (n + 1)) w1 Hl1 ltac:(simpl in Hfuel; lia))
      as (hs & w' & Hhs & Hrun & Hs & Hp & Htr).
    exists ((ev, b) :: hs), w'. cbn [drain length].
    rewrite (bind_eq _ _ _ _ _ Hpop), (bind_eq _ _ _ _ _ Hd).
    split; [simpl; by rewrite Hhs|].
    split; [by rewrite <- count_after_succ|].
    split; [rewrite Hs; simpl; apply que_set_set|].
    split; [rewrite Hp, (released_cons _ hs); simpl; by rewrite app_assoc|].
    rewrite Htr. unfold drained; simpl. by rewrite <- !app_assoc.
Qed.





End StoppedRun.


(** ** Sweeps over idle workers *)

Lemma que_set_with_workshop q l ws s :
  que_set q l (with_workshop ws s) = with_workshop ws (que_set q l s).
Proof. by destruct q. Qed.

Lemma que_get_with_workshop q ws s :
  que_get q (with_workshop ws s) = que_get q s.
Proof. by destruct q. Qed.

Lemma with_workshop_same s : with_workshop (workshop_ s) s = s.
Proof. by destruct s. Qed.

Lemma size_wrap_add_r (a b : N) : size_wrap (a + size_wrap b) = size_wrap (a + b).
Proof. unfold size_wrap. by rewrite N.Div0.add_mod_idemp_r. Qed.

Lemma size_wrap_add_l (a b : N) : size_wrap (size_wrap a + b) = size_wrap (a + b).
Proof. unfold size_wrap. by rewrite N.Div0.add_mod_idemp_l. Qed.

Lemma set_worker_None thrctx :
  thr_worker thrctx = None -> set_worker None thrctx = thrctx.
Proof. destruct thrctx; simpl. by intros ->. Qed.

Lemma Forall2_impl_in {A B} (P Q : A -> B -> Prop) l k :
  Forall2 P l k -> (forall x y, x ∈ l -> P x y -> Q x y) -> Forall2 Q l k.
Proof.
  induction 1 as [|x y l k Hxy _ IH]; intros HPQ; constructor.
  - apply HPQ; [left|done].
  - apply IH. intros x' y' Hin. apply HPQ. by right.
Qed.

Section Sweeps.
Context {U : Type}.
Variable handle : event -> thrctx_t -> U -> U * list submission * handle_result.
Variable fetch_sworks : N -> U -> Z * U.
Hypothesis Hquiet : quiet handle.
Implicit Types w : world (U:=U).

(** [do_work] on a worker that is not held: its queued events are
    handled, the slot holds the worker again. *)
Lemma do_work_quiet_eq fuel n thrctx wlv l w :
  workshop_ (svc w) !! N.to_nat n = Some (Some n) ->
  que_get (worker_que n) (svc w) = Some l ->
  (length l < fuel)%nat ->
  exists (hs : list (event * bool)) w',
    map fst hs = l
    /\ do_work handle fuel n thrctx wlv w
       = Done (size_wrap (N.of_nat (length l)), set_worker None thrctx) w'
    /\ svc w' = que_set (worker_que n) [] (svc w)
    /\ pool w' = pool w ++ released hs
    /\ trace w' = trace w ++ worked thrctx n hs.
Proof.
  intros Hslot Hl Hfuel. rewrite (do_work_claimed _ _ _ _ _ _ _ Hslot).
  unfold work.
  destruct (drain_quiet_eq handle (worker_que n) (set_worker (Some n) thrctx)
              Hquiet l fuel 0 (claimed n n thrctx w))
    as (hs & w2 & Hhs & Hrun & Hs & Hp & Htr); [|done|].
  { unfold claimed; simpl. by rewrite que_get_with_workshop. }
  rewrite Hrun. exists hs, (restored n n thrctx w2).
  split; [done|]. split.
  { rewrite count_after_zero. unfold size_wrap. by rewrite N.Div0.mod_mod. }
  split.
  { unfold restored; simpl. rewrite Hs. unfold claimed; simpl.
    rewrite que_set_with_workshop; simpl.
    rewrite list_insert_insert_eq, list_insert_id by done.
    rewrite <- (que_set_workshop (worker_que n) [] (svc w)) at 1.
    change (with_workshop ?a (with_workshop ?b ?s)) with (with_workshop a s).
    apply with_workshop_same. }
  split; [unfold restored; simpl; by rewrite Hp|].
  unfold restored, worked; simpl. rewrite Htr. unfold claimed; simpl.
  by rewrite <- !app_assoc.
Qed.

Lemma prior_sweep_cons fuel n ns thrctx p e w works thrctx1 w1 wk :
  do_work handle fuel n thrctx prior w = Done (works, thrctx1) w1 ->
  worker_list_ (svc w1) !! N.to_nat n = Some wk ->
  prior_sweep handle fetch_sworks fuel (n :: ns) thrctx p e w
  = prior_sweep handle fetch_sworks fuel ns thrctx1 (size_wrap (p + works))
      (long_wrap (long_wrap (e - Z.of_N (size_wrap (p + works)))
                  - (fetch_sworks n (user w1)).1))
      (set_user (fetch_sworks n (user w1)).2 w1).
Proof.
  intros Hdo Hwk. cbn [prior_sweep]. rewrite (bind_eq _ _ _ _ _ Hdo).
  cbv beta iota zeta. unfold get_svc, at_index, call_fetch_sworks.
  unfold mbind, M_bind. rewrite Hwk. unfold mret, M_ret.
  by destruct (fetch_sworks n (user w1)).
Qed.

(** The state a sweep needs at the workers it is still to visit is not
    touched by its visit of another worker. *)
Lemma sweep_step n ns ls (s s1 : ev_service) :
  n ∉ ns ->
  workshop_ s1 = workshop_ s ->
  (forall q, q <> worker_que n -> que_get q s1 = que_get q s) ->
  Forall2 (fun n l => que_get (worker_que n) s = Some l) ns ls ->
  (forall n, n ∈ ns -> workshop_ s !! N.to_nat n = Some (Some n)) ->
  Forall2 (fun n l => que_get (worker_que n) s1 = Some l) ns ls
  /\ (forall n, n ∈ ns -> workshop_ s1 !! N.to_nat n = Some (Some n)).
Proof.
  intros Hn Hws Hq H2 Hslots. split.
  - eapply Forall2_impl_in; [exact H2|]. intros x y Hx Hxy. simpl.
    rewrite Hq; [done|]. intros [= ->]. done.
  - intros x Hx. rewrite Hws. by apply Hslots.
Qed.


Lemma prior_sweep_quiet fuel thrctx :
  thr_worker thrctx = None ->
  forall ns ls p e w,
    p < 2 ^ size_bits ->
    NoDup ns ->
    Forall2 (fun n l => que_get (worker_que n) (svc w) = Some l) ns ls ->
    (forall n, n ∈ ns -> workshop_ (svc w) !! N.to_nat n = Some (Some n)) ->
    Forall (fun l => (length l < fuel)%nat) ls ->
    exists (hss : list (list (event * bool))) e' w',
      map (map fst) hss = ls
      /\ prior_sweep handle fetch_sworks fuel ns thrctx p e w
         = Done (size_wrap (p + N.of_nat (length (concat ls))), e', thrctx) w'
      /\ svc w' = emptied ns (svc w)
      /\ pool w' = pool w ++ concat (map released hss)
      /\ trace w' = trace w ++ concat (zip_with (worked thrctx) ns hss).
Proof.
  intros Hnull ns. induction ns as [|n ns IH]; intros ls p e w Hp Hnd H2 Hslots Hf.
  - apply Forall2_nil_inv_l in H2 as ->. exists [], e, w. simpl.
    rewrite !app_nil_r, N.add_0_r, size_wrap_small by done. done.
  - apply Forall2_cons_inv_l in H2 as (l & ls' & Hl & H2 & ->).
    apply Forall_cons_1 in Hf as [Hfl Hf].
    pose proof (NoDup_cons_1_1 _ _ Hnd) as Hn.
    apply NoDup_cons_1_2 in Hnd.
    destruct (do_work_quiet_eq fuel n thrctx prior l w)
      as (hs & w1 & Hhs & Hdo & Hs1 & Hp1 & Htr1); [apply Hslots; left|done..|].
    rewrite (set_worker_None _ Hnull) in Hdo.
    assert (Hwk : is_Some (worker_list_ (svc w1) !! N.to_nat n)).
    { assert (Hq : que_get (worker_que n) (svc w1) = Some []).
      { rewrite Hs1. apply que_get_set_eq. by rewrite Hl. }
      unfold que_get in Hq.
      destruct (worker_list_ (svc w1) !! N.to_nat n); [done|discriminate]. }
    destruct Hwk as [wk Hwk].
    rewrite (prior_sweep_cons _ _ _ _ _ _ _ _ _ _ _ Hdo Hwk).
    set (w2 := set_user _ w1).
    destruct (sweep_step n ns ls' (svc w) (svc w2) Hn) as [H2' Hslots'];
      [unfold w2; simpl; rewrite Hs1; apply que_set_workshop
      |intros q Hq; unfold w2; simpl; rewrite Hs1; by apply que_get_set_ne
      |done|intros x Hx; apply Hslots; by right|].
    destruct (IH ls' (size_wrap (p + size_wrap (N.of_nat (length l))))
                (long_wrap
                   (long_wrap
                      (e - Z.of_N (size_wrap (p + size_wrap (N.of_nat (length l)))))
                    - (fetch_sworks n (user w1)).1)) w2)
      as (hss & e' & w' & Hhss & Hrun & Hs & Hpl & Htr);
      [apply N.mod_upper_bound; done|done..|].
    exists (hs :: hss), e', w'. rewrite Hrun.
    split; [simpl; by rewrite Hhs, Hhss|].
    split.
    { do 3 f_equal. simpl. rewrite length_app, Nat2N.inj_add.
      rewrite size_wrap_add_r, size_wrap_add_l. f_equal. lia. }
    split; [rewrite Hs; unfold w2; simpl; by rewrite Hs1|].
    split; [rewrite Hpl; unfold w2; simpl; rewrite Hp1; simpl; by rewrite app_assoc|].
    rewrite Htr. unfold w2; cbn [trace set_user]. rewrite Htr1.
    cbn [zip_with concat]. by rewrite app_assoc.
Qed.


End Sweeps.


(** ** From submission to handler *)

Lemma length_omap_le {A B} (f : A -> option B) (l : list A) :
  (length (omap f l) <= length l)%nat.
Proof.
  induction l as [|x l IH]; csimpl; [done|]. destruct (f x); csimpl; lia.
Qed.

Lemma length_strand_share worker_num sndidx i evs :
  (length (strand_share worker_num sndidx i evs) <= length evs)%nat.
Proof.
  unfold strand_share. etrans; [apply length_omap_le|]. by rewrite length_imap.
Qed.

Lemma Forall2_map_r {A B} (P : A -> B -> Prop) (f : A -> B) (l : list A) :
  (forall x, x ∈ l -> P x (f x)) -> Forall2 P l (map f l).
Proof.
  induction l as [|x l IH]; intros H; simpl; constructor.
  - apply H. by left.
  - apply IH. intros y Hy. apply H. by right.
Qed.

Lemma NoDup_priors_of thread_num worker_num tidx :
  NoDup (priors_of thread_num worker_num tidx).
Proof. unfold priors_of. apply list_relations.list.NoDup_filter, NoDup_indices. Qed.

Lemma emptied_other ns n s :
  n ∉ ns -> que_get (worker_que n) (emptied ns s) = que_get (worker_que n) s.
Proof.
  unfold emptied. revert s. induction ns as [|m ns IH]; intros s Hn; [done|].
  cbn [foldl]. rewrite IH by (intros ?; apply Hn; by right).
  apply que_get_set_ne. intros [= ->]. apply Hn. by left.
Qed.

Lemma emptied_is_Some ns q s :
  is_Some (que_get q (emptied ns s)) <-> is_Some (que_get q s).
Proof.
  unfold emptied. revert s. induction ns as [|m ns IH]; intros s; [done|].
  cbn [foldl]. rewrite IH.
  destruct (decide (worker_que m = q)) as [<-|Hne].
  - split; intros [l Hl].
    + destruct (que_get (worker_que m) s) eqn:Hq; [done|].
      unfold que_get, que_set in *; simpl in *.
      rewrite list_lookup_alter_eq in Hl.
      by destruct (worker_list_ s !! N.to_nat m).
    + by rewrite que_get_set_eq.
  - by rewrite que_get_set_ne.
Qed.

Lemma emptied_swept ns n s :
  n ∈ ns -> is_Some (que_get (worker_que n) s) ->
  que_get (worker_que n) (emptied ns s) = Some [].
Proof.
  unfold emptied. revert s. induction ns as [|m ns IH]; intros s Hn Hs.
  - by apply elem_of_nil in Hn.
  - cbn [foldl]. destruct (decide (n ∈ ns)) as [Hin|Hout].
    + apply IH; [done|].
      destruct (decide (m = n)) as [->|Hne].
      * by rewrite que_get_set_eq.
      * rewrite que_get_set_ne; [done|congruence].
    + apply elem_of_cons in Hn as [->|Hn]; [|done].
      fold (emptied ns (que_set (worker_que m) [] s)).
      rewrite emptied_other by done. by apply que_get_set_eq.
Qed.

Section EndToEnd.
Context {U : Type}.
Variable handle : event -> thrctx_t -> U -> U * list submission * handle_result.
Variable fetch_sworks : N -> U -> Z * U.
Hypothesis Hquiet : quiet handle.
Implicit Types w : world (U:=U).

(** X13.  What [async] queues is what a sweep handles.  On a
    well-formed dispatcher whose prior workers of thread [tidx] are
    free, the events [evs] are submitted with [async] and a sweep over
    the prior workers of the thread is run (the handlers neither submit
    nor throw).  The sweep visits the prior workers in order and calls
    the handlers, for each worker, of the events that were already
    queued there followed by the worker's share of [evs], in
    submission order: its trace has one call for each of these events
    and no other.  Afterwards the queues of the prior workers are
    empty, and every other worker still has its share queued behind
    what it had.  (The sweep is run directly after the submissions; the
    wait of the run loop in front of it is not part of the
    statement.) *)
Theorem submitted_events_reach_handlers (tidx : N) (thrctx : thrctx_t)
    (qs : N -> list event) (evs : list event) (fuel : nat) (e : Z) w :
  let worker_num := get_worker_num (svc w) in
  let priors := priors_of (get_thread_num (svc w)) worker_num tidx in
  let share := strand_share worker_num (curr_sndidx_ (svc w)) in
  wf_svc (svc w) ->
  thr_worker thrctx = None ->
  (forall n, n ∈ priors ->
     workshop_ (svc w) !! N.to_nat n = Some (Some n)
     /\ que_get (worker_que n) (svc w) = Some (qs n)
     /\ (length (qs n) + length evs < fuel)%nat) ->
  exists w1 (hss : list (list (event * bool))) e' w2,
    async_all evs w = Done tt w1
    /\ prior_sweep handle fetch_sworks fuel priors thrctx 0 e w1
       = Done (size_wrap (N.of_nat (length (concat hss))), e', thrctx) w2
    /\ map (map fst) hss = map (fun n => qs n ++ share n evs) priors
    /\ pool w2 = pool w ++ concat (map released hss)
    /\ trace w2 = trace w1 ++ concat (zip_with (worked thrctx) priors hss)
    /\ (forall n, n ∈ priors -> que_get (worker_que n) (svc w2) = Some [])
    /\ (forall n, n ∉ priors ->
          que_get (worker_que n) (svc w2)
          = (fun l => l ++ share n evs) <$> que_get (worker_que n) (svc w)).
Proof.
  intros worker_num priors share Hwf Hnull Hpri.
  destruct (async_all_effect evs w Hwf)
    as (w1 & H1 & Hwf1 & Hq1 & _ & _ & _ & _ & Hws1 & Hp1).
  set (ls := map (fun n => qs n ++ share n evs) priors).
  assert (H2 : Forall2 (fun n l => que_get (worker_que n) (svc w1) = Some l)
                 priors ls).
  { apply Forall2_map_r. intros n Hn. destruct (Hpri n Hn) as (_ & Hq & _).
    rewrite Hq1, Hq. done. }
  assert (Hf : Forall (fun l => (length l < fuel)%nat) ls).
  { unfold ls. apply List.Forall_forall. intros l Hl.
    apply in_map_iff in Hl as (n & <- & Hn). apply list_elem_of_In in Hn.
    destruct (Hpri n Hn) as (_ & _ & Hlen). rewrite length_app.
    pose proof (length_strand_share worker_num (curr_sndidx_ (svc w)) n evs).
    unfold share. lia. }
  destruct (prior_sweep_quiet handle fetch_sworks Hquiet fuel thrctx Hnull
              priors ls 0 e w1)
    as (hss & e' & w2 & Hhss & Hrun & Hs2 & Hp2 & Htr2);
    [done|apply NoDup_priors_of|done| |done|].
  { intros n Hn. rewrite Hws1. by apply Hpri. }
  exists w1, hss, e', w2. split; [done|]. split.
  { assert (Hlen : length (concat ls) = length (concat hss)).
    { rewrite <- Hhss. clear. induction hss as [|hs hss IH]; simpl; [done|].
      by rewrite !length_app, length_map, IH. }
    by rewrite Hrun, N.add_0_l, Hlen. }
  split; [done|]. split; [by rewrite Hp2, Hp1|]. split; [done|]. split.
  - intros n Hn. rewrite Hs2. apply emptied_swept; [done|].
    destruct (Hpri n Hn) as (_ & Hq & _). rewrite Hq1, Hq. done.
  - intros n Hn. rewrite Hs2, emptied_other by done. apply Hq1.
Qed.

End EndToEnd.

Lemma submitted_events_reach_handlers_witness :
  let w := fresh_world 2 3 in
  let thrctx := mk_thrctx 0 None in
  let priors := priors_of (get_thread_num (svc w)) (get_worker_num (svc w)) 0 in
  quiet even_auto
  /\ wf_svc (svc w)
  /\ priors = [0; 2]
  /\ exists w1 e' w2,
       async_all [10; 11; 12; 13; 14] w = Done tt w1
       /\ prior_sweep even_auto no_sworks 6 priors thrctx 0 0 w1
          = Done (3, e', thrctx) w2
       /\ pool w2 = [10; 12]
       /\ que_get (worker_que 1) (svc w2) = Some [11; 14].
Proof.
  intros w thrctx priors.
  assert (Hquiet : quiet even_auto).
  { intros ev thr u. by exists u, (N.even ev). }
  assert (Hwf : wf_svc (svc w)).
  { apply ctor_wf; vm_compute; reflexivity. }
  assert (Hpri : forall n, n ∈ priors ->
             workshop_ (svc w) !! N.to_nat n = Some (Some n)
             /\ que_get (worker_que n) (svc w) = Some ((fun _ => []) n)
             /\ (length ((fun _ : N => @nil event) n)
                 + length [10; 11; 12; 13; 14] < 6)%nat).
  { intros n Hn. apply elem_of_priors_of in Hn as [Hn _].
    change (get_worker_num (svc w)) with 3 in Hn.
    assert (n = 0 \/ n = 1 \/ n = 2) as [->|[->| ->]] by lia;
      (split; [reflexivity|split; [reflexivity|simpl; lia]]). }
  split; [exact Hquiet|]. split; [exact Hwf|].
  split; [vm_compute; reflexivity|].
  destruct (submitted_events_reach_handlers even_auto no_sworks Hquiet 0 thrctx
              (fun _ => []) [10; 11; 12; 13; 14] 6 0 w Hwf eq_refl Hpri)
    as (w1 & hss & e' & w2 & H1 & H2 & _).
  exists w1, e', w2. split; [exact H1|].
  pose proof H1 as H1'. vm_compute in H1'. injection H1' as Hw1.
  pose proof H2 as H2'. rewrite <- Hw1 in H2'. vm_compute in H2'.
  injection H2' as Hn _ Hw2.
  assert (Hc : size_wrap (N.of_nat (length (concat hss))) = 3)
    by (symmetry; exact Hn).
  split; [rewrite <- Hc; exact H2|].
  rewrite <- Hw2. split; reflexivity.
Defined.
